(** * WKPostMessenger: a shallow embedding of src/WKPostMessenger.js

    The channel object, the promises it creates, the timers it arms, the
    event emitter it registers waiters in and the transport it posts to are
    modelled as one explicit state record.  Every method of the class is a
    function on that record; every closure the source hands to [then],
    [catch], [setTimeout] or the emitter is a constructor of a small
    defunctionalised type, run by the function that plays the part of the
    JavaScript engine (timer dispatch, microtask queue). *)

From Stdlib Require Import Ascii.
From stdpp Require Import base numbers list strings pretty sorting.

Local Open Scope Z_scope.

(** ** JavaScript values and completions *)

Inductive JsVal : Type :=
  | VUndefined
  | VNull
  | VBool (b : bool)
  | VNum (z : Z)
  | VStr (s : string)
  | VObj (ref : nat)           (* an object, opaque to the channel *)
  | VError (msg : string)      (* new Error(msg) *)
  | VTypeError.                (* raised by the engine: property access on undefined *)

(** An object literal, field by field in source order. *)
Abbreviation Payload := (list (string * JsVal)) (only parsing).

Fixpoint field (k : string) (o : Payload) : option JsVal :=
  match o with
  | [] => None
  | (k', v) :: o' => if String.eqb k k' then Some v else field k o'
  end.

(** A call either returns or throws. *)
Inductive Completion (A : Type) : Type :=
  | Return (a : A)
  | Throw (e : JsVal).
Arguments Return {A} a.
Arguments Throw {A} e.

(** ** Constants of the module *)

Definition DEFAULT_TIMEOUT : Z := 3000.
Definition HANDSHAKE_ACTION : string := "__WK_HANDSHAKE__".
Definition CALLBACK_ACTION : string := "__WK_CALLBACK__".
Definition MESSAGE_TYPE : string := "application/x-wkpostmessenger-v1+json".

(** ** Token generators

    [idGenerator] is any object with a [next()] method; the reading of
    [Date.now()] at the moment of the call is passed in. *)

Class IdGenerator (G : Type) := gen_next : Z → G → string * G.

Module TimestampId.

(** The closure variables of [timestampIdGenerator]: [inc] counts calls
    within one millisecond, [now] and [lastNow] are [undefined] until the
    first call. *)
Record t : Type := mk {
  inc : N;
  now : option Z;
  lastNow : option Z
}.

Definition timestampIdGenerator : t :=
  {| inc := 0; now := None; lastNow := None |}.

(** [lastNow === now]: strict equality of two numbers, or of [undefined]
    with a number (always false after [now = Date.now()]). *)
Definition strict_eq (a b : option Z) : bool :=
  match a, b with
  | Some x, Some y => Z.eqb x y
  | None, None => true
  | _, _ => false
  end.

(** [inc += 1] on a JavaScript number: exact below 2^53, where adding
    one rounds back to 2^53. *)
Definition incr (n : N) : N :=
  if (n <? 2 ^ 53)%N then (n + 1)%N else n.

(** [next()], with [date_now] the value [Date.now()] returns. The result
    is the template literal [`${inc}${now}`]. *)
Definition next (date_now : Z) (g : t) : string * t :=
  let lastNow' := now g in
  let now' := date_now in
  let inc' := if strict_eq lastNow' (Some now')
              then incr (inc g)
              else 0%N in
  (pretty inc' +:+ pretty now',
   {| inc := inc'; now := Some now'; lastNow := lastNow' |}).

(** The counter is in the range where numbers still count by ones; it
    would take 2^53 calls inside one millisecond to leave it. *)
Definition safe (g : t) : Prop := (inc g + 1 < 2 ^ 53)%N.

End TimestampId.

Global Instance timestamp_generator : IdGenerator TimestampId.t :=
  TimestampId.next.

(** ** Promises

    A promise is an index into the store of the state below. The closures
    the source passes to [then] and [catch] are the constructors of
    [Callback]; a [Reaction] pairs one with the promise that [then] or
    [catch] returned. *)

Abbreviation PromiseId := nat (only parsing).

Inductive Outcome : Type :=
  | Fulfilled (v : JsVal)
  | Rejected (reason : JsVal).

Inductive PromiseState : Type :=
  | Pending
  | Settled (o : Outcome).

(** The place in the source where a promise is created. *)
Inductive PromiseKind : Type :=
  | KCall        (* new Promise(...) in _sendMessage *)
  | KConnected   (* .then(() => { this._connected = true; }) *)
  | KWhenReady   (* .catch(...) in sendHandshake, stored in _whenReady *)
  | KRejection   (* Promise.reject(...) inside that catch handler *)
  | KMessage     (* this._whenReady.then(...) in sendMessage *)
  | KHandler     (* a promise returned by the user's handleMessage *)
  | KReplied.    (* result.then(...) in the global handler *)

Inductive Callback : Type :=
  | CbConnected
      (* () => { this._connected = true; } *)
  | CbHandshakeFailed
      (* () => { this._connecting = false; return Promise.reject(...); } *)
  | CbSend (action : string) (data : JsVal) (timeout : Z)
      (* () => this._sendMessage(action, data, timeout) *)
  | CbReply (id : string)
      (* promiseResult => this._sendMessageCallback(id, promiseResult) *)
  | CbAdopt
      (* the resolving functions of a promise resolved with a promise *)
  | CbThenable (q : PromiseId).
      (* the engine's job for a promise resolved with the promise q
         (NewPromiseResolveThenableJob): it calls q.then with the
         resolving functions *)

Record Reaction : Type := mkReaction {
  r_callback : Callback;
  r_derived : PromiseId
}.

Abbreviation Job := (Reaction * Outcome)%type (only parsing).

Record PromiseRec : Type := mkPromise {
  pstate : PromiseState;
  reactions : list Reaction;
  kind : PromiseKind
}.

(** ** The user's handler and the channel's configuration *)

Inductive HandlerResult : Type :=
  | HReturns (v : JsVal)   (* a value that is not a thenable *)
  | HThrows (e : JsVal)
  | HPromise.              (* a promise, settled later by its owner *)

Definition Handler : Type := string → JsVal → HandlerResult.

(** The fields the constructor sets once. [parent] is the value of
    [window.webkit.messageHandlers[scriptMessageHandler]]: [None] when that
    property is [undefined]. *)
Record Config : Type := mkConfig {
  handleMessage : option Handler;
  parent : option string;
  _hm : string;
  _cb : string;
  _handshakeTimeout : Z;
  _messageTimeout : Z
}.

(** [callbackReceived] of the call whose promise is [l_call], registered
    with the emitter under the event name [l_id]. *)
Record Listener : Type := mkListener {
  l_id : string;
  l_call : PromiseId
}.

(** The [rejectTimeout] timer of the call whose promise is [t_call]. A call
    arms at most one timer, so the call's promise serves as the handle. *)
Record Timer : Type := mkTimer {
  t_call : PromiseId;
  t_id : string;
  t_deadline : Z
}.

Section Channel.

Context {G : Type} `{IdGenerator G}.

(** The channel instance together with the part of the JavaScript
    runtime it lives in. *)
Record State : Type := mkState {
  cfg : Config;
  _idGen : G;
  _connecting : bool;
  _connected : bool;
  _whenReady : option PromiseId;
  _emitter : list Listener;
  promises : list PromiseRec;
  timers : list Timer;
  microtasks : list Job;
  sent : list Payload;      (* what the transport was given, in order *)
  clock : Z                 (* milliseconds *)
}.

Definition set_idGen (g : G) (s : State) : State :=
  mkState (cfg s) g (_connecting s) (_connected s) (_whenReady s)
    (_emitter s) (promises s) (timers s) (microtasks s) (sent s) (clock s).
Definition set_connecting (b : bool) (s : State) : State :=
  mkState (cfg s) (_idGen s) b (_connected s) (_whenReady s)
    (_emitter s) (promises s) (timers s) (microtasks s) (sent s) (clock s).
Definition set_connected (b : bool) (s : State) : State :=
  mkState (cfg s) (_idGen s) (_connecting s) b (_whenReady s)
    (_emitter s) (promises s) (timers s) (microtasks s) (sent s) (clock s).
Definition set_whenReady (w : option PromiseId) (s : State) : State :=
  mkState (cfg s) (_idGen s) (_connecting s) (_connected s) w
    (_emitter s) (promises s) (timers s) (microtasks s) (sent s) (clock s).
Definition set_emitter (e : list Listener) (s : State) : State :=
  mkState (cfg s) (_idGen s) (_connecting s) (_connected s) (_whenReady s)
    e (promises s) (timers s) (microtasks s) (sent s) (clock s).
Definition set_promises (ps : list PromiseRec) (s : State) : State :=
  mkState (cfg s) (_idGen s) (_connecting s) (_connected s) (_whenReady s)
    (_emitter s) ps (timers s) (microtasks s) (sent s) (clock s).
Definition set_timers (ts : list Timer) (s : State) : State :=
  mkState (cfg s) (_idGen s) (_connecting s) (_connected s) (_whenReady s)
    (_emitter s) (promises s) ts (microtasks s) (sent s) (clock s).
Definition set_microtasks (q : list Job) (s : State) : State :=
  mkState (cfg s) (_idGen s) (_connecting s) (_connected s) (_whenReady s)
    (_emitter s) (promises s) (timers s) q (sent s) (clock s).
Definition set_sent (l : list Payload) (s : State) : State :=
  mkState (cfg s) (_idGen s) (_connecting s) (_connected s) (_whenReady s)
    (_emitter s) (promises s) (timers s) (microtasks s) l (clock s).
Definition set_clock (t : Z) (s : State) : State :=
  mkState (cfg s) (_idGen s) (_connecting s) (_connected s) (_whenReady s)
    (_emitter s) (promises s) (timers s) (microtasks s) (sent s) t.

(** *** The promise machinery of the engine *)

Definition promise_state (p : PromiseId) (s : State) : option PromiseState :=
  pstate <$> promises s !! p.

Definition new_promise (k : PromiseKind) (st : PromiseState) (s : State)
  : PromiseId * State :=
  (length (promises s),
   set_promises (promises s ++ [mkPromise st [] k]) s).

(** Settling: the first call of a promise's resolve or reject function
    fixes its state and queues its reactions; later calls do nothing. *)
Definition settle (p : PromiseId) (o : Outcome) (s : State) : State :=
  match promises s !! p with
  | Some pr =>
      match pstate pr with
      | Pending =>
          set_microtasks
            (microtasks s ++ map (λ r, (r, o)) (reactions pr))
            (set_promises
               (<[p := mkPromise (Settled o) [] (kind pr)]> (promises s)) s)
      | Settled _ => s
      end
  | None => s
  end.

(** Registering a reaction on [p]: stored while [p] is pending, queued
    as a job at once when [p] is already settled. *)
Definition subscribe (p : PromiseId) (r : Reaction) (s : State) : State :=
  match promises s !! p with
  | Some pr =>
      match pstate pr with
      | Pending =>
          set_promises
            (<[p := mkPromise Pending (reactions pr ++ [r]) (kind pr)]>
               (promises s)) s
      | Settled o => set_microtasks (microtasks s ++ [(r, o)]) s
      end
  | None => s
  end.

(** [p.then(cb)] and [p.catch(cb)]: a new promise of kind [k], settled
    by [cb]'s job. *)
Definition then_ (p : PromiseId) (cb : Callback) (k : PromiseKind)
    (s : State) : PromiseId * State :=
  let '(d, s1) := new_promise k Pending s in
  (d, subscribe p (mkReaction cb d) s1).

(** A handler returned the promise [q]: the resolve function of the
    derived promise [d] is called with a thenable, and the engine queues
    the job that will call [q.then] with the resolving functions of [d].
    That job sits in the queue as a reaction whose outcome is not read.
    (The promise which that [then] call itself returns is referenced by
    nothing and is not given a place in the store.) *)
Definition adopt (d q : PromiseId) (s : State) : State :=
  set_microtasks
    (microtasks s ++ [(mkReaction (CbThenable q) d, Fulfilled VUndefined)]) s.

(** *** The emitter, [setTimeout] and the transport

    eemit is a dependency of the package; the three methods the source
    calls are taken with the contract of a publish/subscribe emitter:
    [on] registers a listener under a name until [off] removes it, and
    [trigger] calls the listeners registered under the name. *)

Definition listener_is (id : string) (p : PromiseId) (l : Listener) : bool :=
  String.eqb id (l_id l) && Nat.eqb p (l_call l).

Definition emitter_on (id : string) (p : PromiseId) (s : State) : State :=
  set_emitter (_emitter s ++ [mkListener id p]) s.

Definition emitter_off (id : string) (p : PromiseId) (s : State) : State :=
  set_emitter (filter (λ l, listener_is id p l = false) (_emitter s)) s.

Definition listeners (id : string) (s : State) : list PromiseId :=
  l_call <$> filter (λ l, String.eqb id (l_id l) = true) (_emitter s).

Definition setTimeout (t : Timer) (s : State) : State :=
  set_timers (timers s ++ [t]) s.

Definition clearTimeout (p : PromiseId) (s : State) : State :=
  set_timers (filter (λ t, Nat.eqb p (t_call t) = false) (timers s)) s.

Definition armed (p : PromiseId) (s : State) : option Timer :=
  List.find (λ t, Nat.eqb p (t_call t)) (timers s).

(** [this.parent.postMessage(payload)]: a [TypeError] when [parent] is
    [undefined]. *)
Definition postMessage (payload : Payload) (s : State) : Completion State :=
  match parent (cfg s) with
  | Some _ => Return (set_sent (sent s ++ [payload]) s)
  | None => Throw VTypeError
  end.

(** *** The methods of the class *)

Definition TIMEOUT_MESSAGE : JsVal :=
  VStr "[WKPostMessenger] message acknowledgment timeout".
Definition TIMEOUT_HANDSHAKE : JsVal :=
  VStr "[WKPostMessenger] handshake acknowledgment timeout".
Definition ALREADY_COMPLETED : JsVal :=
  VError "[WKPostMessenger] sendHandshake was already completed!!".

Definition request_payload (cb id action : string) (data : JsVal) : Payload :=
  [("type", VStr MESSAGE_TYPE);
   ("callback", VStr cb);
   ("id", VStr id);
   ("action", VStr action);
   ("data", data)].

Definition reply_payload (id : string) (data : JsVal) : Payload :=
  [("type", VStr MESSAGE_TYPE);
   ("callback", VStr "");
   ("action", VStr CALLBACK_ACTION);
   ("id", VStr id);
   ("data", data)].

(** [callbackReceived], the listener of call [p]. *)
Definition callbackReceived (p : PromiseId) (result : JsVal) (s : State)
  : State :=
  settle p (Fulfilled result) (clearTimeout p s).

(** The callback given to [setTimeout] by call [p] with token [id]. *)
Definition rejectTimeout (p : PromiseId) (id : string) (s : State) : State :=
  settle p (Rejected TIMEOUT_MESSAGE) (emitter_off id p s).

(** [_sendMessage(action, data, timeout)]. An exception in the executor
    of [new Promise] rejects the promise. *)
Definition _sendMessage (action : string) (data : JsVal) (timeout : Z)
    (s : State) : PromiseId * State :=
  let '(p, s1) := new_promise KCall Pending s in
  let '(id, g) := gen_next (clock s1) (_idGen s1) in
  let s2 := set_idGen g s1 in
  let payload := request_payload (_cb (cfg s2)) id action data in
  let s3 := if 0 <? timeout
            then setTimeout (mkTimer p id (clock s2 + timeout)) s2
            else s2 in
  let s4 := emitter_on id p s3 in
  match postMessage payload s4 with
  | Return s5 => (p, s5)
  | Throw e => (p, settle p (Rejected e) s4)
  end.

(** [_sendMessageCallback(id, data)]. *)
Definition _sendMessageCallback (id : string) (data : JsVal) (s : State)
  : Completion State :=
  postMessage (reply_payload id data) s.

(** [_handleMessage(action, data)]. *)
Definition _handleMessage (action : string) (data : JsVal) (s : State)
  : HandlerResult :=
  match handleMessage (cfg s) with
  | Some h => h action data
  | None => HReturns VNull
  end.

(** [sendHandshake()]: the value of [this._whenReady], or an exception. *)
Definition sendHandshake (s : State)
  : Completion (option PromiseId) * State :=
  if _connected s then (Throw ALREADY_COMPLETED, s)
  else if negb (_connecting s) then
    let s1 := set_connecting true s in
    let '(p0, s2) :=
      _sendMessage HANDSHAKE_ACTION (VStr (_hm (cfg s1)))
        (_handshakeTimeout (cfg s1)) s1 in
    let '(p1, s3) := then_ p0 CbConnected KConnected s2 in
    let '(p2, s4) := then_ p1 CbHandshakeFailed KWhenReady s3 in
    let s5 := set_whenReady (Some p2) s4 in
    (Return (_whenReady s5), s5)
  else (Return (_whenReady s), s).

(** [sendMessage(action, data, timeout = this._messageTimeout)]. *)
Definition sendMessage (action : string) (data : JsVal) (timeout : option Z)
    (s : State) : Completion PromiseId * State :=
  let timeout := default (_messageTimeout (cfg s)) timeout in
  let '(c, s1) :=
    match _whenReady s with
    | None => sendHandshake s
    | Some _ => (Return None, s)
    end in
  match c with
  | Throw e => (Throw e, s1)
  | Return _ =>
      match _whenReady s1 with
      | Some w =>
          let '(d, s2) := then_ w (CbSend action data timeout) KMessage s1 in
          (Return d, s2)
      | None => (Throw VTypeError, s1)
      end
  end.

(** [window[handlerGlobal]], the entry point for calls from the app. *)
Definition window_handler (id action : string) (data : JsVal) (s : State)
  : Completion unit * State :=
  match _handleMessage action data s with
  | HThrows e => (Throw e, s)
  | HPromise =>
      let '(q, s1) := new_promise KHandler Pending s in
      let '(_, s2) := then_ q (CbReply id) KReplied s1 in
      (Return (), s2)
  | HReturns result =>
      match _sendMessageCallback id result s with
      | Return s1 => (Return (), s1)
      | Throw e => (Throw e, s)
      end
  end.

(** [window[callbackGlobal]], the entry point for replies from the app:
    [this._emitter.trigger(id, result)]. *)
Definition window_callback (id : string) (result : JsVal) (s : State)
  : State :=
  foldl (λ s' p, callbackReceived p result s') s (listeners id s).

(** *** Jobs of the microtask queue *)

Definition run_job (j : Job) (s : State) : State :=
  let '(mkReaction cb d, o) := j in
  match cb, o with
  | CbConnected, Fulfilled _ =>
      settle d (Fulfilled VUndefined) (set_connected true s)
  | CbHandshakeFailed, Rejected _ =>
      let s1 := set_connecting false s in
      let '(r, s2) :=
        new_promise KRejection (Settled (Rejected TIMEOUT_HANDSHAKE)) s1 in
      adopt d r s2
  | CbSend action data timeout, Fulfilled _ =>
      let '(q, s1) := _sendMessage action data timeout s in
      adopt d q s1
  | CbReply id, Fulfilled promiseResult =>
      match _sendMessageCallback id promiseResult s with
      | Return s1 => settle d (Fulfilled VUndefined) s1
      | Throw e => settle d (Rejected e) s
      end
  | CbAdopt, _ => settle d o s
  | CbThenable q, _ => subscribe q (mkReaction CbAdopt d) s
  | CbConnected, Rejected _
  | CbSend _ _ _, Rejected _
  | CbReply _, Rejected _
  | CbHandshakeFailed, Fulfilled _ => settle d o s
  end.

Definition run_microtask (s : State) : State :=
  match microtasks s with
  | [] => s
  | j :: q => run_job j (set_microtasks q s)
  end.

Fixpoint drain (n : nat) (s : State) : State :=
  match n with
  | O => s
  | S n' => drain n' (run_microtask s)
  end.

(** *** Events *)

Inductive Event : Type :=
  | ESendHandshake
      (* the page calls sendHandshake() *)
  | ESendMessage (action : string) (data : JsVal) (timeout : option Z)
      (* the page calls sendMessage(action, data[, timeout]) *)
  | EInbound (id action : string) (data : JsVal)
      (* the app calls window[handlerGlobal](id, action, data) *)
  | EReply (id : string) (result : JsVal)
      (* the app calls window[callbackGlobal](id, result) *)
  | ETimer (p : PromiseId)
      (* the engine runs the timer of call p, if armed and due *)
  | ETick (dt : N)
      (* dt milliseconds pass *)
  | EMicrotask
      (* the engine runs the first job of the microtask queue *)
  | ESettle (q : PromiseId) (o : Outcome).
      (* the owner of the handler promise q settles it *)

Definition fire_timer (p : PromiseId) (s : State) : State :=
  match armed p s with
  | Some t =>
      if t_deadline t <=? clock s
      then rejectTimeout p (t_id t) (clearTimeout p s)
      else s
  | None => s
  end.

Definition settle_handler (q : PromiseId) (o : Outcome) (s : State) : State :=
  match promises s !! q with
  | Some pr =>
      match kind pr with
      | KHandler => settle q o s
      | _ => s
      end
  | None => s
  end.

Definition step (e : Event) (s : State) : State :=
  match e with
  | ESendHandshake => snd (sendHandshake s)
  | ESendMessage action data timeout => snd (sendMessage action data timeout s)
  | EInbound id action data => snd (window_handler id action data s)
  | EReply id result => window_callback id result s
  | ETimer p => fire_timer p s
  | ETick dt => set_clock (clock s + Z.of_N dt) s
  | EMicrotask => run_microtask s
  | ESettle q o => settle_handler q o s
  end.

Definition run (tr : list Event) (s : State) : State :=
  foldl (λ s' e, step e s') s tr.

(** *** Construction *)

Record Options : Type := mkOptions {
  o_handleMessage : option Handler;
  o_scriptMessageHandler : string;
  o_handlerGlobal : string;
  o_callbackGlobal : string;
  o_handshakeTimeout : Z;
  o_messageTimeout : Z;
  o_idGenerator : G;
  o_autoHandshake : bool
}.

(** What the constructor reads of the page: [window.webkit] may be
    [undefined], and so may [window.webkit.messageHandlers]; otherwise the
    latter has the listed properties. [date_now] is the clock. *)
Inductive Webkit : Type :=
  | NoWebkit
  | NoMessageHandlers
  | MessageHandlers (names : list string).

Record Window : Type := mkWindow {
  webkit : Webkit;
  date_now : Z
}.

(** [window.webkit.messageHandlers[name]]: reading a property of
    [undefined] throws, reading a missing property gives [undefined]. *)
Definition messageHandler (name : string) (w : Window)
  : Completion (option string) :=
  match webkit w with
  | NoWebkit | NoMessageHandlers => Throw VTypeError
  | MessageHandlers names =>
      Return (if bool_decide (name ∈ names) then Some name else None)
  end.

Definition constructor (o : Options) (w : Window) : Completion State :=
  match messageHandler (o_scriptMessageHandler o) w with
  | Throw _ =>
      Throw (VError ("Can't add message handler " +:+ o_scriptMessageHandler o))
  | Return target =>
      let s := {|
        cfg := {|
          handleMessage := o_handleMessage o;
          parent := target;
          _hm := o_handlerGlobal o;
          _cb := o_callbackGlobal o;
          _handshakeTimeout := o_handshakeTimeout o;
          _messageTimeout := o_messageTimeout o |};
        _idGen := o_idGenerator o;
        _connecting := false;
        _connected := false;
        _whenReady := None;
        _emitter := [];
        promises := [];
        timers := [];
        microtasks := [];
        sent := [];
        clock := date_now w |} in
      if o_autoHandshake o
      then match sendHandshake s with
           | (Return _, s') => Return s'
           | (Throw e, _) => Throw e
           end
      else Return s
  end.

End Channel.

Arguments State G : clear implicits.
Arguments Options G : clear implicits.

Definition default_options : Options TimestampId.t := {|
  o_handleMessage := None;
  o_scriptMessageHandler := "wkPostMessage";
  o_handlerGlobal := "wkPostMessengerHandleMessage";
  o_callbackGlobal := "wkPostMessengerCallback";
  o_handshakeTimeout := DEFAULT_TIMEOUT;
  o_messageTimeout := DEFAULT_TIMEOUT;
  o_idGenerator := TimestampId.timestampIdGenerator;
  o_autoHandshake := true
|}.

(** ** Observations and invariants *)

Inductive Connection : Type := Unconnected | Connecting | Connected.

(** Envelopes by their [action] field. *)
Definition action_of (e : Payload) : option string :=
  match field "action" e with
  | Some (VStr a) => Some a
  | _ => None
  end.

Definition id_of (e : Payload) : option string :=
  match field "id" e with
  | Some (VStr a) => Some a
  | _ => None
  end.

Definition is_handshake (e : Payload) : Prop :=
  action_of e = Some HANDSHAKE_ACTION.

Definition is_reply (e : Payload) : Prop :=
  action_of e = Some CALLBACK_ACTION.

Definition is_message (e : Payload) : Prop :=
  ∃ a, action_of e = Some a ∧ a ≠ HANDSHAKE_ACTION ∧ a ≠ CALLBACK_ACTION.

(** Which kind of promise a callback's [then]/[catch] returns, and on which
    kind of promise the source registers it. *)
Definition derived_kind_ok (cb : Callback) (k : PromiseKind) : Prop :=
  match cb, k with
  | CbConnected, KConnected
  | CbHandshakeFailed, KWhenReady
  | CbSend _ _ _, KMessage
  | CbReply _, KReplied
  | CbAdopt, KMessage
  | CbAdopt, KWhenReady
  | CbThenable _, KMessage
  | CbThenable _, KWhenReady => True
  | _, _ => False
  end.

Definition source_kind_ok (cb : Callback) (k : PromiseKind) : Prop :=
  match cb, k with
  | CbConnected, KCall
  | CbHandshakeFailed, KConnected
  | CbSend _ _ _, KWhenReady
  | CbReply _, KHandler
  | CbAdopt, KCall => True
  | _, _ => False
  end.

(** Promises whose fulfilment means the handshake was acknowledged. *)
Definition gate (k : PromiseKind) : Prop := k = KConnected ∨ k = KWhenReady.

Section Invariants.

Context {G : Type} `{IdGenerator G}.

Definition connection (s : State G) : Connection :=
  if _connected s then Connected
  else if _connecting s then Connecting
  else Unconnected.

Definition kind_of (p : PromiseId) (s : State G) : option PromiseKind :=
  kind <$> promises s !! p.

(** Every reaction of the runtime: queued as a job or stored on a
    pending promise. *)
Definition all_reactions (s : State G) : list Reaction :=
  (fst <$> microtasks s) ++ concat (reactions <$> promises s).

Definition located (s : State G) : Prop := is_Some (parent (cfg s)).

(** What [settle] and [subscribe] do to one record and to the queue. *)
Definition settled_rec (o : Outcome) (pr : PromiseRec) : PromiseRec :=
  match pstate pr with
  | Pending => mkPromise (Settled o) [] (kind pr)
  | Settled _ => pr
  end.

Definition settle_jobs (p : PromiseId) (o : Outcome) (s : State G)
  : list Job :=
  match promises s !! p with
  | Some pr =>
      match pstate pr with
      | Pending => (λ r, (r, o)) <$> reactions pr
      | Settled _ => []
      end
  | None => []
  end.

Definition subscribed_rec (r : Reaction) (pr : PromiseRec) : PromiseRec :=
  match pstate pr with
  | Pending => mkPromise Pending (reactions pr ++ [r]) (kind pr)
  | Settled _ => pr
  end.

Definition subscribe_jobs (p : PromiseId) (r : Reaction) (s : State G)
  : list Job :=
  match promises s !! p with
  | Some pr =>
      match pstate pr with
      | Pending => []
      | Settled o => [(r, o)]
      end
  | None => []
  end.

Definition job_ok (s : State G) (j : Job) : Prop :=
  match j with
  | (r, Fulfilled _) =>
      match r_callback r with
      | CbSend _ _ _ | CbHandshakeFailed => _connected s = true
      | CbAdopt => kind_of (r_derived r) s = Some KMessage
      | CbThenable q =>
          (kind_of q s = Some KCall
           ∧ kind_of (r_derived r) s = Some KMessage)
          ∨ kind_of q s = Some KRejection
      | _ => True
      end
  | (r, Rejected _) =>
      match r_callback r with
      | CbThenable _ => False
      | _ => True
      end
  end.

(** The state [_sendMessage] returns, field by field: the token is
    drawn, the promise allocated (rejected at once when there is no
    transport to post to), the timer armed when the timeout is positive,
    the listener registered and the envelope posted. *)
Definition call_token (s : State G) : string :=
  (gen_next (clock s) (_idGen s)).1.

Definition after_call (action : string) (data : JsVal) (timeout : Z)
    (s : State G) : State G :=
  let p := length (promises s) in
  let id := call_token s in
  mkState (cfg s) (gen_next (clock s) (_idGen s)).2
    (_connecting s) (_connected s) (_whenReady s)
    (_emitter s ++ [mkListener id p])
    (promises s ++
       [mkPromise (match parent (cfg s) with
                   | Some _ => Pending
                   | None => Settled (Rejected VTypeError)
                   end) [] KCall])
    (if 0 <? timeout
     then timers s ++ [mkTimer p id (clock s + timeout)]
     else timers s)
    (microtasks s)
    (match parent (cfg s) with
     | Some _ => sent s ++ [request_payload (_cb (cfg s)) id action data]
     | None => sent s
     end)
    (clock s).

(** The state a new handshake attempt leaves, step by step as in
    [sendHandshake], and the promise it stores in [_whenReady]. *)
Definition handshake_call (s : State G) : State G :=
  after_call HANDSHAKE_ACTION (VStr (_hm (cfg s)))
    (_handshakeTimeout (cfg s)) (set_connecting true s).

Definition handshake_then (s : State G) : State G :=
  (then_ (length (promises s)) CbConnected KConnected
     (handshake_call s)).2.

Definition handshake_catch (s : State G) : State G :=
  (then_ (length (promises (handshake_call s))) CbHandshakeFailed
     KWhenReady (handshake_then s)).2.

Definition handshake_promise (s : State G) : PromiseId :=
  length (promises (handshake_then s)).

Definition after_handshake (s : State G) : State G :=
  set_whenReady (Some (handshake_promise s)) (handshake_catch s).

(** The invariant of reachable states. *)
Record wf (s : State G) : Prop := mkWf {
  wf_listeners :
    ∀ l, l ∈ _emitter s → kind_of (l_call l) s = Some KCall;
  wf_timers :
    ∀ t, t ∈ timers s → kind_of (t_call t) s = Some KCall;
  wf_targets :
    ∀ r, r ∈ all_reactions s →
      ∃ k, kind_of (r_derived r) s = Some k
           ∧ derived_kind_ok (r_callback r) k;
  wf_nodup :
    NoDup (r_derived <$> all_reactions s);
  wf_whenReady :
    ∀ w, _whenReady s = Some w → kind_of w s = Some KWhenReady;
  wf_sources :
    ∀ i pr r, promises s !! i = Some pr → r ∈ reactions pr →
      pstate pr = Pending
      ∧ source_kind_ok (r_callback r) (kind pr)
      ∧ (r_callback r = CbAdopt →
         kind_of (r_derived r) s = Some KMessage);
  wf_fulfilled :
    ∀ i pr v, promises s !! i = Some pr →
      pstate pr = Settled (Fulfilled v) → gate (kind pr) →
      _connected s = true;
  wf_jobs :
    ∀ j, j ∈ microtasks s → job_ok s j;
  wf_sent :
    ∀ l1 e l2, sent s = l1 ++ e :: l2 → is_message e →
      _connected s = true ∧ ∃ h, h ∈ l1 ∧ is_handshake h;
  wf_handshake_sent :
    located s →
    (_connected s = true
     ∨ ∃ r, r ∈ all_reactions s ∧ r_callback r = CbConnected) →
    ∃ h, h ∈ sent s ∧ is_handshake h;
  wf_rejections :
    ∀ i pr, promises s !! i = Some pr → kind pr = KRejection →
      ∃ reason, pstate pr = Settled (Rejected reason)
}.

(** What any piece of the program can do to the state, given the set
    [T] of promises it may settle: promises are only added, kinds are
    fixed, a settled promise stays as it is, a pending one keeps its
    reactions until it is settled and they are queued; listeners and
    timers are only added for new promises and only removed for promises
    in [T]; jobs stay queued; the transport log only grows. *)
Record evolves (T : PromiseId → Prop) (s s' : State G) : Prop := mkEvolves {
  ev_length : (length (promises s) ≤ length (promises s'))%nat;
  ev_promises :
    ∀ i pr, promises s !! i = Some pr →
      ∃ pr', promises s' !! i = Some pr' ∧ kind pr' = kind pr ∧
        match pstate pr with
        | Settled o => pstate pr' = Settled o
        | Pending =>
            (pstate pr' = Pending
             ∧ ∀ r, r ∈ reactions pr → r ∈ reactions pr')
            ∨ (T i ∧ ∃ o, pstate pr' = Settled o
                ∧ ∀ r, r ∈ reactions pr → (r, o) ∈ microtasks s')
        end;
  ev_listeners_old :
    ∀ l, l ∈ _emitter s' →
      l ∈ _emitter s ∨ (length (promises s) ≤ l_call l)%nat;
  ev_listeners_kept :
    ∀ l, l ∈ _emitter s → l ∈ _emitter s' ∨ T (l_call l);
  ev_timers_old :
    ∀ t, t ∈ timers s' →
      t ∈ timers s ∨ (length (promises s) ≤ t_call t)%nat;
  ev_timers_kept :
    ∀ t, t ∈ timers s → t ∈ timers s' ∨ T (t_call t);
  ev_connected : _connected s = true → _connected s' = true;
  ev_cfg : cfg s' = cfg s;
  ev_sent : sent s `prefix_of` sent s';
  ev_jobs : ∀ j, j ∈ microtasks s → j ∈ microtasks s';
  ev_clock : clock s ≤ clock s'
}.

(** The promises an event may settle, and the state its handler starts
    from (for a microtask, the queue without the job being run). *)
Definition touched (e : Event) (s : State G) (i : PromiseId) : Prop :=
  match e with
  | EReply id _ => i ∈ listeners id s
  | ETimer p =>
      i = p ∧ ∃ t, armed p s = Some t ∧ t_deadline t ≤ clock s
  | EMicrotask =>
      ∃ j, head (microtasks s) = Some j ∧ i = r_derived j.1
  | ESettle q _ => i = q ∧ kind_of q s = Some KHandler
  | _ => False
  end.

Definition before (e : Event) (s : State G) : State G :=
  match e with
  | EMicrotask => set_microtasks (tail (microtasks s)) s
  | _ => s
  end.

(** The handshake fields are left alone. *)
Definition same_handshake (s s' : State G) : Prop :=
  _whenReady s' = _whenReady s ∧ _connecting s' = _connecting s.

(** The three conditions of an outbound call with a timeout. Waiting: its
    promise is pending, its one timer is armed and its one listener is
    registered under its token. Timed out: rejected with the timeout
    message, with no listener and no timer left. Answered: fulfilled with
    the reply, with no timer left. *)
Definition waiting (p : PromiseId) (id : string) (deadline : Z)
    (s : State G) : Prop :=
  promise_state p s = Some Pending
  ∧ kind_of p s = Some KCall
  ∧ mkTimer p id deadline ∈ timers s
  ∧ (∀ t, t ∈ timers s → t_call t = p → t = mkTimer p id deadline)
  ∧ mkListener id p ∈ _emitter s
  ∧ (∀ l, l ∈ _emitter s → l_call l = p → l = mkListener id p).

Definition timed_out (p : PromiseId) (s : State G) : Prop :=
  promise_state p s = Some (Settled (Rejected TIMEOUT_MESSAGE))
  ∧ (∀ l, l ∈ _emitter s → l_call l ≠ p)
  ∧ (∀ t, t ∈ timers s → t_call t ≠ p).

Definition answered (p : PromiseId) (v : JsVal) (s : State G) : Prop :=
  promise_state p s = Some (Settled (Fulfilled v))
  ∧ (∀ t, t ∈ timers s → t_call t ≠ p).

(** The second half of [sendMessage]: what it does with the completion of
    the handshake step and the state that step left. *)
Definition send_then (w : PromiseId) (cb : Callback) (s : State G)
  : Completion nat * State G :=
  let '(d, s2) := then_ w cb KMessage s in (Return d, s2).

Definition send_after (cb : Callback)
    (cs : Completion (option nat) * State G) : Completion nat * State G :=
  let '(c, s1) := cs in
  match c with
  | Throw e => (Throw e, s1)
  | Return _ =>
      match _whenReady s1 with
      | Some w => send_then w cb s1
      | None => (Throw VTypeError, s1)
      end
  end.

(** No handshake was ever initiated: the flags are clear and no reaction
    of a handshake attempt exists. *)
Definition unstarted (s : State G) : Prop :=
  _connecting s = false ∧ _connected s = false
  ∧ ∀ r, r ∈ all_reactions s → r_callback r ≠ CbConnected.

(** The message promise [r_derived r], whose reaction [r] was registered
    on the handshake promise [w] by [sendMessage], is in one of four
    conditions: [w] and it are pending and [r] is stored on [w]; [w] is
    settled, it is pending and [r]'s job is queued with [w]'s outcome; [w]
    and it are rejected with the same reason; or [w] is fulfilled. *)
Definition behind (r : Reaction) (w : PromiseId) (s : State G) : Prop :=
  (promise_state w s = Some Pending
   ∧ promise_state (r_derived r) s = Some Pending
   ∧ ∃ pr, promises s !! w = Some pr ∧ r ∈ reactions pr)
  ∨ (∃ o, promise_state w s = Some (Settled o)
          ∧ promise_state (r_derived r) s = Some Pending
          ∧ (r, o) ∈ microtasks s)
  ∨ (∃ reason,
       promise_state w s = Some (Settled (Rejected reason))
       ∧ promise_state (r_derived r) s = Some (Settled (Rejected reason)))
  ∨ (∃ v, promise_state w s = Some (Settled (Fulfilled v))).

(** States a constructed channel can be in. *)
Inductive reachable : State G → Prop :=
  | reachable_new o w s :
      constructor o w = Return s → reachable s
  | reachable_step e s :
      reachable s → reachable (step e s).

End Invariants.

(** ** Example channels *)

Definition example_window : Window :=
  {| webkit := MessageHandlers ["wkPostMessage"]; date_now := 1700000000000 |}.

(** [new WKPostMessenger({ autoHandshake: false })] *)
Definition manual_options : Options TimestampId.t := {|
  o_handleMessage := None;
  o_scriptMessageHandler := "wkPostMessage";
  o_handlerGlobal := "wkPostMessengerHandleMessage";
  o_callbackGlobal := "wkPostMessengerCallback";
  o_handshakeTimeout := DEFAULT_TIMEOUT;
  o_messageTimeout := DEFAULT_TIMEOUT;
  o_idGenerator := TimestampId.timestampIdGenerator;
  o_autoHandshake := false
|}.

Definition with_handler (h : Handler) (o : Options TimestampId.t)
  : Options TimestampId.t := {|
  o_handleMessage := Some h;
  o_scriptMessageHandler := o_scriptMessageHandler o;
  o_handlerGlobal := o_handlerGlobal o;
  o_callbackGlobal := o_callbackGlobal o;
  o_handshakeTimeout := o_handshakeTimeout o;
  o_messageTimeout := o_messageTimeout o;
  o_idGenerator := o_idGenerator o;
  o_autoHandshake := o_autoHandshake o
|}.

(** The state the constructor returns for the given options in
    [example_window]. *)
Definition constructed (o : Options TimestampId.t) : State TimestampId.t := {|
  cfg := {|
    handleMessage := o_handleMessage o;
    parent := Some "wkPostMessage";
    _hm := o_handlerGlobal o;
    _cb := o_callbackGlobal o;
    _handshakeTimeout := o_handshakeTimeout o;
    _messageTimeout := o_messageTimeout o |};
  _idGen := o_idGenerator o;
  _connecting := false;
  _connected := false;
  _whenReady := None;
  _emitter := [];
  promises := [];
  timers := [];
  microtasks := [];
  sent := [];
  clock := 1700000000000
|}.

Definition example_state : State TimestampId.t := constructed manual_options.

(** The token of the first call made in [example_state]. *)
Definition first_token : string := "01700000000000".

(** Handlers that fail: one throws, one returns a promise (which the
    examples then reject). *)
Definition throwing_handler : Handler :=
  λ _ _, HThrows (VError "handler failed").

Definition async_handler : Handler := λ _ _, HPromise.

Definition echo_handler : Handler := λ _ data, HReturns data.

(** ** Readings of the claims that the code does not satisfy *)

(** An envelope omits a field when the object has no such property. *)
Definition omits (k : string) (env : list (string * JsVal)) : Prop :=
  field k env = None.

Definition rank (c : Connection) : nat :=
  match c with
  | Unconnected => 0
  | Connecting => 1
  | Connected => 2
  end.

(** Replies carrying the token [id] among the envelopes sent. *)
Definition is_reply_to (id : string) (env : list (string * JsVal)) : bool :=
  match action_of env, id_of env with
  | Some a, Some i => String.eqb a CALLBACK_ACTION && String.eqb i id
  | _, _ => false
  end.

Definition replies_to (id : string) (l : list (list (string * JsVal))) : nat :=
  length (List.filter (is_reply_to id) l).

(** ** Further observations *)

(** The tokens of successive [next()] calls of the timestamp generator,
    one call per clock reading. *)
Fixpoint tokens (readings : list Z) (g : TimestampId.t) : list string :=
  match readings with
  | [] => []
  | t :: rest =>
      let '(id, g') := TimestampId.next t g in id :: tokens rest g'
  end.

Section Observations.

Context {G : Type} `{IdGenerator G}.

(** The envelopes the channel builds: the request of [_sendMessage] and
    the reply of [_sendMessageCallback]. *)
Definition envelope_of (s : State G) (env : list (string * JsVal)) : Prop :=
  (∃ id action data, env = request_payload (_cb (cfg s)) id action data)
  ∨ (∃ id data, env = reply_payload id data).

(** An outbound call without a timer: its promise is pending, no timer
    refers to it and its one listener is registered under its token. *)
Definition listening (p : PromiseId) (id : string) (s : State G) : Prop :=
  promise_state p s = Some Pending
  ∧ kind_of p s = Some KCall
  ∧ (∀ t, t ∈ timers s → t_call t ≠ p)
  ∧ mkListener id p ∈ _emitter s
  ∧ (∀ l, l ∈ _emitter s → l_call l = p → l = mkListener id p).

End Observations.

(** A channel built on a page whose [messageHandlers] lacks the handler:
    [parent] is undefined. *)
Definition stray_state : State TimestampId.t := {|
  cfg := {|
    handleMessage := None;
    parent := None;
    _hm := "wkPostMessengerHandleMessage";
    _cb := "wkPostMessengerCallback";
    _handshakeTimeout := DEFAULT_TIMEOUT;
    _messageTimeout := DEFAULT_TIMEOUT |};
  _idGen := TimestampId.timestampIdGenerator;
  _connecting := false;
  _connected := false;
  _whenReady := None;
  _emitter := [];
  promises := [];
  timers := [];
  microtasks := [];
  sent := [];
  clock := 1700000000000
|}.

(** [example_state] after its handshake was acknowledged. *)
Definition connected_state : State TimestampId.t :=
  run [ESendHandshake; EReply first_token VUndefined; EMicrotask; EMicrotask]
    example_state.

(** The token of the second call made at the same clock reading. *)
Definition second_token : string := "11700000000000".

(** * Facts *)

(** *** Decimal rendering facts used for the generator *)

Lemma string_length_app (s t : string) :
  String.length (s +:+ t) = (String.length s + String.length t)%nat.
Proof. induction s as [|c s IH]; simpl; [done | by rewrite IH]. Qed.

Lemma string_app_inj_r (s1 s2 t : string) :
  s1 +:+ t = s2 +:+ t → s1 = s2.
Proof.
  intros H.
  assert (Hl : String.length s1 = String.length s2).
  { apply (f_equal String.length) in H.
    rewrite !string_length_app in H. lia. }
  revert s2 H Hl. induction s1 as [|c s1 IH]; intros [|d s2] H Hl;
    simpl in *; try done.
  injection H as -> H. f_equal. apply IH; [done | lia].
Qed.

Lemma pretty_N_go_head (x : N) (s : string) :
  (0 < x)%N →
  ∃ c rest, pretty_N_go x s = String c rest ∧ c ≠ "0"%char.
Proof.
  revert s. induction (N.lt_wf_0 x) as [x _ IH]; intros s Hx.
  rewrite pretty_N_go_step by done.
  destruct (decide (x `div` 10 = 0)%N) as [Hd | Hd].
  - rewrite Hd, pretty_N_go_0. eexists _, _. split; [done |].
    assert (x < 10)%N by (by apply N.div_small_iff).
    assert (x = 1 ∨ x = 2 ∨ x = 3 ∨ x = 4 ∨ x = 5 ∨ x = 6
          ∨ x = 7 ∨ x = 8 ∨ x = 9)%N as Hc by lia.
    destruct Hc as [-> | [-> | [-> | [-> | [-> | [-> | [-> | [-> | ->]]]]]]]];
      compute; discriminate.
  - apply IH; [apply N.div_lt; lia | by apply N.neq_0_lt_0].
Qed.

Lemma pretty_N_head (x : N) :
  (0 < x)%N → ∃ c rest, pretty x = String c rest ∧ c ≠ "0"%char.
Proof.
  intros Hx. unfold pretty, pretty_N.
  destruct (decide (x = 0%N)); [lia |]. by apply pretty_N_go_head.
Qed.

(** ** Token generator: uniqueness of successive tokens *)

(** C9. Whatever the state of the timestamp generator (with its counter in
    the range where JavaScript numbers count exactly) and whatever the two
    clock readings, two successive [next()] calls return different ids:
    the counter is incremented when the reading repeats and reset to 0
    when it differs, and the id is the counter followed by the reading. *)
Theorem timestamp_next_twice_distinct (g : TimestampId.t) (t1 t2 : Z) :
  TimestampId.safe g →
  let '(id1, g1) := TimestampId.next t1 g in
  let '(id2, g2) := TimestampId.next t2 g1 in
  id1 ≠ id2
  ∧ TimestampId.inc g2
    = (if Z.eqb t1 t2 then TimestampId.inc g1 + 1 else 0)%N.
Proof.
  intros Hsafe. unfold TimestampId.next; simpl.
  set (i1 := if TimestampId.strict_eq _ _ then _ else _).
  assert (Hi1 : (i1 < 2 ^ 53)%N).
  { unfold i1, TimestampId.incr, TimestampId.safe in *.
    repeat case_match; lia. }
  unfold TimestampId.incr.
  destruct (N.ltb_spec i1 (2 ^ 53)) as [_ | ?]; [| lia].
  destruct (Z.eqb_spec t1 t2) as [-> | Hne]; (split; [| done]).
  - intros Heq. apply string_app_inj_r in Heq.
    apply pretty_N_inj in Heq. lia.
  - intros Heq.
    destruct (decide (i1 = 0%N)) as [Hi | Hi].
    + rewrite Hi in Heq. change (pretty 0%N) with "0" in Heq.
      simpl in Heq. injection Heq as Heq.
      apply pretty_Z_inj in Heq. congruence.
    + destruct (pretty_N_head i1) as (c & rest & Hp & Hc); [lia |].
      rewrite Hp in Heq. change (pretty 0%N) with "0" in Heq.
      simpl in Heq. injection Heq as Heq _. done.
Qed.

Lemma timestamp_next_twice_distinct_witness :
  TimestampId.safe TimestampId.timestampIdGenerator
  ∧ fst (TimestampId.next 1700000000000 TimestampId.timestampIdGenerator)
    ≠ fst (TimestampId.next 1700000000000
             (snd (TimestampId.next 1700000000000
                     TimestampId.timestampIdGenerator))).
Proof.
  split; [unfold TimestampId.safe; simpl; lia |].
  pose proof (timestamp_next_twice_distinct
                TimestampId.timestampIdGenerator
                1700000000000 1700000000000) as H.
  simpl in H. apply H. unfold TimestampId.safe; simpl; lia.
Defined.


(** ** The promise store *)

Lemma pair_fst {A B} (a : A) (b : B) : (a, b).1 = a.
Proof. reflexivity. Qed.

Lemma pair_snd {A B} (a : A) (b : B) : (a, b).2 = b.
Proof. reflexivity. Qed.

Lemma list_alter_noop {A} (f : A → A) (i : nat) (l : list A) :
  (∀ x, l !! i = Some x → f x = x) → alter f i l = l.
Proof.
  intros Hf. apply list_eq. intros j.
  destruct (decide (i = j)) as [<- | Hne].
  - rewrite list_lookup_alter_eq.
    destruct (l !! i) as [x |] eqn:E; simpl; [| done].
    by rewrite (Hf x).
  - by rewrite list_lookup_alter_ne.
Qed.

Lemma list_insert_as_alter {A} (f : A → A) (i : nat) (l : list A) (x : A) :
  l !! i = Some x → <[i := f x]> l = alter f i l.
Proof.
  intros Hx. apply list_eq. intros j.
  destruct (decide (i = j)) as [<- | Hne].
  - rewrite list_lookup_alter_eq, Hx. simpl.
    apply list_lookup_insert_eq. by eapply lookup_lt_Some.
  - by rewrite list_lookup_insert_ne, list_lookup_alter_ne.
Qed.

Section ChannelFacts.

Context {G : Type} `{IdGenerator G}.

Implicit Types (s : State G) (p q d w : PromiseId) (o : Outcome).
Implicit Types (r : Reaction) (j : Job) (e : Event).

Lemma settle_unfold p o s :
  settle p o s
  = set_microtasks (microtasks s ++ settle_jobs p o s)
      (set_promises (alter (settled_rec o) p (promises s)) s).
Proof.
  unfold settle, settle_jobs.
  destruct (promises s !! p) as [pr |] eqn:E.
  - destruct (pstate pr) eqn:Ep.
    + f_equal. f_equal.
      rewrite <- (list_insert_as_alter _ _ _ _ E).
      unfold settled_rec. by rewrite Ep.
    + rewrite app_nil_r, list_alter_noop; [by destruct s |].
      intros x Hx. rewrite E in Hx. injection Hx as <-.
      unfold settled_rec. by rewrite Ep.
  - rewrite app_nil_r, list_alter_noop; [by destruct s |].
    intros x Hx. simplify_eq.
Qed.

Lemma subscribe_unfold p r s :
  subscribe p r s
  = set_microtasks (microtasks s ++ subscribe_jobs p r s)
      (set_promises (alter (subscribed_rec r) p (promises s)) s).
Proof.
  unfold subscribe, subscribe_jobs.
  destruct (promises s !! p) as [pr |] eqn:E.
  - destruct (pstate pr) eqn:Ep.
    + rewrite app_nil_r.
      rewrite <- (list_insert_as_alter _ _ _ _ E).
      unfold subscribed_rec. rewrite Ep. by destruct s.
    + rewrite list_alter_noop; [by destruct s |].
      intros x Hx. rewrite E in Hx. injection Hx as <-.
      unfold subscribed_rec. by rewrite Ep.
  - rewrite app_nil_r, list_alter_noop; [by destruct s |].
    intros x Hx. simplify_eq.
Qed.

Lemma concat_reactions_insert (l : list PromiseRec) p pr pr' :
  l !! p = Some pr →
  concat (reactions <$> <[p := pr']> l) ++ reactions pr
  ≡ₚ concat (reactions <$> l) ++ reactions pr'.
Proof.
  intros Hp.
  rewrite insert_take_drop by (by eapply lookup_lt_Some).
  rewrite <- (take_drop_middle l p pr Hp) at 3.
  rewrite !fmap_app, !fmap_cons, !concat_app, !concat_cons.
  solve_Permutation.
Qed.

Lemma all_reactions_settle p o s :
  all_reactions (settle p o s) ≡ₚ all_reactions s.
Proof.
  unfold all_reactions, settle.
  destruct (promises s !! p) as [pr |] eqn:E; [| done].
  destruct (pstate pr) eqn:Ep; [| done]. simpl.
  rewrite fmap_app, <- list_fmap_compose.
  rewrite (list_fmap_ext _ id (reactions pr)) by done.
  rewrite list_fmap_id.
  pose proof (concat_reactions_insert (promises s) p pr
                (mkPromise (Settled o) [] (kind pr)) E) as Hperm.
  simpl in Hperm. rewrite app_nil_r in Hperm.
  rewrite <- Hperm. solve_Permutation.
Qed.

Lemma all_reactions_subscribe q r s :
  is_Some (promises s !! q) →
  all_reactions (subscribe q r s) ≡ₚ r :: all_reactions s.
Proof.
  intros [pr E]. unfold all_reactions, subscribe. rewrite E.
  destruct (pstate pr) eqn:Ep; simpl.
  - pose proof (concat_reactions_insert (promises s) q pr
                  (mkPromise Pending (reactions pr ++ [r]) (kind pr)) E)
      as Hperm.
    simpl in Hperm.
    apply (Permutation_app_inv_r (reactions pr)).
    rewrite <- !app_assoc, Hperm. solve_Permutation.
  - rewrite fmap_app. simpl. solve_Permutation.
Qed.

Lemma subscribe_unallocated q r s :
  promises s !! q = None → subscribe q r s = s.
Proof. intros E. unfold subscribe. by rewrite E. Qed.

Lemma all_reactions_new_promise k st s :
  all_reactions (new_promise k st s).2 = all_reactions s.
Proof.
  unfold all_reactions, new_promise. simpl.
  by rewrite fmap_app, concat_app, !app_nil_r.
Qed.

(** Kinds never change, and states only change from pending. *)

Lemma kind_of_settle i p o s : kind_of i (settle p o s) = kind_of i s.
Proof.
  unfold kind_of. rewrite settle_unfold. simpl.
  destruct (decide (p = i)) as [-> | Hne].
  - rewrite list_lookup_alter_eq.
    destruct (promises s !! i) as [pr |]; [| done]. simpl.
    unfold settled_rec. by destruct (pstate pr).
  - by rewrite list_lookup_alter_ne.
Qed.

Lemma kind_of_subscribe i p r s :
  kind_of i (subscribe p r s) = kind_of i s.
Proof.
  unfold kind_of. rewrite subscribe_unfold. simpl.
  destruct (decide (p = i)) as [-> | Hne].
  - rewrite list_lookup_alter_eq.
    destruct (promises s !! i) as [pr |]; [| done]. simpl.
    unfold subscribed_rec. by destruct (pstate pr).
  - by rewrite list_lookup_alter_ne.
Qed.

Lemma kind_of_new_promise_old i k st s :
  is_Some (kind_of i s) →
  kind_of i (new_promise k st s).2 = kind_of i s.
Proof.
  unfold kind_of, new_promise. simpl. intros [x Hx].
  rewrite lookup_app_l; [done |].
  apply fmap_Some in Hx as (pr & Hpr & _). by eapply lookup_lt_Some.
Qed.

Lemma kind_of_new_promise_new k st s :
  kind_of (length (promises s)) (new_promise k st s).2 = Some k.
Proof.
  unfold kind_of, new_promise. simpl.
  by rewrite lookup_app_r, Nat.sub_diag.
Qed.

Lemma kind_of_lt i k s : kind_of i s = Some k → (i < length (promises s))%nat.
Proof.
  unfold kind_of. intros Hx.
  apply fmap_Some in Hx as (pr & Hpr & _). by eapply lookup_lt_Some.
Qed.

Lemma kind_of_lookup i pr s :
  promises s !! i = Some pr → kind_of i s = Some (kind pr).
Proof. unfold kind_of. by intros ->. Qed.

Lemma promise_state_settle_ne i p o s :
  i ≠ p → promises (settle p o s) !! i = promises s !! i.
Proof.
  intros Hne. rewrite settle_unfold. simpl.
  by rewrite list_lookup_alter_ne.
Qed.

Lemma promise_state_settled_stable i p o o' s :
  promise_state i s = Some (Settled o') →
  promise_state i (settle p o s) = Some (Settled o').
Proof.
  unfold promise_state. rewrite settle_unfold. simpl.
  destruct (decide (p = i)) as [-> | Hne].
  - rewrite list_lookup_alter_eq.
    destruct (promises s !! i) as [pr |]; [| done]. simpl.
    unfold settled_rec. intros [= Hst]. rewrite Hst. simpl. by rewrite Hst.
  - by rewrite list_lookup_alter_ne.
Qed.

(** ** The invariant is kept by every primitive *)

Lemma wf_settle p o s :
  wf s →
  (∀ pr v, promises s !! p = Some pr → pstate pr = Pending →
     o = Fulfilled v → gate (kind pr) → _connected s = true) →
  wf (settle p o s).
Proof.
  intros [Hl Ht Htg Hnd Hw Hsrc Hf Hj Hs Hh Hrj] Hgate.
  constructor.
  - intros l Hin. rewrite kind_of_settle. apply Hl.
    by rewrite settle_unfold in Hin.
  - intros t Hin. rewrite kind_of_settle. apply Ht.
    by rewrite settle_unfold in Hin.
  - intros r Hin. rewrite kind_of_settle. apply Htg.
    by rewrite all_reactions_settle in Hin.
  - by rewrite all_reactions_settle.
  - intros w Hin. rewrite kind_of_settle. apply Hw.
    by rewrite settle_unfold in Hin.
  - intros i pr r Hi Hr. rewrite kind_of_settle.
    rewrite settle_unfold in Hi; simpl in Hi.
    destruct (decide (p = i)) as [-> | Hne].
    + rewrite list_lookup_alter_eq in Hi.
      destruct (promises s !! i) as [pr0 |] eqn:E; [| done].
      simpl in Hi. injection Hi as <-. unfold settled_rec in *.
      destruct (pstate pr0) eqn:Ep; [by apply not_elem_of_nil in Hr |].
      by eapply Hsrc.
    + rewrite list_lookup_alter_ne in Hi by done. by eapply Hsrc.
  - intros i pr v Hi Hst Hg.
    rewrite settle_unfold in Hi |- *; simpl in Hi |- *.
    destruct (decide (p = i)) as [-> | Hne].
    + rewrite list_lookup_alter_eq in Hi.
      destruct (promises s !! i) as [pr0 |] eqn:E; [| done].
      simpl in Hi. injection Hi as <-. unfold settled_rec in *.
      destruct (pstate pr0) eqn:Ep.
      * simpl in *. injection Hst as ->. by eapply Hgate.
      * by eapply Hf.
    + rewrite list_lookup_alter_ne in Hi by done. by eapply Hf.
  - intros j Hin.
    assert (job_ok s j) as Hok.
    { rewrite settle_unfold in Hin; simpl in Hin.
      apply elem_of_app in Hin as [Hin | Hin]; [by apply Hj |].
      unfold settle_jobs in Hin.
      destruct (promises s !! p) as [pr |] eqn:E;
        [| by apply not_elem_of_nil in Hin].
      destruct (pstate pr) eqn:Ep; [| by apply not_elem_of_nil in Hin].
      apply list_elem_of_fmap in Hin as (r & -> & Hr).
      destruct (Hsrc p pr r E Hr) as (_ & Hsk & Hadopt).
      unfold job_ok. destruct o as [v | reason];
        [| destruct (r_callback r); try done; by destruct (kind pr)].
      destruct (r_callback r) eqn:Ecb; try done;
        try (by destruct (kind pr)).
      - eapply Hgate; eauto. left. by destruct (kind pr).
      - eapply Hgate; eauto. right. by destruct (kind pr).
      - by apply Hadopt. }
    destruct j as [r [v | reason]]; [| done].
    unfold job_ok in *.
    destruct (r_callback r); rewrite ?kind_of_settle; try done;
      by rewrite settle_unfold.
  - intros l1 e l2 Hsent Hm.
    rewrite settle_unfold in Hsent |- *; simpl in Hsent |- *.
    by eapply Hs.
  - intros Hloc Hor.
    assert (sent (settle p o s) = sent s) as ->
      by (by rewrite settle_unfold).
    apply Hh; [unfold located in *; by rewrite settle_unfold in Hloc |].
    destruct Hor as [Hc | (r & Hr & Hcb)].
    + left. by rewrite settle_unfold in Hc.
    + right. exists r. by rewrite all_reactions_settle in Hr.
  - intros i pr Hi Hk.
    rewrite settle_unfold in Hi; simpl in Hi.
    destruct (decide (p = i)) as [-> | Hne].
    + rewrite list_lookup_alter_eq in Hi.
      destruct (promises s !! i) as [pr0 |] eqn:E; [| done].
      simpl in Hi. injection Hi as <-. unfold settled_rec in *.
      destruct (pstate pr0) eqn:Ep.
      * simpl in Hk. destruct (Hrj i pr0 E Hk) as [reason Hst]. congruence.
      * by eapply Hrj.
    + rewrite list_lookup_alter_ne in Hi by done. by eapply Hrj.
Qed.

Lemma kind_of_same_promises i s s' :
  promises s' = promises s → kind_of i s' = kind_of i s.
Proof. unfold kind_of. by intros ->. Qed.

Lemma all_reactions_same s s' :
  promises s' = promises s → microtasks s' = microtasks s →
  all_reactions s' = all_reactions s.
Proof. unfold all_reactions. by intros -> ->. Qed.

(** Changes that leave the promise store and the queue alone. *)
Lemma wf_channel s s' :
  wf s →
  promises s' = promises s →
  microtasks s' = microtasks s →
  cfg s' = cfg s →
  (∀ l, l ∈ _emitter s' →
     l ∈ _emitter s ∨ kind_of (l_call l) s = Some KCall) →
  (∀ t, t ∈ timers s' →
     t ∈ timers s ∨ kind_of (t_call t) s = Some KCall) →
  (∀ w, _whenReady s' = Some w →
     _whenReady s = Some w ∨ kind_of w s = Some KWhenReady) →
  (_connected s = true → _connected s' = true) →
  (located s → _connected s' = true →
     _connected s = true ∨ ∃ h, h ∈ sent s ∧ is_handshake h) →
  (sent s' = sent s
   ∨ ∃ env, sent s' = sent s ++ [env] ∧ located s
            ∧ (is_message env → _connected s = true)) →
  wf s'.
Proof.
  intros [Hl Ht Htg Hnd Hw Hsrc Hf Hj Hs Hh Hrj] Hp Hq Hcfg He Hti Hwr Hc Hc' Hse.
  assert (Hk : ∀ i, kind_of i s' = kind_of i s)
    by (intros; by apply kind_of_same_promises).
  assert (Hall : all_reactions s' = all_reactions s)
    by (by apply all_reactions_same).
  assert (Hsub : ∀ h, h ∈ sent s → h ∈ sent s').
  { intros h Hin. destruct Hse as [-> | (env & -> & _)]; [done |].
    apply elem_of_app. by left. }
  assert (Hhs : located s →
            (_connected s' = true
             ∨ ∃ r, r ∈ all_reactions s ∧ r_callback r = CbConnected) →
            ∃ h, h ∈ sent s ∧ is_handshake h).
  { intros Hloc [Hcon | Hr]; [| by apply Hh; auto].
    destruct (Hc' Hloc Hcon) as [Hcon' | Hex]; [by apply Hh; auto | done]. }
  constructor.
  - intros l Hin. rewrite Hk. destruct (He l Hin); auto.
  - intros t Hin. rewrite Hk. destruct (Hti t Hin); auto.
  - intros r Hin. rewrite Hk. apply Htg. by rewrite <- Hall.
  - by rewrite Hall.
  - intros w Hin. rewrite Hk. destruct (Hwr w Hin); auto.
  - intros i pr r Hi Hr. rewrite Hk. rewrite Hp in Hi. by eapply Hsrc.
  - intros i pr v Hi Hst Hg. rewrite Hp in Hi. apply Hc. by eapply Hf.
  - intros j Hin. rewrite Hq in Hin. specialize (Hj j Hin).
    destruct j as [r [v | reason]]; [| done].
    unfold job_ok in *.
    destruct (r_callback r); rewrite ?Hk; auto.
  - intros l1 env l2 Hsent Hm.
    destruct Hse as [Heq | (env' & Heq & Hloc & He')].
    + rewrite Heq in Hsent. destruct (Hs l1 env l2 Hsent Hm); auto.
    + rewrite Heq in Hsent.
      destruct l2 as [| x l2 _] using rev_ind.
      * apply (app_inj_tail (sent s) l1 env' env) in Hsent as [<- <-].
        split; [by auto |]. apply Hh; by auto.
      * rewrite app_comm_cons, app_assoc in Hsent.
        apply app_inj_tail in Hsent as [Hsent _].
        destruct (Hs l1 env l2 Hsent Hm); auto.
  - intros Hloc Hor. unfold located in *. rewrite Hcfg in Hloc.
    rewrite Hall in Hor. destruct (Hhs Hloc Hor) as (h & Hin & Hhk).
    exists h. auto.
  - intros i pr Hi. rewrite Hp in Hi. by apply (Hrj i).
Qed.

Lemma wf_new_promise k st s :
  wf s → (∀ v, st ≠ Settled (Fulfilled v)) →
  (k = KRejection → ∃ reason, st = Settled (Rejected reason)) →
  wf (new_promise k st s).2.
Proof.
  intros [Hl Ht Htg Hnd Hw Hsrc Hf Hj Hs Hh Hrj] Hst Hkr.
  assert (Hk : ∀ i x, kind_of i s = Some x →
               kind_of i (new_promise k st s).2 = Some x).
  { intros i x Hx. rewrite kind_of_new_promise_old; [done | by eexists]. }
  constructor; rewrite ?all_reactions_new_promise; try done.
  - intros l Hin. by apply Hk, Hl.
  - intros t Hin. by apply Hk, Ht.
  - intros r Hin. destruct (Htg r Hin) as (x & Hx & Hok).
    exists x. split; [by apply Hk | done].
  - intros w Hin. by apply Hk, Hw.
  - intros i pr r Hi Hr. simpl in Hi.
    apply lookup_app_Some in Hi as [Hi | [_ Hi]].
    + destruct (Hsrc i pr r Hi Hr) as (? & ? & Hadopt).
      split_and!; [done | done |]. intros Hcb. by apply Hk, Hadopt.
    + apply list_lookup_singleton_Some in Hi as [_ <-].
      by apply not_elem_of_nil in Hr.
  - intros i pr v Hi Hpst Hg. simpl in Hi |- *.
    apply lookup_app_Some in Hi as [Hi | [_ Hi]]; [by eapply Hf |].
    apply list_lookup_singleton_Some in Hi as [_ <-].
    simpl in Hpst. by destruct (Hst v).
  - intros j Hin. simpl in Hin. specialize (Hj j Hin).
    destruct j as [r [v | reason]]; [| done].
    unfold job_ok in *.
    destruct (r_callback r); auto.
    destruct Hj as [[? ?] | ?]; [left | right]; auto.
  - intros i pr Hi Hk'. simpl in Hi.
    apply lookup_app_Some in Hi as [Hi | [_ Hi]]; [by eapply Hrj |].
    apply list_lookup_singleton_Some in Hi as [_ <-]. by apply Hkr.
Qed.

Lemma wf_subscribe q cb d k prq s :
  wf s →
  promises s !! q = Some prq →
  kind_of d s = Some k →
  derived_kind_ok cb k →
  d ∉ r_derived <$> all_reactions s →
  (pstate prq = Pending →
     source_kind_ok cb (kind prq) ∧ (cb = CbAdopt → k = KMessage)) →
  (∀ v, pstate prq = Settled (Fulfilled v) →
     job_ok s (mkReaction cb d, Fulfilled v)) →
  (cb = CbConnected → located s → ∃ h, h ∈ sent s ∧ is_handshake h) →
  (∀ q', cb ≠ CbThenable q') →
  wf (subscribe q (mkReaction cb d) s).
Proof.
  intros [Hl Ht Htg Hnd Hw Hsrc Hf Hj Hs Hh Hrj] Hq Hd Hdk Hfresh Hsk Hjk Hcon
    Hnt.
  assert (Hperm := all_reactions_subscribe q (mkReaction cb d) s
                     (mk_is_Some _ _ Hq)).
  constructor.
  - intros l Hin. rewrite kind_of_subscribe. apply Hl.
    by rewrite subscribe_unfold in Hin.
  - intros t Hin. rewrite kind_of_subscribe. apply Ht.
    by rewrite subscribe_unfold in Hin.
  - intros r Hin. rewrite kind_of_subscribe.
    rewrite Hperm in Hin. apply elem_of_cons in Hin as [-> | Hin]; eauto.
  - rewrite Hperm, fmap_cons. by apply NoDup_cons.
  - intros w Hin. rewrite kind_of_subscribe. apply Hw.
    by rewrite subscribe_unfold in Hin.
  - intros i pr r Hi Hr. rewrite kind_of_subscribe.
    rewrite subscribe_unfold in Hi; simpl in Hi.
    destruct (decide (q = i)) as [-> | Hne].
    + rewrite list_lookup_alter_eq, Hq in Hi.
      simpl in Hi. injection Hi as <-. unfold subscribed_rec in *.
      destruct (pstate prq) eqn:Ep; [| by eapply Hsrc].
      simpl in *. apply elem_of_app in Hr as [Hr | Hr].
      * destruct (Hsrc i prq r Hq Hr) as (_ & ? & ?). done.
      * apply list_elem_of_singleton in Hr as ->. simpl.
        destruct Hsk as [? Hm]; [done |].
        split_and!; [done | done |]. intros Hcb. by rewrite Hd, Hm.
    + rewrite list_lookup_alter_ne in Hi by done. by eapply Hsrc.
  - intros i pr v Hi Hst Hg.
    rewrite subscribe_unfold in Hi |- *; simpl in Hi |- *.
    destruct (decide (q = i)) as [-> | Hne].
    + rewrite list_lookup_alter_eq, Hq in Hi.
      simpl in Hi. injection Hi as <-. unfold subscribed_rec in *.
      destruct (pstate prq) eqn:Ep; [done |].
      eapply Hf; eauto.
    + rewrite list_lookup_alter_ne in Hi by done. by eapply Hf.
  - intros j Hin.
    assert (job_ok s j) as Hok.
    { rewrite subscribe_unfold in Hin; simpl in Hin.
      apply elem_of_app in Hin as [Hin | Hin]; [by apply Hj |].
      unfold subscribe_jobs in Hin. rewrite Hq in Hin.
      destruct (pstate prq) as [| [v | reason]] eqn:Ep.
      - by apply not_elem_of_nil in Hin.
      - apply list_elem_of_singleton in Hin as ->. by eapply Hjk.
      - apply list_elem_of_singleton in Hin as ->.
        unfold job_ok. cbn. destruct cb; try done. by destruct (Hnt q0). }
    destruct j as [r [v | reason]]; [| done].
    unfold job_ok in *.
    destruct (r_callback r); rewrite ?kind_of_subscribe; try done;
      by rewrite subscribe_unfold.
  - intros l1 env l2 Hsent Hm.
    rewrite subscribe_unfold in Hsent |- *; simpl in Hsent |- *.
    by eapply Hs.
  - intros Hloc Hor.
    assert (sent (subscribe q (mkReaction cb d) s) = sent s) as ->
      by (by rewrite subscribe_unfold).
    assert (located s) as Hloc'
      by (unfold located in *; by rewrite subscribe_unfold in Hloc).
    destruct Hor as [Hc | (r & Hr & Hcb)].
    + apply Hh; [done |]. left. by rewrite subscribe_unfold in Hc.
    + rewrite Hperm in Hr. apply elem_of_cons in Hr as [-> | Hr].
      * by apply Hcon.
      * apply Hh; [done |]. right. by exists r.
  - intros i pr Hi Hk.
    rewrite subscribe_unfold in Hi; simpl in Hi.
    destruct (decide (q = i)) as [-> | Hne].
    + rewrite list_lookup_alter_eq, Hq in Hi.
      simpl in Hi. injection Hi as <-. unfold subscribed_rec in *.
      destruct (pstate prq) eqn:Ep; [| by eapply Hrj].
      simpl in Hk. destruct (Hrj i prq Hq Hk) as [reason Hst]. congruence.
    + rewrite list_lookup_alter_ne in Hi by done. by eapply Hrj.
Qed.

(** Queuing the job of a promise resolved with a promise. *)
Lemma wf_adopt d q k s :
  wf s →
  kind_of d s = Some k →
  k = KMessage ∨ k = KWhenReady →
  d ∉ r_derived <$> all_reactions s →
  (kind_of q s = Some KCall ∧ k = KMessage) ∨ kind_of q s = Some KRejection →
  wf (adopt d q s).
Proof.
  intros [Hl Ht Htg Hnd Hw Hsrc Hf Hj Hs Hh Hrj] Hd Hk Hfresh Hq.
  set (j := (mkReaction (CbThenable q) d, Fulfilled VUndefined)).
  assert (Hperm : all_reactions (adopt d q s) ≡ₚ j.1 :: all_reactions s).
  { unfold all_reactions, adopt. cbn [microtasks promises set_microtasks].
    rewrite fmap_app. cbn [fmap list_fmap]. rewrite <- app_assoc.
    cbn [app]. by rewrite <- Permutation_middle. }
  constructor; try done.
  - intros r Hin. rewrite Hperm in Hin.
    apply elem_of_cons in Hin as [-> | Hin]; [| by apply Htg].
    exists k. split; [done |]. by destruct Hk as [-> | ->].
  - rewrite Hperm, fmap_cons. by apply NoDup_cons.
  - intros j' Hin. unfold adopt in Hin. cbn in Hin.
    apply elem_of_app in Hin as [Hin | Hin].
    + specialize (Hj j' Hin). by destruct j' as [r [v | reason]].
    + apply list_elem_of_singleton in Hin as ->. unfold job_ok. cbn.
      destruct Hq as [[? ->] | ?]; [left | right]; done.
  - intros Hloc [Hc | (r & Hr & Hcb)].
    + apply Hh; auto.
    + rewrite Hperm in Hr. apply elem_of_cons in Hr as [-> | Hr]; [done |].
      apply Hh; [done |]. right. by exists r.
Qed.

(** Taking the first job off the queue. *)
Lemma wf_pop j jobs s :
  wf s → microtasks s = j :: jobs →
  wf (set_microtasks jobs s)
  ∧ job_ok s j
  ∧ (∃ k, kind_of (r_derived j.1) s = Some k
          ∧ derived_kind_ok (r_callback j.1) k)
  ∧ (r_derived j.1 ∉ r_derived <$> all_reactions (set_microtasks jobs s))
  ∧ (located s → r_callback j.1 = CbConnected →
     ∃ h, h ∈ sent s ∧ is_handshake h).
Proof.
  intros [Hl Ht Htg Hnd Hw Hsrc Hf Hj Hs Hh Hrj] Hq.
  assert (Hall : all_reactions s
                 = j.1 :: all_reactions (set_microtasks jobs s)).
  { unfold all_reactions. by rewrite Hq. }
  rewrite Hall, fmap_cons in Hnd. apply NoDup_cons in Hnd as [Hnot Hnd].
  split_and!.
  - constructor; try done.
    + intros r Hin. apply Htg. rewrite Hall. by apply elem_of_cons; right.
    + intros j' Hin. simpl in Hin.
      assert (job_ok s j') as Hok
        by (apply Hj; rewrite Hq; by apply elem_of_cons; right).
      by destruct j' as [r [v | reason]].
    + intros Hloc [Hc | (r & Hr & Hcb)].
      * apply Hh; auto.
      * apply Hh; [done |]. right. exists r. split; [| done].
        rewrite Hall. by apply elem_of_cons; right.
  - apply Hj. rewrite Hq. by apply elem_of_cons; left.
  - apply Htg. rewrite Hall. by apply elem_of_cons; left.
  - done.
  - intros Hloc Hcb. apply Hh; [done |]. right. exists j.1.
    split; [| done]. rewrite Hall. by apply elem_of_cons; left.
Qed.

Lemma is_message_request cb id action data :
  is_message (request_payload cb id action data) ↔
  action ≠ HANDSHAKE_ACTION ∧ action ≠ CALLBACK_ACTION.
Proof.
  unfold is_message, action_of, request_payload. simpl. split.
  - by intros (a & [= <-] & ? & ?).
  - intros [? ?]. by exists action.
Qed.

Lemma not_is_message_reply id data : ¬ is_message (reply_payload id data).
Proof.
  unfold is_message, action_of, reply_payload. simpl.
  by intros (a & [= <-] & ? & ?).
Qed.

Lemma is_handshake_request cb id data :
  is_handshake (request_payload cb id HANDSHAKE_ACTION data).
Proof. done. Qed.

Lemma wf_postMessage env s s' :
  wf s → postMessage env s = Return s' →
  (is_message env → _connected s = true) →
  wf s'.
Proof.
  intros Hwf Hpost Hm. unfold postMessage in Hpost.
  destruct (parent (cfg s)) as [tgt |] eqn:Ep; [| done].
  injection Hpost as <-.
  eapply wf_channel; [done | done | done | done | simpl; auto ..].
  right. exists env. split_and!; [done | | done].
  unfold located. by rewrite Ep.
Qed.

Lemma wf__sendMessage action data timeout s :
  wf s →
  (action ≠ HANDSHAKE_ACTION → action ≠ CALLBACK_ACTION →
   _connected s = true) →
  wf (_sendMessage action data timeout s).2.
Proof.
  intros Hwf Hm. unfold _sendMessage.
  pose proof (wf_new_promise KCall Pending s Hwf) as Hwf1.
  pose proof (kind_of_new_promise_new KCall Pending s) as Hk1.
  destruct (new_promise KCall Pending s) as [p s1] eqn:E1.
  assert (p = length (promises s)) as Hp by (by injection E1).
  assert (_connected s1 = _connected s) as Hc1 by (by injection E1 as _ <-).
  simpl in Hwf1, Hk1. rewrite <- Hp in Hk1.
  specialize (Hwf1 ltac:(done) ltac:(done)).
  destruct (gen_next (clock s1) (_idGen s1)) as [id g].
  set (s2 := set_idGen g s1).
  assert (wf s2) as Hwf2
    by (eapply wf_channel; [done | done | done | done | simpl; auto ..]).
  set (s3 := if 0 <? timeout then _ else s2).
  assert (wf s3 ∧ promises s3 = promises s1 ∧ _connected s3 = _connected s1
          ∧ cfg s3 = cfg s1)
    as (Hwf3 & Hp3 & Hc3 & Hcfg3).
  { subst s3. destruct (0 <? timeout); [| done].
    split_and!; try done.
    eapply wf_channel; [done | done | done | done | simpl; auto ..].
    intros t Hin. apply elem_of_app in Hin as [Hin | Hin]; [by left |].
    apply list_elem_of_singleton in Hin as ->. by right. }
  set (s4 := emitter_on id p s3).
  assert (wf s4) as Hwf4.
  { eapply wf_channel; [done | done | done | done | simpl; auto ..].
    intros l Hin. apply elem_of_app in Hin as [Hin | Hin]; [by left |].
    apply list_elem_of_singleton in Hin as ->. right.
    by rewrite (kind_of_same_promises _ s1 s3). }
  destruct (postMessage _ s4) as [s5 | err] eqn:E5; simpl.
  - eapply wf_postMessage; [done | done |].
    intros Hmsg. apply is_message_request in Hmsg as [? ?].
    simpl. rewrite Hc3, Hc1. by apply Hm.
  - by apply wf_settle.
Qed.

Lemma _sendMessage_unfold action data timeout s :
  _sendMessage action data timeout s
  = (length (promises s), after_call action data timeout s).
Proof.
  unfold _sendMessage, after_call, call_token. simpl.
  destruct (gen_next (clock s) (_idGen s)) as [id g]. simpl.
  unfold postMessage.
  destruct (0 <? timeout); simpl;
    (destruct (parent (cfg s)) as [tgt |]; [done |]);
    unfold settle; simpl;
    rewrite list_lookup_middle by done; simpl;
    rewrite app_nil_r, insert_app_r_alt, Nat.sub_diag by done;
    done.
Qed.

(** *** [then] *)

Lemma then_eq p cb k s :
  then_ p cb k s = (length (promises s), (then_ p cb k s).2).
Proof. done. Qed.

Lemma then_unfold p cb k s :
  (then_ p cb k s).2
  = subscribe p (mkReaction cb (length (promises s)))
      (new_promise k Pending s).2.
Proof. done. Qed.

Lemma length_promises_subscribe p r s :
  length (promises (subscribe p r s)) = length (promises s).
Proof. rewrite subscribe_unfold. simpl. apply length_alter. Qed.

Lemma length_promises_settle p o s :
  length (promises (settle p o s)) = length (promises s).
Proof. rewrite settle_unfold. simpl. apply length_alter. Qed.

Lemma length_promises_then p cb k s :
  length (promises (then_ p cb k s).2) = S (length (promises s)).
Proof.
  rewrite then_unfold, length_promises_subscribe. simpl.
  rewrite length_app. simpl. lia.
Qed.

Lemma kind_of_then_old i p cb k s :
  is_Some (kind_of i s) → kind_of i (then_ p cb k s).2 = kind_of i s.
Proof.
  intros Hi. rewrite then_unfold, kind_of_subscribe.
  by apply kind_of_new_promise_old.
Qed.

Lemma kind_of_then_new p cb k s :
  kind_of (length (promises s)) (then_ p cb k s).2 = Some k.
Proof.
  rewrite then_unfold, kind_of_subscribe.
  apply kind_of_new_promise_new.
Qed.

Lemma then_frame p cb k s :
  cfg (then_ p cb k s).2 = cfg s
  ∧ _idGen (then_ p cb k s).2 = _idGen s
  ∧ _connecting (then_ p cb k s).2 = _connecting s
  ∧ _connected (then_ p cb k s).2 = _connected s
  ∧ _whenReady (then_ p cb k s).2 = _whenReady s
  ∧ _emitter (then_ p cb k s).2 = _emitter s
  ∧ timers (then_ p cb k s).2 = timers s
  ∧ sent (then_ p cb k s).2 = sent s
  ∧ clock (then_ p cb k s).2 = clock s.
Proof. by rewrite then_unfold, subscribe_unfold. Qed.

Lemma fresh_not_target s :
  wf s → length (promises s) ∉ r_derived <$> all_reactions s.
Proof.
  intros Hwf Hin. apply list_elem_of_fmap in Hin as (r & Heq & Hr).
  destruct (wf_targets s Hwf r Hr) as (k & Hk & _).
  apply kind_of_lt in Hk. lia.
Qed.

Lemma wf_then p cb k kp s :
  wf s →
  kind_of p s = Some kp →
  derived_kind_ok cb k →
  source_kind_ok cb kp →
  cb ≠ CbAdopt →
  (cb = CbConnected → located s → ∃ h, h ∈ sent s ∧ is_handshake h) →
  wf (then_ p cb k s).2.
Proof.
  intros Hwf Hp Hdk Hsk Hne Hcon.
  unfold kind_of in Hp. apply fmap_Some in Hp as (prp & Hprp & ->).
  rewrite then_unfold.
  eapply (wf_subscribe _ _ _ k prp).
  - apply wf_new_promise; [done | done |].
    intros ->. by destruct cb.
  - simpl. by apply lookup_app_l_Some.
  - apply kind_of_new_promise_new.
  - done.
  - rewrite all_reactions_new_promise. by apply fresh_not_target.
  - done.
  - intros v Hv. unfold job_ok. simpl.
    destruct cb; try done; try (by destruct (kind prp)).
    + eapply (wf_fulfilled s Hwf); eauto. left. by destruct (kind prp).
    + eapply (wf_fulfilled s Hwf); eauto. right. by destruct (kind prp).
  - done.
  - intros q' ->. by destruct (kind prp).
Qed.

(** *** Calls *)

Lemma kind_of_after_call_new action data timeout s :
  kind_of (length (promises s)) (after_call action data timeout s)
  = Some KCall.
Proof. unfold kind_of. simpl. by rewrite list_lookup_middle. Qed.

Lemma kind_of_after_call_old i action data timeout s :
  is_Some (kind_of i s) →
  kind_of i (after_call action data timeout s) = kind_of i s.
Proof.
  unfold kind_of. simpl. intros [x Hx].
  rewrite lookup_app_l; [done |].
  apply fmap_Some in Hx as (pr & Hpr & _). by eapply lookup_lt_Some.
Qed.

Lemma length_promises_after_call action data timeout s :
  length (promises (after_call action data timeout s))
  = S (length (promises s)).
Proof. simpl. rewrite length_app. simpl. lia. Qed.

Lemma wf_after_call action data timeout s :
  wf s →
  (action ≠ HANDSHAKE_ACTION → action ≠ CALLBACK_ACTION →
   _connected s = true) →
  wf (after_call action data timeout s).
Proof.
  intros Hwf Hm.
  pose proof (wf__sendMessage action data timeout s Hwf Hm) as Hwf'.
  by rewrite _sendMessage_unfold in Hwf'.
Qed.

Lemma sent_after_call action data timeout s :
  located s →
  sent (after_call action data timeout s)
  = sent s ++ [request_payload (_cb (cfg s)) (call_token s) action data].
Proof. intros [tgt Ht]. simpl. by rewrite Ht. Qed.

(** *** [sendHandshake] *)

Lemma sendHandshake_connected s :
  _connected s = true → sendHandshake s = (Throw ALREADY_COMPLETED, s).
Proof. intros Hc. unfold sendHandshake. by rewrite Hc. Qed.

Lemma sendHandshake_connecting s :
  _connected s = false → _connecting s = true →
  sendHandshake s = (Return (_whenReady s), s).
Proof. intros Hc Hcg. unfold sendHandshake. by rewrite Hc, Hcg. Qed.

Lemma sendHandshake_new s :
  _connected s = false → _connecting s = false →
  sendHandshake s
  = (Return (Some (handshake_promise s)), after_handshake s).
Proof.
  intros Hc Hcg. unfold sendHandshake. rewrite Hc, Hcg. simpl negb.
  cbv iota. rewrite _sendMessage_unfold. done.
Qed.

Lemma wf_after_handshake s : wf s → wf (after_handshake s).
Proof.
  intros Hwf.
  assert (wf (handshake_call s)) as Hwf2.
  { apply wf_after_call; [| done].
    eapply wf_channel; [done | done | done | done | simpl; auto ..]. }
  assert (wf (handshake_then s)) as Hwf3.
  { unfold handshake_then.
    eapply (wf_then _ _ _ KCall); [done | | done | done | done |].
    - apply (kind_of_after_call_new _ _ _ (set_connecting true s)).
    - intros _ Hloc. unfold handshake_call.
      rewrite sent_after_call by done.
      eexists. split; [apply elem_of_app; right; by left |].
      apply is_handshake_request. }
  assert (wf (handshake_catch s)) as Hwf4.
  { unfold handshake_catch.
    eapply (wf_then _ _ _ KConnected); [done | | done | done | done | done].
    unfold handshake_then. apply kind_of_then_new. }
  eapply wf_channel; [done | done | done | done | simpl; auto ..].
  intros w [= <-]. right. apply kind_of_then_new.
Qed.

Lemma wf_sendHandshake s : wf s → wf (sendHandshake s).2.
Proof.
  intros Hwf.
  destruct (_connected s) eqn:Hc;
    [by rewrite sendHandshake_connected |].
  destruct (_connecting s) eqn:Hcg;
    [by rewrite sendHandshake_connecting |].
  rewrite sendHandshake_new by done. by apply wf_after_handshake.
Qed.

(** *** The other entry points *)

Lemma wf_sendMessage action data timeout s :
  wf s → wf (sendMessage action data timeout s).2.
Proof.
  intros Hwf. unfold sendMessage.
  set (t := default _ timeout).
  assert (Hgo : ∀ s1, wf s1 →
            wf (match _whenReady s1 with
                | Some w =>
                    let '(d, s2) :=
                      then_ w (CbSend action data t) KMessage s1 in
                    (Return d, s2)
                | None => (Throw VTypeError, s1)
                end).2).
  { intros s1 Hwf1. destruct (_whenReady s1) as [w |] eqn:Ew; [| done].
    rewrite then_eq. simpl.
    eapply (wf_then _ _ _ KWhenReady); try done.
    by apply (wf_whenReady s1 Hwf1). }
  destruct (_whenReady s) as [w |] eqn:Ew.
  - by apply Hgo.
  - pose proof (wf_sendHandshake s Hwf) as Hwf1.
    destruct (sendHandshake s) as [[c | err] s1]; simpl in *; [| done].
    by apply Hgo.
Qed.

Lemma wf_window_handler id action data s :
  wf s → wf (window_handler id action data s).2.
Proof.
  intros Hwf. unfold window_handler.
  destruct (_handleMessage action data s) as [v | err |]; [| done |].
  - unfold _sendMessageCallback.
    destruct (postMessage _ s) as [s1 | err] eqn:Ep; [| done]. simpl.
    eapply wf_postMessage; [done | done |].
    intros Hm. by apply not_is_message_reply in Hm.
  - pose proof (wf_new_promise KHandler Pending s Hwf ltac:(done)
                  ltac:(done)) as Hwf1.
    pose proof (kind_of_new_promise_new KHandler Pending s) as Hk.
    destruct (new_promise KHandler Pending s) as [q s1] eqn:E1.
    assert (q = length (promises s)) as -> by (by injection E1).
    rewrite then_eq. simpl in *.
    by eapply (wf_then _ _ _ KHandler).
Qed.

Lemma kind_of_callbackReceived i p result s :
  kind_of i (callbackReceived p result s) = kind_of i s.
Proof. unfold callbackReceived. by rewrite kind_of_settle. Qed.

Lemma wf_callbackReceived p result s :
  wf s → kind_of p s = Some KCall → wf (callbackReceived p result s).
Proof.
  intros Hwf Hk. unfold callbackReceived.
  assert (wf (clearTimeout p s)) as Hwf1.
  { eapply wf_channel; [done | done | done | done | simpl; auto ..].
    intros t Hin. apply list_elem_of_filter in Hin as [_ Hin]. by left. }
  apply wf_settle; [done |].
  intros pr v Hpr _ _ [Hg | Hg].
  - unfold kind_of in Hk. simpl in Hpr. rewrite Hpr in Hk. simpl in Hk.
    congruence.
  - unfold kind_of in Hk. simpl in Hpr. rewrite Hpr in Hk. simpl in Hk.
    congruence.
Qed.

Lemma wf_foldl_callbackReceived result (ps : list nat) s :
  wf s → (∀ p, p ∈ ps → kind_of p s = Some KCall) →
  wf (foldl (λ s' p, callbackReceived p result s') s ps).
Proof.
  revert s. induction ps as [| p ps IH]; intros s Hwf Hk; [done |].
  simpl. apply IH.
  - apply wf_callbackReceived; [done |]. apply Hk. by left.
  - intros p' Hin. rewrite kind_of_callbackReceived. apply Hk. by right.
Qed.

Lemma listeners_elem p id s :
  p ∈ listeners id s → ∃ l, l ∈ _emitter s ∧ l_id l = id ∧ l_call l = p.
Proof.
  unfold listeners. intros Hin.
  apply list_elem_of_fmap in Hin as (l & -> & Hl).
  apply list_elem_of_filter in Hl as [Hid Hl].
  exists l. split_and!; [done | | done].
  symmetry. by apply String.eqb_eq.
Qed.

Lemma wf_window_callback id result s :
  wf s → wf (window_callback id result s).
Proof.
  intros Hwf. apply wf_foldl_callbackReceived; [done |].
  intros p Hin. apply listeners_elem in Hin as (l & Hl & _ & <-).
  by apply (wf_listeners s Hwf).
Qed.

Lemma armed_Some p t s :
  armed p s = Some t → t ∈ timers s ∧ t_call t = p.
Proof.
  unfold armed. intros Hf. apply find_some in Hf as [Hin Heq].
  split; [by apply list_elem_of_In |].
  symmetry. by apply Nat.eqb_eq.
Qed.

Lemma wf_fire_timer p s : wf s → wf (fire_timer p s).
Proof.
  intros Hwf. unfold fire_timer.
  destruct (armed p s) as [t |] eqn:Ea; [| done].
  destruct (t_deadline t <=? clock s); [| done].
  unfold rejectTimeout. apply wf_settle; [| done].
  eapply wf_channel; [done | done | done | done | simpl; auto ..].
  - intros l Hin. apply list_elem_of_filter in Hin as [_ Hin]. by left.
  - intros t' Hin. apply list_elem_of_filter in Hin as [_ Hin]. by left.
Qed.

Lemma wf_settle_handler q o s : wf s → wf (settle_handler q o s).
Proof.
  intros Hwf. unfold settle_handler.
  destruct (promises s !! q) as [pr |] eqn:E; [| done].
  destruct (kind pr) eqn:Ek; try done.
  apply wf_settle; [done |].
  intros pr' v Hpr _ _ Hg. rewrite E in Hpr. injection Hpr as <-.
  rewrite Ek in Hg. by destruct Hg.
Qed.

(** *** Jobs *)

Lemma all_reactions_after_call action data timeout s :
  all_reactions (after_call action data timeout s) = all_reactions s.
Proof.
  unfold all_reactions. simpl.
  by rewrite fmap_app, concat_app, !app_nil_r.
Qed.

Lemma wf_run_job r o jobs s :
  wf s → microtasks s = (r, o) :: jobs →
  wf (run_job (r, o) (set_microtasks jobs s)).
Proof.
  intros Hwf Hq.
  destruct (wf_pop _ _ _ Hwf Hq) as (Hwf0 & Hok & (k & Hk & Hdk) & Hfresh & Hhs).
  set (s0 := set_microtasks jobs s) in *.
  assert (Hk0 : kind_of (r_derived r) s0 = Some k) by done.
  destruct r as [cb d]. simpl in *.
  assert (Hpass : ∀ reason, wf (settle d (Rejected reason) s0))
    by (intros; by apply wf_settle).
  unfold run_job.
  destruct cb, o as [v | reason]; try apply Hpass.
  - (* CbConnected, fulfilled *)
    apply wf_settle; [| done].
    eapply wf_channel; [done | done | done | done | simpl; auto ..].
  - (* CbHandshakeFailed, fulfilled: passed through *)
    apply wf_settle; [done |]. intros. by apply Hok.
  - (* CbHandshakeFailed, rejected *)
    destruct k; try done.
    set (s1 := set_connecting false s0).
    assert (wf s1) as Hwf1
      by (eapply wf_channel; [done | done | done | done | simpl; auto ..]).
    pose proof (wf_new_promise KRejection
                  (Settled (Rejected TIMEOUT_HANDSHAKE)) s1 Hwf1
                  ltac:(done) ltac:(by eexists)) as Hwf2.
    change (wf (adopt d (length (promises s1))
                  (new_promise KRejection
                     (Settled (Rejected TIMEOUT_HANDSHAKE)) s1).2)).
    apply (wf_adopt _ _ KWhenReady); [done | | by right | |].
    + rewrite kind_of_new_promise_old; [done | by eexists].
    + by rewrite all_reactions_new_promise.
    + right. apply kind_of_new_promise_new.
  - (* CbSend, fulfilled *)
    destruct k; try done.
    rewrite _sendMessage_unfold.
    apply (wf_adopt _ _ KMessage); [| | by left | |].
    + apply wf_after_call; [done |]. intros _ _. by apply Hok.
    + rewrite kind_of_after_call_old; [done | by eexists].
    + by rewrite all_reactions_after_call.
    + left. split; [| done]. apply kind_of_after_call_new.
  - (* CbReply, fulfilled *)
    destruct k; try done.
    unfold _sendMessageCallback.
    destruct (postMessage _ s0) as [s1 | err] eqn:Ep; [| by apply wf_settle].
    apply wf_settle.
    + eapply wf_postMessage; [done | done |].
      intros Hm. by apply not_is_message_reply in Hm.
    + intros pr v' Hpr _ _ Hg.
      unfold postMessage in Ep. destruct (parent (cfg s0)); [| done].
      injection Ep as <-. simpl in Hpr.
      unfold kind_of, s0 in Hk0. simpl in Hk0.
      rewrite Hpr in Hk0. injection Hk0 as Hk0.
      rewrite Hk0 in Hg. by destruct Hg.
  - (* CbAdopt, fulfilled *)
    apply wf_settle; [done |].
    intros pr v' Hpr _ _ Hg. unfold job_ok in Hok. simpl in Hok.
    unfold kind_of in Hok. unfold s0 in Hpr. simpl in Hok, Hpr.
    rewrite Hpr in Hok.
    injection Hok as Hok. rewrite Hok in Hg. by destruct Hg.
  - (* the job of a promise resolved with the promise q *)
    unfold job_ok in Hok. cbn in Hok.
    assert (∃ prq, promises s0 !! q = Some prq) as [prq Hprq].
    { destruct Hok as [[Hkq _] | Hkq]; unfold kind_of in Hkq;
        apply fmap_Some in Hkq as (prq & ? & _); by exists prq. }
    assert (Hkq : kind_of q s0 = Some (kind prq))
      by (unfold kind_of; by rewrite Hprq).
    change (kind_of q s) with (kind_of q s0) in Hok.
    change (kind_of d s) with (kind_of d s0) in Hok.
    rewrite Hkq, Hk0 in Hok.
    eapply (wf_subscribe _ _ _ k prq); try done.
    + intros Hpend. destruct Hok as [[[= Hc] [= ->]] | [= Hr]].
      * by rewrite Hc.
      * destruct (wf_rejections s0 Hwf0 q prq Hprq) as [reason Hst];
          [done | congruence].
    + intros v' Hful. unfold job_ok. cbn. rewrite Hk0.
      destruct Hok as [[_ [= ->]] | [= Hr]]; [done |].
      destruct (wf_rejections s0 Hwf0 q prq Hprq) as [reason Hst];
        [done | congruence].
  - (* never queued with a rejection *)
    done.
Qed.

Lemma wf_run_microtask s : wf s → wf (run_microtask s).
Proof.
  intros Hwf. unfold run_microtask.
  destruct (microtasks s) as [| [r o] jobs] eqn:Hq; [done |].
  by apply wf_run_job.
Qed.

Theorem wf_step e s : wf s → wf (step e s).
Proof.
  intros Hwf. destruct e; simpl.
  - by apply wf_sendHandshake.
  - by apply wf_sendMessage.
  - by apply wf_window_handler.
  - by apply wf_window_callback.
  - by apply wf_fire_timer.
  - eapply wf_channel; [done | done | done | done | simpl; auto ..].
  - by apply wf_run_microtask.
  - by apply wf_settle_handler.
Qed.

Lemma wf_run tr s : wf s → wf (run tr s).
Proof.
  revert s. induction tr as [| e tr IH]; intros s Hwf; [done |].
  simpl. apply IH. by apply wf_step.
Qed.

Lemma wf_constructor (opts : Options G) win s :
  constructor opts win = Return s → wf s.
Proof.
  unfold constructor.
  destruct (messageHandler _ win) as [target | err]; [| done].
  set (s0 := mkState _ _ _ _ _ _ _ _ _ _ _).
  assert (wf s0) as Hwf0.
  { constructor; simpl; try done.
    - intros l Hin. by apply not_elem_of_nil in Hin.
    - intros t Hin. by apply not_elem_of_nil in Hin.
    - intros r Hin. by apply not_elem_of_nil in Hin.
    - apply NoDup_nil_2.
    - intros j Hin. by apply not_elem_of_nil in Hin.
    - intros l1 env l2 Heq. by destruct l1.
    - intros _ [? | (r & Hin & _)]; [done |].
      by apply not_elem_of_nil in Hin. }
  destruct (o_autoHandshake opts); [| by intros [= <-]].
  pose proof (wf_sendHandshake s0 Hwf0) as Hwf1.
  destruct (sendHandshake s0) as [[c | err] s1]; [| done].
  by intros [= <-].
Qed.

Theorem reachable_wf s : reachable s → wf s.
Proof.
  induction 1 as [opts win s Hnew | e s _ IH].
  - by eapply wf_constructor.
  - by apply wf_step.
Qed.

(** ** How the state evolves *)

Lemma evolves_refl T s : evolves T s s.
Proof.
  constructor; try done.
  - intros i pr Hi. exists pr. split_and!; [done | done |].
    destruct (pstate pr); [left |]; done.
  - by left.
  - by left.
  - by left.
  - by left.
Qed.

Lemma evolves_weaken (T T' : nat → Prop) s s' :
  (∀ i, T i → T' i) → evolves T s s' → evolves T' s s'.
Proof.
  intros HT [Hlen Hp Hlo Hlk Hto Htk Hc Hcfg Hs Hj Hcl].
  constructor; try done.
  - intros i pr Hi. destruct (Hp i pr Hi) as (pr' & ? & ? & Hst).
    exists pr'. split_and!; [done | done |].
    destruct (pstate pr); [| done].
    destruct Hst as [? | [? ?]]; [by left | right; auto].
  - intros l Hin. destruct (Hlk l Hin); auto.
  - intros t Hin. destruct (Htk t Hin); auto.
Qed.

Lemma evolves_trans T s1 s2 s3 :
  evolves T s1 s2 → evolves T s2 s3 → evolves T s1 s3.
Proof.
  intros [Hlen Hp Hlo Hlk Hto Htk Hc Hcfg Hs Hj Hcl]
         [Hlen' Hp' Hlo' Hlk' Hto' Htk' Hc' Hcfg' Hs' Hj' Hcl'].
  constructor.
  - lia.
  - intros i pr Hi.
    destruct (Hp i pr Hi) as (pr' & Hi' & Hk & Hst).
    destruct (Hp' i pr' Hi') as (pr'' & Hi'' & Hk' & Hst').
    exists pr''. split_and!; [done | congruence |].
    destruct (pstate pr) eqn:Ep.
    + destruct Hst as [[Hpend Hsub] | (HT & o & Hset & Hjobs)].
      * rewrite Hpend in Hst'.
        destruct Hst' as [[Hpend' Hsub'] | (HT & o & Hset & Hjobs)].
        -- left. split; [done |]. auto.
        -- right. split; [done |]. exists o. split; [done |]. auto.
      * rewrite Hset in Hst'. right. split; [done |].
        exists o. split; [done |]. auto.
    + rewrite Hst in Hst'. done.
  - intros l Hin. destruct (Hlo' l Hin) as [Hin' | ?]; [| right; lia].
    destruct (Hlo l Hin'); [by left | by right].
  - intros l Hin. destruct (Hlk l Hin) as [Hin' | ?]; [| by right].
    by apply Hlk'.
  - intros t Hin. destruct (Hto' t Hin) as [Hin' | ?]; [| right; lia].
    destruct (Hto t Hin'); [by left | by right].
  - intros t Hin. destruct (Htk t Hin) as [Hin' | ?]; [| by right].
    by apply Htk'.
  - auto.
  - congruence.
  - by etrans.
  - auto.
  - lia.
Qed.

Lemma evolves_settle p o s : evolves (λ i, i = p) s (settle p o s).
Proof.
  rewrite settle_unfold. constructor; simpl; try done.
  - by rewrite length_alter.
  - intros i pr Hi.
    destruct (decide (p = i)) as [-> | Hne].
    + rewrite list_lookup_alter_eq, Hi. simpl.
      eexists. split; [done |]. unfold settled_rec, settle_jobs.
      rewrite Hi. destruct (pstate pr) eqn:Ep; simpl.
      * split; [done |]. right. split; [done |]. exists o.
        split; [done |]. intros r Hr. apply elem_of_app. right.
        apply list_elem_of_fmap. by exists r.
      * by rewrite Ep.
    + rewrite list_lookup_alter_ne by done. exists pr.
      split_and!; [done | done |]. destruct (pstate pr); [left |]; done.
  - by left.
  - by left.
  - by left.
  - by left.
  - intros j Hj. apply elem_of_app. by left.
Qed.

Lemma evolves_subscribe T p r s : evolves T s (subscribe p r s).
Proof.
  rewrite subscribe_unfold. constructor; simpl; try done.
  - by rewrite length_alter.
  - intros i pr Hi.
    destruct (decide (p = i)) as [-> | Hne].
    + rewrite list_lookup_alter_eq, Hi. simpl.
      eexists. split; [done |]. unfold subscribed_rec.
      destruct (pstate pr) eqn:Ep; simpl.
      * split; [done |]. left. split; [done |].
        intros r' Hr'. apply elem_of_app. by left.
      * by rewrite Ep.
    + rewrite list_lookup_alter_ne by done. exists pr.
      split_and!; [done | done |]. destruct (pstate pr); [left |]; done.
  - by left.
  - by left.
  - by left.
  - by left.
  - intros j Hj. apply elem_of_app. by left.
Qed.

Lemma evolves_new_promise T k st s : evolves T s (new_promise k st s).2.
Proof.
  constructor; simpl; try done.
  - rewrite length_app. lia.
  - intros i pr Hi. exists pr.
    split_and!; [by apply lookup_app_l_Some | done |].
    destruct (pstate pr); [left |]; done.
  - by left.
  - by left.
  - by left.
  - by left.
Qed.

Lemma evolves_after_call T action data timeout s :
  evolves T s (after_call action data timeout s).
Proof.
  constructor; simpl; try done.
  - rewrite length_app. lia.
  - intros i pr Hi. exists pr.
    split_and!; [by apply lookup_app_l_Some | done |].
    destruct (pstate pr); [left |]; done.
  - intros l Hin. apply elem_of_app in Hin as [Hin | Hin]; [by left |].
    apply list_elem_of_singleton in Hin as ->. by right.
  - intros l Hin. left. apply elem_of_app. by left.
  - intros t Hin. destruct (0 <? timeout); [| by left].
    apply elem_of_app in Hin as [Hin | Hin]; [by left |].
    apply list_elem_of_singleton in Hin as ->. by right.
  - intros t Hin. left. destruct (0 <? timeout); [| done].
    apply elem_of_app. by left.
  - destruct (parent (cfg s)); [by apply prefix_app_r | done].
Qed.

Lemma evolves_then T p cb k s : evolves T s (then_ p cb k s).2.
Proof.
  rewrite then_unfold. eapply evolves_trans.
  - apply evolves_new_promise.
  - apply evolves_subscribe.
Qed.

(** Changes that leave the promise store and the queue alone. *)
Lemma evolves_channel (T : nat → Prop) s s' :
  promises s' = promises s →
  microtasks s' = microtasks s →
  cfg s' = cfg s →
  (∀ l, l ∈ _emitter s' → l ∈ _emitter s) →
  (∀ l, l ∈ _emitter s → l ∈ _emitter s' ∨ T (l_call l)) →
  (∀ t, t ∈ timers s' → t ∈ timers s) →
  (∀ t, t ∈ timers s → t ∈ timers s' ∨ T (t_call t)) →
  (_connected s = true → _connected s' = true) →
  sent s `prefix_of` sent s' →
  clock s ≤ clock s' →
  evolves T s s'.
Proof.
  intros Hp Hq Hcfg Hlo Hlk Hto Htk Hc Hs Hcl.
  constructor; try done.
  - by rewrite Hp.
  - intros i pr Hi. exists pr. rewrite Hp.
    split_and!; [done | done |]. destruct (pstate pr); [left |]; done.
  - intros l Hin. left. auto.
  - intros t Hin. left. auto.
  - by rewrite Hq.
Qed.

Ltac evolves_setter :=
  apply evolves_channel;
  [ done | done | done | auto | auto | auto | auto | auto
  | try done; auto using prefix_app_r
  | try apply Z.le_refl ].

Lemma evolves_postMessage T env s s' :
  postMessage env s = Return s' → evolves T s s'.
Proof.
  unfold postMessage. destruct (parent (cfg s)); [| done].
  intros [= <-]. evolves_setter. simpl. by apply prefix_app_r.
Qed.

Lemma evolves_after_handshake T s : evolves T s (after_handshake s).
Proof.
  apply (evolves_trans _ _ (handshake_catch s)); [| by evolves_setter].
  apply (evolves_trans _ _ (handshake_then s)); [| apply evolves_then].
  apply (evolves_trans _ _ (handshake_call s)); [| apply evolves_then].
  apply (evolves_trans _ _ (set_connecting true s));
    [| apply evolves_after_call].
  by evolves_setter.
Qed.

Lemma evolves_sendHandshake T s : evolves T s (sendHandshake s).2.
Proof.
  destruct (_connected s) eqn:Hc;
    [rewrite sendHandshake_connected by done; apply evolves_refl |].
  destruct (_connecting s) eqn:Hcg;
    [rewrite sendHandshake_connecting by done; apply evolves_refl |].
  rewrite sendHandshake_new by done. apply evolves_after_handshake.
Qed.

Lemma evolves_sendMessage T action data timeout s :
  evolves T s (sendMessage action data timeout s).2.
Proof.
  unfold sendMessage.
  set (t := default _ timeout).
  assert (Hgo : ∀ s1, evolves T s s1 →
            evolves T s
              (match _whenReady s1 with
               | Some w =>
                   let '(d, s2) :=
                     then_ w (CbSend action data t) KMessage s1 in
                   (Return d, s2)
               | None => (Throw VTypeError, s1)
               end).2).
  { intros s1 Hev. destruct (_whenReady s1) as [w |]; [| done].
    rewrite then_eq. simpl.
    eapply evolves_trans; [done | apply evolves_then]. }
  destruct (_whenReady s) as [w |] eqn:Ew.
  - apply Hgo, evolves_refl.
  - pose proof (evolves_sendHandshake T s) as Hev.
    destruct (sendHandshake s) as [[c | err] s1]; simpl in *; [| done].
    by apply Hgo.
Qed.

Lemma evolves_window_handler T id action data s :
  evolves T s (window_handler id action data s).2.
Proof.
  unfold window_handler.
  destruct (_handleMessage action data s) as [v | err |].
  - unfold _sendMessageCallback.
    destruct (postMessage _ s) as [s1 | err] eqn:Ep;
      [| apply evolves_refl].
    by eapply evolves_postMessage.
  - apply evolves_refl.
  - change (evolves T s
              (then_ (length (promises s)) (CbReply id) KReplied
                 (new_promise KHandler Pending s).2).2).
    eapply evolves_trans; [apply evolves_new_promise | apply evolves_then].
Qed.

Lemma evolves_callbackReceived p result s :
  evolves (λ i, i = p) s (callbackReceived p result s).
Proof.
  unfold callbackReceived.
  apply (evolves_trans _ _ (clearTimeout p s)); [| apply evolves_settle].
  unfold clearTimeout. evolves_setter.
  - intros t Hin. by apply list_elem_of_filter in Hin as [_ Hin].
  - intros t Hin. destruct (Nat.eqb p (t_call t)) eqn:E.
    + right. symmetry. by apply Nat.eqb_eq.
    + left. by apply list_elem_of_filter.
Qed.

Lemma evolves_foldl_callbackReceived result (ps : list nat) s :
  evolves (λ i, i ∈ ps) s
    (foldl (λ s' p, callbackReceived p result s') s ps).
Proof.
  revert s. induction ps as [| p ps IH]; intros s; [apply evolves_refl |].
  simpl. eapply evolves_trans.
  - eapply evolves_weaken; [| apply evolves_callbackReceived].
    intros i ->. by left.
  - eapply evolves_weaken; [| apply IH]. intros i Hi. by right.
Qed.

Lemma evolves_fire_timer p s :
  evolves (touched (ETimer p) s) s (fire_timer p s).
Proof.
  unfold fire_timer, touched.
  destruct (armed p s) as [t |] eqn:Ea; [| apply evolves_refl].
  destruct (Z.leb_spec (t_deadline t) (clock s)); [| apply evolves_refl].
  eapply evolves_weaken with (T := λ i, i = p).
  { intros i ->. split; [done |]. by exists t. }
  unfold rejectTimeout.
  apply (evolves_trans _ _ (emitter_off (t_id t) p (clearTimeout p s)));
    [| apply evolves_settle].
  unfold emitter_off, clearTimeout. evolves_setter.
  - intros l Hin. by apply list_elem_of_filter in Hin as [_ Hin].
  - intros l Hin. destruct (listener_is (t_id t) p l) eqn:E.
    + right. unfold listener_is in E.
      apply andb_true_iff in E as [_ E]. symmetry. by apply Nat.eqb_eq.
    + left. by apply list_elem_of_filter.
  - intros t' Hin. by apply list_elem_of_filter in Hin as [_ Hin].
  - intros t' Hin. destruct (Nat.eqb p (t_call t')) eqn:E.
    + right. symmetry. by apply Nat.eqb_eq.
    + left. by apply list_elem_of_filter.
Qed.

Lemma evolves_settle_handler q o s :
  evolves (touched (ESettle q o) s) s (settle_handler q o s).
Proof.
  unfold settle_handler, touched, kind_of.
  destruct (promises s !! q) as [pr |] eqn:E; [| apply evolves_refl].
  destruct (kind pr) eqn:Ek; try apply evolves_refl.
  eapply evolves_weaken; [| apply evolves_settle].
  intros i ->. simpl. by rewrite Ek.
Qed.

Lemma evolves_adopt T d q s : evolves T s (adopt d q s).
Proof.
  unfold adopt. constructor; simpl; try done.
  - intros i pr Hi. exists pr. split_and!; [done | done |].
    destruct (pstate pr); [left |]; done.
  - by left.
  - by left.
  - by left.
  - by left.
  - intros j Hj. apply elem_of_app. by left.
Qed.

Lemma evolves_run_job j s :
  evolves (λ i, i = r_derived j.1) s (run_job j s).
Proof.
  destruct j as [[cb d] o]. simpl.
  assert (Hpass : ∀ o', evolves (λ i, i = d) s (settle d o' s))
    by (intros; apply evolves_settle).
  destruct cb, o as [v | reason]; try apply Hpass.
  - apply (evolves_trans _ _ (set_connected true s));
      [| apply evolves_settle].
    by evolves_setter.
  - change (evolves (λ i, i = d) s
              (adopt d (length (promises s))
                 (new_promise KRejection
                    (Settled (Rejected TIMEOUT_HANDSHAKE))
                    (set_connecting false s)).2)).
    eapply evolves_trans; [| apply evolves_adopt].
    apply (evolves_trans _ _ (set_connecting false s));
      [| apply evolves_new_promise].
    by evolves_setter.
  - rewrite _sendMessage_unfold.
    eapply evolves_trans; [apply evolves_after_call | apply evolves_adopt].
  - unfold _sendMessageCallback.
    destruct (postMessage _ s) as [s1 | err] eqn:Ep; [| apply Hpass].
    eapply evolves_trans; [by eapply evolves_postMessage |].
    apply evolves_settle.
  - apply evolves_subscribe.
  - apply evolves_subscribe.
Qed.

Theorem step_evolves e s :
  evolves (touched e s) (before e s) (step e s).
Proof.
  destruct e; simpl.
  - apply evolves_sendHandshake.
  - apply evolves_sendMessage.
  - apply evolves_window_handler.
  - apply evolves_foldl_callbackReceived.
  - apply evolves_fire_timer.
  - evolves_setter. simpl. lia.
  - unfold run_microtask.
    destruct (microtasks s) as [| j jobs] eqn:Hq; simpl.
    + rewrite <- Hq. destruct s. apply evolves_refl.
    + eapply evolves_weaken; [| apply evolves_run_job].
      intros i ->. unfold touched. rewrite Hq. by exists j.
  - apply evolves_settle_handler.
Qed.

End ChannelFacts.

(** * Construction *)

Section Construction.

Context {G : Type} `{IdGenerator G}.

Lemma constructor_throws_without_messageHandlers (o : Options G) w :
  webkit w = NoWebkit ∨ webkit w = NoMessageHandlers →
  constructor o w
  = Throw (VError ("Can't add message handler " +:+ o_scriptMessageHandler o)).
Proof.
  intros Hw. unfold constructor, messageHandler.
  by destruct Hw as [-> | ->].
Qed.

Lemma constructor_returns_with_messageHandlers (o : Options G) w names :
  webkit w = MessageHandlers names →
  ∃ s, constructor o w = Return s
       ∧ parent (cfg s)
         = (if bool_decide (o_scriptMessageHandler o ∈ names)
            then Some (o_scriptMessageHandler o) else None).
Proof.
  intros Hw. unfold constructor, messageHandler. rewrite Hw.
  destruct (o_autoHandshake o); [| by eexists].
  set (s0 := mkState _ _ _ _ _ _ _ _ _ _ _).
  assert (_connected s0 = false) as Hc by done.
  assert (_connecting s0 = false) as Hcg by done.
  rewrite (sendHandshake_new s0 Hc Hcg). eexists. split; [done |].
  by rewrite (ev_cfg _ _ _ (evolves_after_handshake (λ _, False) s0)).
Qed.

End Construction.

Lemma constructed_by_constructor :
  constructor manual_options example_window = Return example_state.
Proof. reflexivity. Qed.

(** C8. With [window.webkit.messageHandlers] present but without the
    property named by [scriptMessageHandler], the constructor does not
    throw: it returns a channel whose [parent] is [undefined], and the
    automatic handshake is rejected inside its promise. *)
Theorem constructor_accepts_missing_handler :
  ∃ s, constructor default_options
         {| webkit := MessageHandlers []; date_now := 1700000000000 |}
       = Return s
       ∧ parent (cfg s) = None
       ∧ sent s = []
       ∧ promise_state 0 s = Some (Settled (Rejected VTypeError)).
Proof. vm_compute. eexists. split_and!; reflexivity. Qed.

(** * Envelopes *)

Section Envelopes.

Context {G : Type} `{IdGenerator G}.

Lemma reply_payload_fields id data :
  action_of (reply_payload id data) = Some CALLBACK_ACTION
  ∧ field "callback" (reply_payload id data) = Some (VStr "")
  ∧ id_of (reply_payload id data) = Some id
  ∧ field "data" (reply_payload id data) = Some data
  ∧ field "type" (reply_payload id data) = Some (VStr MESSAGE_TYPE).
Proof. done. Qed.

Lemma request_payload_fields cb id action data :
  action_of (request_payload cb id action data) = Some action
  ∧ field "callback" (request_payload cb id action data) = Some (VStr cb)
  ∧ id_of (request_payload cb id action data) = Some id
  ∧ field "data" (request_payload cb id action data) = Some data
  ∧ field "type" (request_payload cb id action data)
    = Some (VStr MESSAGE_TYPE).
Proof. done. Qed.

Lemma sent__sendMessageCallback id data (s s' : State G) :
  _sendMessageCallback id data s = Return s' →
  sent s' = sent s ++ [reply_payload id data].
Proof.
  unfold _sendMessageCallback, postMessage.
  destruct (parent (cfg s)); [| done]. by intros [= <-].
Qed.

(** C7 (as the code has it). Whatever the inbound dispatcher posts, in
    the call of the global handler or in the job that waits for the
    handler's promise, is a reply envelope for the call's id: its action
    is the reserved reply action, and its callback field is present and
    holds the empty string. *)
Theorem reply_envelopes_shape (s : State G) id action data d v :
  let shape env :=
    action_of env = Some CALLBACK_ACTION
    ∧ field "callback" env = Some (VStr "")
    ∧ id_of env = Some id in
  (∃ l, sent (window_handler id action data s).2 = sent s ++ l
        ∧ Forall shape l)
  ∧ (∃ l, sent (run_job (mkReaction (CbReply id) d, Fulfilled v) s)
          = sent s ++ l
          ∧ Forall shape l).
Proof.
  intros shape.
  assert (Hshape : ∀ x, shape (reply_payload id x)) by done.
  split.
  - unfold window_handler.
    destruct (_handleMessage action data s) as [x | err |].
    + destruct (_sendMessageCallback id x s) as [s1 | err] eqn:E.
      * exists [reply_payload id x]. split; [| by constructor].
        by apply sent__sendMessageCallback.
      * exists []. by rewrite app_nil_r.
    + exists []. by rewrite app_nil_r.
    + exists []. rewrite app_nil_r. split; [| by constructor].
      change (sent (then_ (length (promises s)) (CbReply id) KReplied
                      (new_promise KHandler Pending s).2).2 = sent s).
      by destruct (then_frame (length (promises s)) (CbReply id) KReplied
                     (new_promise KHandler Pending s).2)
        as (_ & _ & _ & _ & _ & _ & _ & -> & _).
  - simpl.
    destruct (_sendMessageCallback id v s) as [s1 | err] eqn:E.
    + exists [reply_payload id v]. split; [| by constructor].
      rewrite settle_unfold. simpl. by apply sent__sendMessageCallback.
    + exists []. rewrite app_nil_r, settle_unfold. done.
Qed.

End Envelopes.

(** C7 (as stated) fails: the reply envelope posted for an inbound call
    has a callback field. *)
Lemma reply_envelope_keeps_callback_field :
  ¬ (∀ env,
       env ∈ sent (window_handler "some-ios-uuid" "testHandle" VNull
                     example_state).2 →
       action_of env = Some CALLBACK_ACTION ∧ omits "callback" env).
Proof.
  intros Hall.
  destruct (Hall (reply_payload "some-ios-uuid" VNull)) as [_ Hom].
  - vm_compute. by left.
  - vm_compute in Hom. done.
Qed.

(** * The handshake fields *)

Section Handshake.

Context {G : Type} `{IdGenerator G}.

Implicit Types (s : State G) (p q d w : nat) (o : Outcome).

Lemma same_handshake_trans s1 s2 s3 :
  same_handshake s1 s2 → same_handshake s2 s3 → same_handshake s1 s3.
Proof. unfold same_handshake. intros [-> ->] [-> ->]. done. Qed.

Lemma same_handshake_settle p o s : same_handshake s (settle p o s).
Proof. by rewrite settle_unfold. Qed.

Lemma same_handshake_subscribe p r s : same_handshake s (subscribe p r s).
Proof. by rewrite subscribe_unfold. Qed.

Lemma same_handshake_then p cb k s : same_handshake s (then_ p cb k s).2.
Proof. rewrite then_unfold. by rewrite subscribe_unfold. Qed.

Lemma same_handshake_callbackReceived p result s :
  same_handshake s (callbackReceived p result s).
Proof. unfold callbackReceived. by rewrite settle_unfold. Qed.

Lemma same_handshake_window_callback id result s :
  same_handshake s (window_callback id result s).
Proof.
  unfold window_callback. generalize (listeners id s) as ps.
  intros ps. revert s. induction ps as [| p ps IH]; intros s; [done |].
  simpl. eapply same_handshake_trans; [| apply IH].
  apply same_handshake_callbackReceived.
Qed.

Lemma same_handshake_fire_timer p s : same_handshake s (fire_timer p s).
Proof.
  unfold fire_timer. destruct (armed p s) as [t |]; [| done].
  destruct (t_deadline t <=? clock s); [| done].
  unfold rejectTimeout. by rewrite settle_unfold.
Qed.

Lemma same_handshake_settle_handler q o s :
  same_handshake s (settle_handler q o s).
Proof.
  unfold settle_handler. destruct (promises s !! q) as [pr |]; [| done].
  destruct (kind pr); try done. apply same_handshake_settle.
Qed.

Lemma same_handshake_window_handler id action data s :
  same_handshake s (window_handler id action data s).2.
Proof.
  unfold window_handler.
  destruct (_handleMessage action data s) as [v | err |]; [| done |].
  - unfold _sendMessageCallback, postMessage.
    by destruct (parent (cfg s)).
  - change (same_handshake s
              (then_ (length (promises s)) (CbReply id) KReplied
                 (new_promise KHandler Pending s).2).2).
    eapply same_handshake_trans; [| apply same_handshake_then]. done.
Qed.

(** A job changes the handshake fields only when it is the failure
    handler of a handshake attempt, which clears [_connecting]. *)
Lemma handshake_fields_run_job j s :
  _whenReady (run_job j s) = _whenReady s
  ∧ _connecting (run_job j s)
    = match j with
      | (mkReaction CbHandshakeFailed _, Rejected _) => false
      | _ => _connecting s
      end.
Proof.
  destruct j as [[cb d] o]. simpl.
  destruct cb, o as [v | reason];
    rewrite ?_sendMessage_unfold; unfold adopt, _sendMessageCallback,
      postMessage;
    try destruct (parent (cfg s));
    by rewrite ?settle_unfold, ?subscribe_unfold.
Qed.

Lemma emitter_callbackReceived p result s :
  _emitter (callbackReceived p result s) = _emitter s.
Proof. unfold callbackReceived. by rewrite settle_unfold. Qed.

(** Firing a reply leaves the emitter as it was: [callbackReceived] does
    not unregister itself. *)
Lemma emitter_window_callback id result s :
  _emitter (window_callback id result s) = _emitter s.
Proof.
  unfold window_callback. generalize (listeners id s) as ps.
  intros ps. revert s. induction ps as [| p ps IH]; intros s; [done |].
  simpl. by rewrite IH, emitter_callbackReceived.
Qed.

(** Firing an id nobody waits for changes nothing. *)
Lemma window_callback_no_waiter id result s :
  listeners id s = [] → window_callback id result s = s.
Proof. unfold window_callback. by intros ->. Qed.

End Handshake.

(** C6. After a reply has fired the waiter of a call, the waiter is still
    registered with the emitter: the handshake call of [example_state] is
    answered, its promise is fulfilled, and the listener under its token
    is the same as before; a second reply reaches it again. *)
Theorem reply_leaves_waiter_registered :
  let s1 := (sendHandshake example_state).2 in
  let s2 := window_callback first_token VUndefined s1 in
  listeners first_token s1 = [0%nat]
  ∧ promise_state 0 s2 = Some (Settled (Fulfilled VUndefined))
  ∧ listeners first_token s2 = [0%nat]
  ∧ _emitter s2 = _emitter s1
  ∧ window_callback first_token VNull s2 = s2.
Proof. vm_compute. split_and!; reflexivity. Qed.

(** * Settled promises, [sendHandshake] and [sendMessage] *)

Section Deferreds.

Context {G : Type} `{IdGenerator G}.

Implicit Types (s : State G) (p q d w : nat) (o : Outcome).

Lemma promise_state_subscribe i p r s :
  promise_state i (subscribe p r s) = promise_state i s.
Proof.
  unfold promise_state. rewrite subscribe_unfold. simpl.
  destruct (decide (p = i)) as [-> | Hne].
  - rewrite list_lookup_alter_eq.
    destruct (promises s !! i) as [pr |]; [| done]. simpl.
    unfold subscribed_rec. by destruct (pstate pr) eqn:E; simpl; rewrite ?E.
  - by rewrite list_lookup_alter_ne.
Qed.

Lemma promise_state_then_new p cb k s :
  promise_state (length (promises s)) (then_ p cb k s).2 = Some Pending.
Proof.
  rewrite then_unfold, promise_state_subscribe.
  unfold promise_state. simpl. by rewrite list_lookup_middle.
Qed.

Lemma promise_state_settle_pending p o s :
  promise_state p s = Some Pending →
  promise_state p (settle p o s) = Some (Settled o).
Proof.
  unfold promise_state. rewrite settle_unfold. simpl.
  rewrite list_lookup_alter_eq.
  destruct (promises s !! p) as [pr |]; [| done]. simpl.
  unfold settled_rec. intros [= ->]. done.
Qed.

(** Once settled, a promise keeps its outcome. *)
Lemma promise_state_step i o e s :
  promise_state i s = Some (Settled o) →
  promise_state i (step e s) = Some (Settled o).
Proof.
  unfold promise_state. intros Hi.
  assert (promises (before e s) = promises s) as Hb by (by destruct e).
  destruct (promises s !! i) as [pr |] eqn:E; [| done].
  simpl in Hi. injection Hi as Hi. rewrite <- Hb in E.
  destruct (ev_promises _ _ _ (step_evolves e s) i pr E)
    as (pr' & -> & _ & Hst).
  rewrite Hi in Hst. simpl. by rewrite Hst.
Qed.

Lemma promise_state_run i o tr s :
  promise_state i s = Some (Settled o) →
  promise_state i (run tr s) = Some (Settled o).
Proof.
  revert s. induction tr as [| e tr IH]; intros s Hi; [done |].
  simpl. by apply IH, promise_state_step.
Qed.

Lemma connected_step e s :
  _connected s = true → _connected (step e s) = true.
Proof.
  intros Hc. apply (ev_connected _ _ _ (step_evolves e s)).
  by destruct e.
Qed.

Lemma cfg_step e s : cfg (step e s) = cfg s.
Proof.
  rewrite (ev_cfg _ _ _ (step_evolves e s)). by destruct e.
Qed.

Lemma cfg_run tr s : cfg (run tr s) = cfg s.
Proof.
  revert s. induction tr as [| e tr IH]; intros s; [done |].
  simpl. by rewrite IH, cfg_step.
Qed.

(** *** [sendHandshake] *)

Lemma after_handshake_fields s :
  _connecting (after_handshake s) = true
  ∧ _connected (after_handshake s) = _connected s
  ∧ _whenReady (after_handshake s) = Some (handshake_promise s)
  ∧ promise_state (handshake_promise s) (after_handshake s) = Some Pending
  ∧ (located s →
     sent (after_handshake s)
     = sent s ++ [request_payload (_cb (cfg s)) (call_token s)
                    HANDSHAKE_ACTION (VStr (_hm (cfg s)))]).
Proof.
  pose proof (then_frame (length (promises (handshake_call s)))
                CbHandshakeFailed KWhenReady (handshake_then s)) as Hf4.
  pose proof (then_frame (length (promises s)) CbConnected KConnected
                (handshake_call s)) as Hf3.
  fold (handshake_then s) in Hf3. fold (handshake_catch s) in Hf4.
  destruct Hf3 as (_ & _ & Hcg3 & Hc3 & _ & _ & _ & Hs3 & _).
  destruct Hf4 as (_ & _ & Hcg4 & Hc4 & _ & _ & _ & Hs4 & _).
  assert (_connecting (after_handshake s) = _connecting (handshake_catch s))
    as -> by done.
  assert (_connected (after_handshake s) = _connected (handshake_catch s))
    as -> by done.
  assert (sent (after_handshake s) = sent (handshake_catch s))
    as -> by done.
  rewrite Hcg4, Hcg3, Hc4, Hc3, Hs4, Hs3.
  split_and!; try done.
  - unfold promise_state, after_handshake. simpl.
    apply (promise_state_then_new _ _ _ (handshake_then s)).
  - intros Hloc. unfold handshake_call.
    by rewrite sent_after_call.
Qed.

End Deferreds.

(** The handshake of [example_state] completes: after the reply and the
    two jobs it causes the channel is connected, and [sendHandshake]
    throws. *)
Example sendHandshake_after_completion :
  let s := run [ESendHandshake; EReply first_token VUndefined;
                EMicrotask; EMicrotask] example_state in
  connection s = Connected
  ∧ microtasks s = []
  ∧ (sendHandshake s).1 = Throw ALREADY_COMPLETED.
Proof. vm_compute. split_and!; reflexivity. Qed.

Section StaleHandshake.

Context {G : Type} `{IdGenerator G}.

Implicit Types (s : State G) (p q d w : nat) (o : Outcome).

Lemma sendMessage_ready action data timeout s w :
  _whenReady s = Some w →
  sendMessage action data timeout s
  = (Return (length (promises s)),
     (then_ w (CbSend action data
                 (default (_messageTimeout (cfg s)) timeout))
        KMessage s).2).
Proof.
  intros Hw. unfold sendMessage. rewrite Hw. cbv iota. by rewrite Hw.
Qed.

Lemma lookup_then_new p cb k s :
  p ≠ length (promises s) →
  promises (then_ p cb k s).2 !! length (promises s)
  = Some (mkPromise Pending [] k).
Proof.
  intros Hne. rewrite then_unfold, subscribe_unfold. simpl.
  rewrite list_lookup_alter_ne by done. by apply list_lookup_middle.
Qed.

Lemma whenReady_step e s w :
  e ≠ ESendHandshake → _whenReady s = Some w →
  _whenReady (step e s) = Some w.
Proof.
  intros He Hw. destruct e; simpl; try done.
  - rewrite (sendMessage_ready _ _ _ _ w Hw). cbn [snd].
    by destruct (same_handshake_then w
                   (CbSend action data
                      (default (_messageTimeout (cfg s)) timeout))
                   KMessage s) as [-> _].
  - by destruct (same_handshake_window_handler id action data s) as [-> _].
  - by destruct (same_handshake_window_callback id result s) as [-> _].
  - by destruct (same_handshake_fire_timer p s) as [-> _].
  - unfold run_microtask. destruct (microtasks s) as [| j jobs]; [done |].
    by destruct (handshake_fields_run_job j (set_microtasks jobs s))
      as [-> _].
  - by destruct (same_handshake_settle_handler q o s) as [-> _].
Qed.

Lemma whenReady_run tr s w :
  Forall (λ e, e ≠ ESendHandshake) tr → _whenReady s = Some w →
  _whenReady (run tr s) = Some w.
Proof.
  revert s. induction tr as [| e tr IH]; intros s Htr Hw; [done |].
  apply Forall_cons in Htr as [He Htr]. simpl.
  apply IH; [done |]. by apply whenReady_step.
Qed.

(** C10. Once the promise stored in [_whenReady] is rejected, it stays
    stored and rejected through any events other than an explicit
    [sendHandshake()], and every [sendMessage] made then posts nothing
    and returns a promise whose only future is the job that rejects it
    with the stored reason: the job is queued by the call, posts
    nothing when it runs, and runs next when the queue was empty. *)
Theorem sendMessage_after_failed_handshake s w reason tr action data timeout :
  _whenReady s = Some w →
  promise_state w s = Some (Settled (Rejected reason)) →
  Forall (λ e, e ≠ ESendHandshake) tr →
  let s1 := run tr s in
  let d := length (promises s1) in
  let job :=
    (mkReaction
       (CbSend action data (default (_messageTimeout (cfg s1)) timeout)) d,
     Rejected reason) in
  let s2 := (sendMessage action data timeout s1).2 in
  _whenReady s1 = Some w
  ∧ promise_state w s1 = Some (Settled (Rejected reason))
  ∧ (sendMessage action data timeout s1).1 = Return d
  ∧ sent s2 = sent s1
  ∧ microtasks s2 = microtasks s1 ++ [job]
  ∧ promise_state d s2 = Some Pending
  ∧ _whenReady s2 = Some w
  ∧ (∀ s', sent (run_job job s') = sent s'
           ∧ (promise_state d s' = Some Pending →
              promise_state d (run_job job s')
              = Some (Settled (Rejected reason))))
  ∧ (microtasks s1 = [] →
     promise_state d (run_microtask s2) = Some (Settled (Rejected reason))
     ∧ sent (run_microtask s2) = sent s1
     ∧ microtasks (run_microtask s2) = []).
Proof.
  intros Hw Hrej Htr s1 d job s2.
  assert (Hw1 : _whenReady s1 = Some w) by (by apply whenReady_run).
  assert (Hrej1 : promise_state w s1 = Some (Settled (Rejected reason)))
    by (by apply promise_state_run).
  assert (Hs2 : s2 = (then_ w (CbSend action data
                         (default (_messageTimeout (cfg s1)) timeout))
                        KMessage s1).2).
  { unfold s2. by rewrite (sendMessage_ready _ _ _ _ w). }
  assert (Hq2 : microtasks s2 = microtasks s1 ++ [job]).
  { rewrite Hs2, then_unfold, subscribe_unfold. simpl.
    unfold subscribe_jobs. simpl.
    unfold promise_state in Hrej1.
    destruct (promises s1 !! w) as [pr |] eqn:E; [| done].
    rewrite (lookup_app_l_Some _ _ _ _ E).
    simpl in Hrej1. injection Hrej1 as ->. done. }
  assert (Hd2 : promise_state d s2 = Some Pending)
    by (rewrite Hs2; apply promise_state_then_new).
  assert (Hsent2 : sent s2 = sent s1).
  { rewrite Hs2.
    by destruct (then_frame w (CbSend action data
                   (default (_messageTimeout (cfg s1)) timeout))
                   KMessage s1) as (_ & _ & _ & _ & _ & _ & _ & -> & _). }
  assert (Hjob : ∀ s', sent (run_job job s') = sent s'
           ∧ (promise_state d s' = Some Pending →
              promise_state d (run_job job s')
              = Some (Settled (Rejected reason)))).
  { intros s'. simpl. split; [by rewrite settle_unfold |].
    apply promise_state_settle_pending. }
  split_and!; try done.
  - unfold s2. by rewrite (sendMessage_ready _ _ _ _ w).
  - rewrite Hs2.
    by destruct (then_frame w (CbSend action data
                   (default (_messageTimeout (cfg s1)) timeout))
                   KMessage s1) as (_ & _ & _ & _ & -> & _).
  - intros Hq1. unfold run_microtask. rewrite Hq2, Hq1. simpl app.
    cbv iota.
    destruct (Hjob (set_microtasks [] s2)) as [Hsent Hst].
    split_and!.
    + by apply Hst.
    + by rewrite Hsent.
    + change (run_job job (set_microtasks [] s2))
        with (settle d (Rejected reason) (set_microtasks [] s2)).
      rewrite settle_unfold. unfold settle_jobs.
      change (promises (set_microtasks [] s2)) with (promises s2).
      assert (promises s2 !! d = Some (mkPromise Pending [] KMessage))
        as ->; [| done].
      rewrite Hs2. apply lookup_then_new.
      unfold promise_state in Hrej1.
      destruct (promises s1 !! w) as [pr |] eqn:E; [| done].
      apply lookup_lt_Some in E. lia.
Qed.

End StaleHandshake.

Lemma sendMessage_after_failed_handshake_witness :
  let s := run [ESendHandshake; ETick 3000; ETimer 0;
                EMicrotask; EMicrotask; EMicrotask; EMicrotask]
             example_state in
  let s1 := run [ETick 10] s in
  _whenReady s = Some 2%nat
  ∧ promise_state 2 s = Some (Settled (Rejected TIMEOUT_HANDSHAKE))
  ∧ Forall (λ e, e ≠ ESendHandshake) [ETick 10]
  ∧ microtasks s1 = []
  ∧ sent (sendMessage "echo" VNull None s1).2 = sent s1
  ∧ promise_state (length (promises s1))
      (run_microtask (sendMessage "echo" VNull None s1).2)
    = Some (Settled (Rejected TIMEOUT_HANDSHAKE)).
Proof.
  intros s s1.
  assert (Hw : _whenReady s = Some 2%nat) by (vm_compute; reflexivity).
  assert (Hrej : promise_state 2 s
                 = Some (Settled (Rejected TIMEOUT_HANDSHAKE)))
    by (vm_compute; reflexivity).
  assert (Htr : Forall (λ e, e ≠ ESendHandshake) [ETick 10])
    by (repeat constructor; discriminate).
  assert (Hq : microtasks s1 = []) by (vm_compute; reflexivity).
  destruct (sendMessage_after_failed_handshake s 2 TIMEOUT_HANDSHAKE
              [ETick 10] "echo" VNull None Hw Hrej Htr)
    as (_ & _ & _ & Hsent & _ & _ & _ & _ & Hnext).
  destruct (Hnext Hq) as (Hd & _ & _).
  split_and!; [exact Hw | exact Hrej | exact Htr | exact Hq | exact Hsent
              | exact Hd].
Defined.

(** * The connection state *)

Section ConnectionState.

Context {G : Type} `{IdGenerator G}.

Implicit Types (s : State G) (p q d w : nat) (o : Outcome).

Lemma connecting_step e s :
  _connecting (step e s) = _connecting s
  ∨ _connecting (step e s) = true
  ∨ (e = EMicrotask
     ∧ ∃ d reason,
         head (microtasks s)
         = Some (mkReaction CbHandshakeFailed d, Rejected reason)).
Proof.
  assert (Hhs : ∀ s0, _connecting (sendHandshake s0).2 = _connecting s0
                      ∨ _connecting (sendHandshake s0).2 = true).
  { intros s0.
    destruct (_connected s0) eqn:Hc;
      [rewrite sendHandshake_connected by done; by left |].
    destruct (_connecting s0) eqn:Hcg;
      [rewrite sendHandshake_connecting by done; by left |].
    rewrite sendHandshake_new by done. right. cbn [snd].
    by destruct (after_handshake_fields s0) as (-> & _). }
  destruct e; simpl.
  - destruct (Hhs s); auto.
  - unfold sendMessage.
    destruct (_whenReady s) as [w |] eqn:Ew.
    + cbv iota. rewrite Ew. rewrite then_eq. cbn [snd].
      left. by destruct (same_handshake_then w
                           (CbSend action data
                              (default (_messageTimeout (cfg s)) timeout))
                           KMessage s) as [_ ->].
    + specialize (Hhs s).
      destruct (sendHandshake s) as [[c | err] s1]; cbn [snd] in *;
        [| destruct Hhs; auto].
      destruct (_whenReady s1) as [w |]; cbn [snd];
        [| destruct Hhs; auto].
      rewrite then_eq. cbn [snd].
      destruct (same_handshake_then w
                  (CbSend action data
                     (default (_messageTimeout (cfg s)) timeout))
                  KMessage s1) as [_ ->].
      destruct Hhs; auto.
  - left. by destruct (same_handshake_window_handler id action data s)
      as [_ ->].
  - left. by destruct (same_handshake_window_callback id result s)
      as [_ ->].
  - left. by destruct (same_handshake_fire_timer p s) as [_ ->].
  - by left.
  - unfold run_microtask.
    destruct (microtasks s) as [| j jobs] eqn:Hq; [by left |].
    destruct (handshake_fields_run_job j (set_microtasks jobs s))
      as [_ ->].
    destruct j as [[cb d] [v | reason]]; destruct cb; try (by left).
    right. right. split; [done |]. by exists d, reason.
  - left. by destruct (same_handshake_settle_handler q o s) as [_ ->].
Qed.

Lemma connection_Connected s :
  connection s = Connected ↔ _connected s = true.
Proof.
  unfold connection. destruct (_connected s), (_connecting s); done.
Qed.

(** C5 (as the code has it). Once connected the channel stays
    connected, through any sequence of events. Apart from that, one
    event either leaves the connection state where it is or moves it
    forward, or it is the job that handles a failed handshake attempt,
    which takes the state from connecting back to unconnected. *)
Theorem connection_transitions s :
  (∀ tr, connection s = Connected → connection (run tr s) = Connected)
  ∧ (∀ e,
       (rank (connection s) ≤ rank (connection (step e s)))%nat
       ∨ (connection s = Connecting
          ∧ connection (step e s) = Unconnected
          ∧ e = EMicrotask
          ∧ ∃ d reason,
              head (microtasks s)
              = Some (mkReaction CbHandshakeFailed d, Rejected reason))).
Proof.
  split.
  - intros tr. revert s. induction tr as [| e tr IH]; intros s Hc; [done |].
    simpl. apply IH. apply connection_Connected.
    by apply connected_step, connection_Connected.
  - intros e.
    pose proof (connected_step e s) as Hmono.
    destruct (connecting_step e s) as [Hcg | [Hcg | (-> & d & reason & Hj)]];
      unfold connection in *.
    + rewrite Hcg. left.
      destruct (_connected s); [by rewrite Hmono |].
      destruct (_connected (step e s)), (_connecting s); simpl; lia.
    + rewrite Hcg. left.
      destruct (_connected s); [by rewrite Hmono |].
      destruct (_connected (step e s)), (_connecting s); simpl; lia.
    + destruct (_connected s) eqn:Hc; [left; by rewrite Hmono |].
      destruct (_connected (step EMicrotask s)) eqn:Hc';
        [left; destruct (_connecting s); simpl; lia |].
      destruct (_connecting s) eqn:Hcg.
      * right. split_and!; try done; [| by exists d, reason].
        simpl in *. unfold run_microtask in *.
        destruct (microtasks s) as [| j jobs]; [done |].
        simpl in Hj. injection Hj as ->.
        by destruct (handshake_fields_run_job
                       (mkReaction CbHandshakeFailed d, Rejected reason)
                       (set_microtasks jobs s)) as [_ ->].
      * left. simpl. lia.
Qed.

End ConnectionState.

Lemma connection_transitions_witness :
  let s := run [ESendHandshake; EReply first_token VUndefined;
                EMicrotask; EMicrotask] example_state in
  connection s = Connected
  ∧ connection (run [ESendMessage "echo" VNull None; EMicrotask;
                     ETick 3000; ETimer 3] s) = Connected.
Proof.
  intros s.
  assert (Hc : connection s = Connected) by (vm_compute; reflexivity).
  split; [exact Hc |].
  destruct (connection_transitions s) as [Hstay _].
  exact (Hstay _ Hc).
Defined.

(** C5 (as stated) fails: when the handshake of [example_state] times
    out, the state goes from connecting back to unconnected. *)
Lemma connection_regresses_on_timeout :
  let s := run [ESendHandshake; ETick 3000; ETimer 0; EMicrotask]
             example_state in
  connection s = Connecting
  ∧ connection (step EMicrotask s) = Unconnected
  ∧ ¬ (rank (connection s) ≤ rank (connection (step EMicrotask s)))%nat.
Proof. vm_compute. split_and!; [reflexivity | reflexivity | lia]. Qed.

(** * Outbound calls *)

Section OutboundCall.

Context {G : Type} `{IdGenerator G}.

Implicit Types (s : State G) (p q d w : nat) (o : Outcome).

Lemma promise_state_lt p st s :
  promise_state p s = Some st → (p < length (promises s))%nat.
Proof.
  unfold promise_state. intros Hp.
  apply fmap_Some in Hp as (pr & Hpr & _). by eapply lookup_lt_Some.
Qed.

Lemma before_fields e s :
  promises (before e s) = promises s
  ∧ _emitter (before e s) = _emitter s
  ∧ timers (before e s) = timers s
  ∧ clock (before e s) = clock s.
Proof. by destruct e. Qed.

(** A call just issued is waiting. *)
Lemma waiting_after_call action data timeout s :
  wf s → located s → 0 < timeout →
  waiting (length (promises s)) (call_token s) (clock s + timeout)
    (after_call action data timeout s).
Proof.
  intros Hwf [tgt Hloc] Ht.
  assert (Hfresh_t : ∀ t, t ∈ timers s → t_call t ≠ length (promises s)).
  { intros t Hin Heq. apply (wf_timers s Hwf) in Hin.
    apply kind_of_lt in Hin. lia. }
  assert (Hfresh_l : ∀ l, l ∈ _emitter s → l_call l ≠ length (promises s)).
  { intros l Hin Heq. apply (wf_listeners s Hwf) in Hin.
    apply kind_of_lt in Hin. lia. }
  unfold waiting. split_and!.
  - unfold promise_state. simpl. rewrite list_lookup_middle by done.
    by rewrite Hloc.
  - apply kind_of_after_call_new.
  - simpl. destruct (Z.ltb_spec 0 timeout); [| lia].
    apply elem_of_app. right. by left.
  - simpl. destruct (Z.ltb_spec 0 timeout); [| lia].
    intros t Hin Hp. apply elem_of_app in Hin as [Hin | Hin].
    + by destruct (Hfresh_t t Hin).
    + by apply list_elem_of_singleton in Hin.
  - simpl. apply elem_of_app. right. by left.
  - simpl. intros l Hin Hp. apply elem_of_app in Hin as [Hin | Hin].
    + by destruct (Hfresh_l l Hin).
    + by apply list_elem_of_singleton in Hin.
Qed.

(** A waiting call keeps waiting through every event that is neither a
    reply under its token nor its own timer coming due. *)
Lemma waiting_step p id deadline e s :
  wf s → waiting p id deadline s →
  (∀ v, e ≠ EReply id v) →
  (e = ETimer p → clock s < deadline) →
  waiting p id deadline (step e s).
Proof.
  intros Hwf (Hst & Hk & Ht & Htu & Hl & Hlu) Hreply Htimer.
  destruct (before_fields e s) as (Hbp & Hbe & Hbt & Hbc).
  pose proof (step_evolves e s) as Hev.
  assert (Hlt : (p < length (promises s))%nat)
    by (by eapply promise_state_lt).
  assert (Hnot : ¬ touched e s p).
  { destruct e; simpl; try (by intros []).
    - intros Hin. apply listeners_elem in Hin as (l & Hin & Hid & Hp).
      apply Hlu in Hin; [| done]. subst l. simpl in Hid.
      subst. by apply (Hreply result).
    - intros (-> & t & Ha & Hdue).
      apply armed_Some in Ha as [Hin Hp].
      apply Htu in Hin; [| done]. subst t. simpl in Hdue.
      specialize (Htimer eq_refl). lia.
    - intros (j & Hj & ->).
      assert (j.1 ∈ all_reactions s) as Hin.
      { unfold all_reactions. apply elem_of_app. left.
        destruct (microtasks s) as [| j' jobs]; [done |].
        injection Hj as ->. by left. }
      destruct (wf_targets s Hwf _ Hin) as (k & Hk' & Hdk).
      rewrite Hk in Hk'. injection Hk' as <-.
      by destruct (r_callback j.1).
    - intros [-> Hk']. congruence. }
  unfold promise_state, kind_of in *.
  destruct (promises s !! p) as [pr |] eqn:E; [| done].
  simpl in Hst, Hk. injection Hst as Hst. injection Hk as Hk.
  rewrite <- Hbp in E.
  destruct (ev_promises _ _ _ Hev p pr E) as (pr' & E' & Hk' & Hst').
  rewrite Hst in Hst'. destruct Hst' as [[Hst' _] | [? _]]; [| done].
  unfold waiting, promise_state, kind_of. rewrite E'. simpl.
  split_and!.
  - by rewrite Hst'.
  - by rewrite Hk', Hk.
  - rewrite <- Hbt in Ht.
    destruct (ev_timers_kept _ _ _ Hev _ Ht); done.
  - intros t Hin Hp.
    destruct (ev_timers_old _ _ _ Hev t Hin) as [Hin' | Hge].
    + rewrite Hbt in Hin'. by apply Htu.
    + rewrite Hbp in Hge. lia.
  - rewrite <- Hbe in Hl.
    destruct (ev_listeners_kept _ _ _ Hev _ Hl); done.
  - intros l Hin Hp.
    destruct (ev_listeners_old _ _ _ Hev l Hin) as [Hin' | Hge].
    + rewrite Hbe in Hin'. by apply Hlu.
    + rewrite Hbp in Hge. lia.
Qed.

(** Before the deadline the timer does nothing. *)
Lemma waiting_timer_early p id deadline s :
  waiting p id deadline s → clock s < deadline →
  step (ETimer p) s = s.
Proof.
  intros (_ & _ & Ht & Htu & _) Hcl. simpl. unfold fire_timer.
  destruct (armed p s) as [t |] eqn:Ea; [| done].
  apply armed_Some in Ea as [Hin Hp]. apply Htu in Hin; [| done].
  subst t. simpl. destruct (Z.leb_spec deadline (clock s)); [lia | done].
Qed.

(** At or after the deadline the timer rejects the promise with the
    timeout message and unregisters the listener. *)
Lemma waiting_timer_due p id deadline s :
  waiting p id deadline s → deadline ≤ clock s →
  timed_out p (step (ETimer p) s).
Proof.
  intros (Hst & _ & Ht & Htu & _ & Hlu) Hcl. simpl. unfold fire_timer.
  destruct (armed p s) as [t |] eqn:Ea.
  2:{ unfold armed in Ea. apply list_elem_of_In in Ht.
      apply (find_none _ _ Ea) in Ht. simpl in Ht.
      by rewrite Nat.eqb_refl in Ht. }
  apply armed_Some in Ea as [Hin Hp]. apply Htu in Hin; [| done].
  subst t. simpl. destruct (Z.leb_spec deadline (clock s)); [| lia].
  unfold rejectTimeout, timed_out. split_and!.
  - by apply promise_state_settle_pending.
  - rewrite settle_unfold. simpl. intros l Hin Hp'.
    apply list_elem_of_filter in Hin as [Hne Hin].
    rewrite (Hlu l Hin Hp') in Hne. unfold listener_is in Hne. simpl in Hne.
    by rewrite String.eqb_refl, Nat.eqb_refl in Hne.
  - rewrite settle_unfold. simpl. intros t Hin Hp'.
    apply list_elem_of_filter in Hin as [Hne Hin].
    rewrite Hp', Nat.eqb_refl in Hne. done.
Qed.

(** A timed-out call stays as it is, whatever happens: replies under its
    token no longer reach it. *)
Lemma timed_out_step p e s : timed_out p s → timed_out p (step e s).
Proof.
  intros (Hst & Hl & Ht).
  destruct (before_fields e s) as (Hbp & Hbe & Hbt & Hbc).
  pose proof (step_evolves e s) as Hev.
  assert (Hlt : (p < length (promises s))%nat)
    by (by eapply promise_state_lt).
  split_and!.
  - by apply promise_state_step.
  - intros l Hin.
    destruct (ev_listeners_old _ _ _ Hev l Hin) as [Hin' | Hge].
    + rewrite Hbe in Hin'. by apply Hl.
    + rewrite Hbp in Hge. lia.
  - intros t Hin.
    destruct (ev_timers_old _ _ _ Hev t Hin) as [Hin' | Hge].
    + rewrite Hbt in Hin'. by apply Ht.
    + rewrite Hbp in Hge. lia.
Qed.

Lemma timed_out_run p tr s : timed_out p s → timed_out p (run tr s).
Proof.
  revert s. induction tr as [| e tr IH]; intros s Hs; [done |].
  simpl. by apply IH, timed_out_step.
Qed.

Lemma timed_out_not_listening p id s : timed_out p s → p ∉ listeners id s.
Proof.
  intros (_ & Hl & _) Hin.
  apply listeners_elem in Hin as (l & Hin & _ & Hp). by apply (Hl l).
Qed.

Lemma answered_step p v e s : answered p v s → answered p v (step e s).
Proof.
  intros (Hst & Ht).
  destruct (before_fields e s) as (Hbp & Hbe & Hbt & Hbc).
  pose proof (step_evolves e s) as Hev.
  assert (Hlt : (p < length (promises s))%nat)
    by (by eapply promise_state_lt).
  split.
  - by apply promise_state_step.
  - intros t Hin.
    destruct (ev_timers_old _ _ _ Hev t Hin) as [Hin' | Hge].
    + rewrite Hbt in Hin'. by apply Ht.
    + rewrite Hbp in Hge. lia.
Qed.

Lemma answered_run p v tr s : answered p v s → answered p v (run tr s).
Proof.
  revert s. induction tr as [| e tr IH]; intros s Hs; [done |].
  simpl. by apply IH, answered_step.
Qed.

Lemma answered_callbackReceived p v s :
  promise_state p s = Some Pending →
  answered p v (callbackReceived p v s).
Proof.
  intros Hst. unfold callbackReceived. split.
  - by apply promise_state_settle_pending.
  - rewrite settle_unfold. simpl. intros t Hin Hp.
    apply list_elem_of_filter in Hin as [Hne Hin].
    by rewrite Hp, Nat.eqb_refl in Hne.
Qed.

Lemma promise_state_callbackReceived_ne p p' v s :
  p ≠ p' → promise_state p (callbackReceived p' v s) = promise_state p s.
Proof.
  intros Hne. unfold callbackReceived, promise_state.
  by rewrite promise_state_settle_ne.
Qed.

Lemma answered_callbackReceived_kept p p' v v' s :
  answered p v s → answered p v (callbackReceived p' v' s).
Proof.
  intros (Hst & Ht). unfold callbackReceived. split.
  - by apply promise_state_settled_stable.
  - rewrite settle_unfold. simpl. intros t Hin.
    apply list_elem_of_filter in Hin as [_ Hin]. by apply Ht.
Qed.

(** A reply under the token of a waiting call fulfils its promise and
    disarms its timer. *)
Lemma waiting_reply p id deadline v s :
  waiting p id deadline s → answered p v (step (EReply id v) s).
Proof.
  intros (Hst & _ & _ & _ & Hl & _). simpl. unfold window_callback.
  assert (Hin : p ∈ listeners id s).
  { unfold listeners. apply list_elem_of_fmap.
    exists (mkListener id p). split; [done |].
    apply list_elem_of_filter. split; [| done].
    simpl. apply String.eqb_refl. }
  clear Hl. revert Hin Hst. generalize (listeners id s) as ps.
  intros ps. revert s. induction ps as [| p' ps IH]; intros s Hin Hst.
  { by apply not_elem_of_nil in Hin. }
  simpl. destruct (decide (p = p')) as [<- | Hne].
  - assert (Hans := answered_callbackReceived p v s Hst).
    clear IH Hin Hst. revert Hans.
    generalize (callbackReceived p v s) as s1.
    induction ps as [| p'' ps IH]; intros s1 Hans; [done |].
    simpl. by apply IH, answered_callbackReceived_kept.
  - apply elem_of_cons in Hin as [-> | Hin]; [done |].
    apply IH; [done |].
    by rewrite promise_state_callbackReceived_ne.
Qed.

End OutboundCall.

Section OutboundCallTraces.

Context {G : Type} `{IdGenerator G}.

Implicit Types (s : State G) (p q d w : nat) (o : Outcome).

Lemma call_status_step p id deadline e s :
  wf s →
  waiting p id deadline s ∨ timed_out p s ∨ (∃ v, answered p v s) →
  waiting p id deadline (step e s) ∨ timed_out p (step e s)
  ∨ (∃ v, answered p v (step e s)).
Proof.
  intros Hwf [Hw | [Ht | [v Ha]]].
  - destruct e as [| | | id' v | p' | | |].
    1-3, 6-8: left; by apply waiting_step.
    + destruct (decide (id' = id)) as [-> | Hne].
      * right. right. exists v. by eapply waiting_reply.
      * left. apply waiting_step; try done. congruence.
    + destruct (decide (p' = p)) as [-> | Hne].
      * destruct (Z.lt_ge_cases (clock s) deadline).
        -- left. by rewrite (waiting_timer_early p id deadline).
        -- right. left. by eapply waiting_timer_due.
      * left. apply waiting_step; try done. congruence.
  - right. left. by apply timed_out_step.
  - right. right. exists v. by apply answered_step.
Qed.

Lemma unanswered_step p id deadline e s :
  wf s → (∀ v, e ≠ EReply id v) →
  waiting p id deadline s ∨ timed_out p s →
  waiting p id deadline (step e s) ∨ timed_out p (step e s).
Proof.
  intros Hwf He [Hw | Ht]; [| right; by apply timed_out_step].
  destruct e as [| | | id' v | p' | | |].
  1-4, 6-8: left; by apply waiting_step.
  destruct (decide (p' = p)) as [-> | Hne].
  - destruct (Z.lt_ge_cases (clock s) deadline).
    + left. by rewrite (waiting_timer_early p id deadline).
    + right. by eapply waiting_timer_due.
  - left. apply waiting_step; try done. congruence.
Qed.

Lemma call_status_run p id deadline tr s :
  wf s →
  waiting p id deadline s ∨ timed_out p s ∨ (∃ v, answered p v s) →
  waiting p id deadline (run tr s) ∨ timed_out p (run tr s)
  ∨ (∃ v, answered p v (run tr s)).
Proof.
  revert s. induction tr as [| e tr IH]; intros s Hwf Hs; [done |].
  simpl. apply IH; [by apply wf_step |]. by apply call_status_step.
Qed.

Lemma unanswered_run p id deadline tr s :
  wf s → Forall (λ e, ∀ v, e ≠ EReply id v) tr →
  waiting p id deadline s ∨ timed_out p s →
  waiting p id deadline (run tr s) ∨ timed_out p (run tr s).
Proof.
  revert s. induction tr as [| e tr IH]; intros s Hwf Htr Hs; [done |].
  apply Forall_cons in Htr as [He Htr]. simpl.
  apply IH; [by apply wf_step | done |]. by apply unanswered_step.
Qed.

(** C1. A call issued by [_sendMessage] with a positive timeout, on a
    channel whose transport was located (the handshake call, or a message
    once connected), returns a promise that is waiting: pending, with its
    timer armed for [clock + timeout] and its listener registered under
    the call's token. Through every sequence of events the call is then
    waiting, timed out or answered; without a reply under its token it is
    never answered; while it waits its timer does nothing before the
    deadline and from the deadline on rejects the promise with the
    acknowledgment-timeout message and unregisters the listener, and a
    reply under its token fulfils the promise and disarms the timer; once
    timed out it stays timed out with no listener of its own, so later
    replies do not reach it; once answered it stays answered with no timer
    of its own, so it is never rejected. *)
Theorem outbound_call_settles_once s action data timeout :
  wf s → located s → 0 < timeout →
  (action = HANDSHAKE_ACTION ∨ _connected s = true) →
  let p := length (promises s) in
  let id := call_token s in
  let deadline := clock s + timeout in
  let s1 := after_call action data timeout s in
  _sendMessage action data timeout s = (p, s1)
  ∧ waiting p id deadline s1
  ∧ ∀ tr,
      let s2 := run tr s1 in
      (waiting p id deadline s2 ∨ timed_out p s2 ∨ ∃ v, answered p v s2)
      ∧ (Forall (λ e, ∀ v, e ≠ EReply id v) tr →
         waiting p id deadline s2 ∨ timed_out p s2)
      ∧ (waiting p id deadline s2 →
         (clock s2 < deadline → step (ETimer p) s2 = s2)
         ∧ (deadline ≤ clock s2 → timed_out p (step (ETimer p) s2))
         ∧ (∀ v, answered p v (step (EReply id v) s2)))
      ∧ (timed_out p s2 →
         ∀ tr', timed_out p (run tr' s2)
                ∧ ∀ id', p ∉ listeners id' (run tr' s2))
      ∧ (∀ v, answered p v s2 → ∀ tr', answered p v (run tr' s2)).
Proof.
  intros Hwf Hloc Ht Hissued p id deadline s1.
  assert (Hwf1 : wf s1).
  { apply wf_after_call; [done |]. intros Hne _.
    by destruct Hissued as [-> | Hc]. }
  assert (Hw1 : waiting p id deadline s1)
    by (by apply waiting_after_call).
  split_and!; [apply _sendMessage_unfold | done |].
  intros tr s2. split_and!.
  - apply call_status_run; auto.
  - intros Htr. apply unanswered_run; auto.
  - intros Hw2. split_and!.
    + by apply (waiting_timer_early p id deadline).
    + by apply (waiting_timer_due p id deadline).
    + intros v. by eapply waiting_reply.
  - intros Ht2 tr'. split.
    + by apply timed_out_run.
    + intros id'. by apply timed_out_not_listening, timed_out_run.
  - intros v Ha tr'. by apply answered_run.
Qed.

End OutboundCallTraces.

Lemma outbound_call_settles_once_witness :
  let s := example_state in
  let s1 := after_call HANDSHAKE_ACTION (VStr "h") 3000 s in
  wf s ∧ located s ∧ 0 < 3000
  ∧ (HANDSHAKE_ACTION = HANDSHAKE_ACTION ∨ _connected s = true)
  ∧ _sendMessage HANDSHAKE_ACTION (VStr "h") 3000 s = (0%nat, s1)
  ∧ timed_out 0
      (run [EReply first_token VNull]
         (step (ETimer 0) (run [ETick 3000] s1))).
Proof.
  intros s s1.
  assert (Hwf : wf s)
    by (exact (wf_constructor _ _ _ constructed_by_constructor)).
  assert (Hloc : located s) by (by eexists).
  assert (Ht : 0 < 3000) by lia.
  assert (Hi : HANDSHAKE_ACTION = HANDSHAKE_ACTION ∨ _connected s = true)
    by (by left).
  destruct (outbound_call_settles_once s HANDSHAKE_ACTION (VStr "h") 3000
              Hwf Hloc Ht Hi) as (Hcall & _ & Htraces).
  split_and!; [exact Hwf | exact Hloc | exact Ht | exact Hi | exact Hcall |].
  destruct (Htraces [ETick 3000]) as (_ & Hno & Hwait & _).
  destruct Hno as [Hw | Hto].
  - repeat constructor; discriminate.
  - destruct (Hwait Hw) as (_ & Hdue & _).
    assert (Hto : timed_out 0 (step (ETimer 0) (run [ETick 3000] s1))).
    { apply Hdue. vm_compute. discriminate. }
    by apply timed_out_run.
  - destruct Hto as [Hto _]. vm_compute in Hto. discriminate.
Defined.

(** * Before the first handshake *)

Section Unstarted.

Context {G : Type} `{IdGenerator G}.

Implicit Types (s : State G) (p q d w : nat) (o : Outcome).

Lemma connected_callbackReceived p result s :
  _connected (callbackReceived p result s) = _connected s.
Proof. unfold callbackReceived. by rewrite settle_unfold. Qed.

Lemma connected_window_callback id result s :
  _connected (window_callback id result s) = _connected s.
Proof.
  unfold window_callback. generalize (listeners id s) as ps.
  intros ps. revert s. induction ps as [| p ps IH]; intros s; [done |].
  simpl. by rewrite IH, connected_callbackReceived.
Qed.

Lemma connected_fire_timer p s : _connected (fire_timer p s) = _connected s.
Proof.
  unfold fire_timer. destruct (armed p s) as [t |]; [| done].
  destruct (t_deadline t <=? clock s); [| done].
  unfold rejectTimeout. by rewrite settle_unfold.
Qed.

Lemma connected_settle_handler q o s :
  _connected (settle_handler q o s) = _connected s.
Proof.
  unfold settle_handler. destruct (promises s !! q) as [pr |]; [| done].
  destruct (kind pr); try done; by rewrite settle_unfold.
Qed.

Lemma connected_window_handler id action data s :
  _connected (window_handler id action data s).2 = _connected s.
Proof.
  unfold window_handler.
  destruct (_handleMessage action data s) as [v | err |]; [| done |].
  - unfold _sendMessageCallback, postMessage.
    by destruct (parent (cfg s)).
  - change (_connected
              (then_ (length (promises s)) (CbReply id) KReplied
                 (new_promise KHandler Pending s).2).2 = _connected s).
    by destruct (then_frame (length (promises s)) (CbReply id) KReplied
                   (new_promise KHandler Pending s).2)
      as (_ & _ & _ & -> & _).
Qed.

(** Only the success handler of a handshake attempt sets [_connected]. *)
Lemma connected_run_job j s :
  _connected (run_job j s)
  = match j with
    | (mkReaction CbConnected _, Fulfilled _) => true
    | _ => _connected s
    end.
Proof.
  destruct j as [[cb d] o]. simpl.
  destruct cb, o as [v | reason];
    rewrite ?_sendMessage_unfold; unfold adopt, _sendMessageCallback,
      postMessage;
    try destruct (parent (cfg s));
    by rewrite ?settle_unfold, ?subscribe_unfold.
Qed.

Lemma all_reactions_callbackReceived p result s :
  all_reactions (callbackReceived p result s) ≡ₚ all_reactions s.
Proof. unfold callbackReceived. by rewrite all_reactions_settle. Qed.

Lemma all_reactions_window_callback id result s :
  all_reactions (window_callback id result s) ≡ₚ all_reactions s.
Proof.
  unfold window_callback. generalize (listeners id s) as ps.
  intros ps. revert s. induction ps as [| p ps IH]; intros s; [done |].
  simpl. by rewrite IH, all_reactions_callbackReceived.
Qed.

Lemma all_reactions_fire_timer p s :
  all_reactions (fire_timer p s) ≡ₚ all_reactions s.
Proof.
  unfold fire_timer. destruct (armed p s) as [t |]; [| done].
  destruct (t_deadline t <=? clock s); [| done].
  unfold rejectTimeout. by rewrite all_reactions_settle.
Qed.

Lemma all_reactions_settle_handler q o s :
  all_reactions (settle_handler q o s) ≡ₚ all_reactions s.
Proof.
  unfold settle_handler. destruct (promises s !! q) as [pr |]; [| done].
  destruct (kind pr); try done; by rewrite all_reactions_settle.
Qed.

Lemma all_reactions_subscribe_elem q r r' s :
  r' ∈ all_reactions (subscribe q r s) → r' = r ∨ r' ∈ all_reactions s.
Proof.
  destruct (promises s !! q) as [pr |] eqn:E.
  - rewrite all_reactions_subscribe by (by eexists).
    intros Hin. by apply elem_of_cons in Hin.
  - rewrite subscribe_unallocated by done. by right.
Qed.

Lemma all_reactions_then_elem p cb k r s :
  r ∈ all_reactions (then_ p cb k s).2 →
  r_callback r = cb ∨ r ∈ all_reactions s.
Proof.
  rewrite then_unfold. intros Hin.
  apply all_reactions_subscribe_elem in Hin as [-> | Hin]; [by left |].
  right. by rewrite all_reactions_new_promise in Hin.
Qed.

Lemma all_reactions_window_handler_elem id action data r s :
  r ∈ all_reactions (window_handler id action data s).2 →
  r_callback r = CbReply id ∨ r ∈ all_reactions s.
Proof.
  unfold window_handler.
  destruct (_handleMessage action data s) as [v | err |]; [| by right |].
  - unfold _sendMessageCallback, postMessage.
    destruct (parent (cfg s)); by right.
  - change (r ∈ all_reactions
              (then_ (length (promises s)) (CbReply id) KReplied
                 (new_promise KHandler Pending s).2).2 →
            r_callback r = CbReply id ∨ r ∈ all_reactions s).
    intros Hin. apply all_reactions_then_elem in Hin as [? | Hin]; [by left |].
    right. by rewrite all_reactions_new_promise in Hin.
Qed.

Lemma all_reactions_adopt_elem d q r s :
  r ∈ all_reactions (adopt d q s) →
  r_callback r = CbThenable q ∨ r ∈ all_reactions s.
Proof.
  unfold all_reactions, adopt. cbn [microtasks promises set_microtasks].
  rewrite fmap_app, !elem_of_app. cbn [fmap list_fmap].
  intros [[Hin | Hin] | Hin]; [right; by left | | right; by right].
  apply list_elem_of_singleton in Hin as ->. by left.
Qed.

Lemma all_reactions_run_job_elem j r s :
  r ∈ all_reactions (run_job j s) →
  (r_callback r = CbAdopt ∨ ∃ q, r_callback r = CbThenable q)
  ∨ r ∈ all_reactions s.
Proof.
  destruct j as [[cb d] o]. simpl.
  assert (Hpass : ∀ o' s', r ∈ all_reactions (settle d o' s') →
                           r ∈ all_reactions s')
    by (intros o' s'; by rewrite all_reactions_settle).
  assert (Hsub : ∀ q, r ∈ all_reactions (subscribe q (mkReaction CbAdopt d) s)
                      → (r_callback r = CbAdopt
                         ∨ ∃ q, r_callback r = CbThenable q)
                        ∨ r ∈ all_reactions s).
  { intros q Hin.
    apply all_reactions_subscribe_elem in Hin as [-> | Hin]; auto. }
  destruct cb, o as [v | reason]; try (intros Hin; right; by eapply Hpass);
    try apply Hsub.
  - intros Hin. apply Hpass in Hin. by right.
  - change (r ∈ all_reactions
              (adopt d (length (promises s))
                 (new_promise KRejection
                    (Settled (Rejected TIMEOUT_HANDSHAKE))
                    (set_connecting false s)).2) →
            (r_callback r = CbAdopt ∨ ∃ q, r_callback r = CbThenable q)
            ∨ r ∈ all_reactions s).
    intros Hin.
    apply all_reactions_adopt_elem in Hin as [Hcb | Hin]; [left; eauto |].
    right. by rewrite all_reactions_new_promise in Hin.
  - rewrite _sendMessage_unfold. intros Hin.
    apply all_reactions_adopt_elem in Hin as [Hcb | Hin]; [left; eauto |].
    right. by rewrite all_reactions_after_call in Hin.
  - unfold _sendMessageCallback, postMessage.
    destruct (parent (cfg s)); intros Hin; apply Hpass in Hin; by right.
Qed.

Lemma sendMessage_unfold action data timeout s :
  sendMessage action data timeout s
  = send_after
      (CbSend action data (default (_messageTimeout (cfg s)) timeout))
      (match _whenReady s with
       | None => sendHandshake s
       | Some _ => (Return None, s)
       end).
Proof. reflexivity. Qed.

Lemma send_then_eq w cb s :
  send_then w cb s = (Return (length (promises s)), (then_ w cb KMessage s).2).
Proof. reflexivity. Qed.

Lemma sendMessage_unstarted action data timeout s :
  _whenReady s = None → _connected s = false → _connecting s = false →
  sendMessage action data timeout s
  = (Return (length (promises (after_handshake s))),
     (then_ (handshake_promise s)
        (CbSend action data (default (_messageTimeout (cfg s)) timeout))
        KMessage (after_handshake s)).2).
Proof.
  intros Hw Hc Hcg. rewrite sendMessage_unfold, Hw.
  rewrite sendHandshake_new by done. unfold send_after.
  destruct (after_handshake_fields s) as (_ & _ & -> & _).
  apply send_then_eq.
Qed.

Lemma whenReady_kept e s :
  is_Some (_whenReady s) → is_Some (_whenReady (step e s)).
Proof.
  intros [w Hw]. destruct e;
    try (exists w; apply whenReady_step; [discriminate | done]).
  simpl.
  destruct (_connected s) eqn:Hc;
    [rewrite sendHandshake_connected by done; by exists w |].
  destruct (_connecting s) eqn:Hcg;
    [rewrite sendHandshake_connecting by done; by exists w |].
  rewrite sendHandshake_new by done. by eexists.
Qed.

Lemma unstarted_intro s s' :
  unstarted s →
  _connecting s' = false → _connected s' = false →
  (∀ r, r ∈ all_reactions s' →
     r ∈ all_reactions s ∨ r_callback r ≠ CbConnected) →
  unstarted s'.
Proof.
  intros (_ & _ & Hr) Hcg Hc Hsub. split_and!; [done | done |].
  intros r Hin. destruct (Hsub r Hin); auto.
Qed.

Lemma unstarted_window_handler id action data s :
  unstarted s → unstarted (window_handler id action data s).2.
Proof.
  intros Hu. pose proof Hu as (Hcg & Hc & _).
  destruct (same_handshake_window_handler id action data s) as [_ Hcg'].
  apply (unstarted_intro s); [done | congruence | |].
  - by rewrite connected_window_handler.
  - intros r Hin.
    apply all_reactions_window_handler_elem in Hin as [Hcb | Hin];
      [right; by rewrite Hcb | by left].
Qed.

Lemma unstarted_window_callback id result s :
  unstarted s → unstarted (window_callback id result s).
Proof.
  intros Hu. pose proof Hu as (Hcg & Hc & _).
  destruct (same_handshake_window_callback id result s) as [_ Hcg'].
  apply (unstarted_intro s); [done | congruence | |].
  - by rewrite connected_window_callback.
  - intros r Hin. left. by rewrite all_reactions_window_callback in Hin.
Qed.

Lemma unstarted_fire_timer p s : unstarted s → unstarted (fire_timer p s).
Proof.
  intros Hu. pose proof Hu as (Hcg & Hc & _).
  destruct (same_handshake_fire_timer p s) as [_ Hcg'].
  apply (unstarted_intro s); [done | congruence | |].
  - by rewrite connected_fire_timer.
  - intros r Hin. left. by rewrite all_reactions_fire_timer in Hin.
Qed.

Lemma unstarted_settle_handler q o s :
  unstarted s → unstarted (settle_handler q o s).
Proof.
  intros Hu. pose proof Hu as (Hcg & Hc & _).
  destruct (same_handshake_settle_handler q o s) as [_ Hcg'].
  apply (unstarted_intro s); [done | congruence | |].
  - by rewrite connected_settle_handler.
  - intros r Hin. left. by rewrite all_reactions_settle_handler in Hin.
Qed.

Lemma unstarted_run_microtask s : unstarted s → unstarted (run_microtask s).
Proof.
  intros Hu. pose proof Hu as (Hcg & Hc & Hr).
  unfold run_microtask.
  destruct (microtasks s) as [| j jobs] eqn:Hq; [done |].
  assert (Hsub : ∀ r, r ∈ all_reactions (set_microtasks jobs s) →
                      r ∈ all_reactions s).
  { intros r. unfold all_reactions. rewrite Hq.
    change (microtasks (set_microtasks jobs s)) with jobs.
    change (promises (set_microtasks jobs s)) with (promises s).
    rewrite !elem_of_app, fmap_cons, elem_of_cons. tauto. }
  assert (Hj : r_callback j.1 ≠ CbConnected).
  { apply Hr. unfold all_reactions. rewrite Hq.
    apply elem_of_app. left. by left. }
  destruct (handshake_fields_run_job j (set_microtasks jobs s))
    as [_ Hcg'].
  pose proof (connected_run_job j (set_microtasks jobs s)) as Hc'.
  apply (unstarted_intro s); [done | | |].
  - rewrite Hcg'. destruct j as [[cb d] [v | reason]]; by destruct cb.
  - rewrite Hc'. destruct j as [[cb d] [v | reason]]; by destruct cb.
  - intros r Hin.
    apply all_reactions_run_job_elem in Hin as [[Hcb | [q Hcb]] | Hin];
      [right; by rewrite Hcb | right; by rewrite Hcb
      | left; by apply Hsub].
Qed.

(** While [_whenReady] is unset no handshake was initiated. *)
Lemma unstarted_step e s :
  (_whenReady s = None → unstarted s) →
  _whenReady (step e s) = None → unstarted (step e s).
Proof.
  intros Hok Hnone.
  assert (Hw : _whenReady s = None).
  { destruct (_whenReady s) as [w |] eqn:Ew; [| done].
    destruct (whenReady_kept e s) as [w' Hw']; [by eexists |]. congruence. }
  pose proof (Hok Hw) as Hu. pose proof Hu as (Hcg & Hc & Hr).
  destruct (after_handshake_fields s) as (_ & _ & Hw' & _).
  destruct e; unfold step in *.
  - rewrite sendHandshake_new in Hnone by done. cbn [snd] in Hnone.
    congruence.
  - rewrite (sendMessage_unstarted _ _ _ _ Hw Hc Hcg) in Hnone.
    rewrite pair_snd in Hnone.
    destruct (then_frame (handshake_promise s)
                (CbSend action data
                   (default (_messageTimeout (cfg s)) timeout))
                KMessage (after_handshake s))
      as (_ & _ & _ & _ & Hwr & _).
    rewrite Hwr, Hw' in Hnone. discriminate.
  - by apply unstarted_window_handler.
  - by apply unstarted_window_callback.
  - by apply unstarted_fire_timer.
  - exact Hu.
  - by apply unstarted_run_microtask.
  - by apply unstarted_settle_handler.
Qed.

Lemma reachable_unstarted s :
  reachable s → _whenReady s = None → unstarted s.
Proof.
  induction 1 as [opts win s Hnew | e s _ IH].
  - unfold constructor in Hnew.
    destruct (messageHandler _ win) as [target | err]; [| done].
    destruct (o_autoHandshake opts).
    + rewrite sendHandshake_new in Hnew by done.
      injection Hnew as <-. intros Hnone.
      match type of Hnone with
      | _whenReady (after_handshake ?s0) = None =>
          destruct (after_handshake_fields s0) as (_ & _ & Hw' & _)
      end.
      congruence.
    + injection Hnew as <-. intros _. split_and!; [done | done |].
      intros r Hin. by apply not_elem_of_nil in Hin.
  - by apply unstarted_step.
Qed.

End Unstarted.

(** * Further properties of the code *)

(** ** The timestamp generator over many calls *)

Lemma string_app_inj_len (s1 s2 t1 t2 : string) :
  s1 +:+ t1 = s2 +:+ t2 → String.length t1 = String.length t2 →
  s1 = s2 ∧ t1 = t2.
Proof.
  revert s2. induction s1 as [| c s1 IH]; intros [| d s2] Heq Hlen.
  - done.
  - apply (f_equal String.length) in Heq.
    rewrite !string_length_app in Heq. simpl in Heq. lia.
  - apply (f_equal String.length) in Heq.
    rewrite !string_length_app in Heq. simpl in Heq. lia.
  - simpl in Heq. injection Heq as -> Heq.
    destruct (IH s2 Heq Hlen) as [-> ->]. done.
Qed.

(** Every later token is the rendering of a pair (counter, reading) that
    comes after the generator's current pair. *)
Lemma tokens_later readings g t0 id :
  TimestampId.now g = Some t0 →
  StronglySorted Z.le (t0 :: readings) →
  (TimestampId.inc g + N.of_nat (length readings) < 2 ^ 53)%N →
  id ∈ tokens readings g →
  ∃ i t, id = pretty i +:+ pretty t ∧ t ∈ readings
         ∧ (t0 < t ∨ (t = t0 ∧ (TimestampId.inc g < i)%N)).
Proof.
  revert g t0.
  induction readings as [| t1 rest IH]; intros g t0 Hnow Hs Hsafe Hin.
  - by apply elem_of_nil in Hin.
  - apply StronglySorted_inv in Hs as [Hs Hle].
    apply Forall_cons in Hle as [Hle1 Hle].
    simpl in Hin, Hsafe.
    unfold TimestampId.next in Hin. rewrite Hnow in Hin.
    cbn [TimestampId.strict_eq] in Hin.
    set (i1 := if Z.eqb t0 t1 then TimestampId.incr (TimestampId.inc g)
               else 0%N) in *.
    assert (Hi1 : (t0 < t1 ∧ i1 = 0%N)
                  ∨ (t1 = t0 ∧ i1 = (TimestampId.inc g + 1)%N)).
    { unfold i1, TimestampId.incr.
      destruct (Z.eqb_spec t0 t1) as [-> | Hne]; [right | left; lia].
      split; [done |].
      destruct (N.ltb_spec (TimestampId.inc g) (2 ^ 53)); lia. }
    apply elem_of_cons in Hin as [-> | Hin].
    + exists i1, t1. split; [done |]. split; [by left |].
      destruct Hi1 as [[? _] | [-> ->]]; [by left | right]. split; [done | lia].
    + apply (IH _ t1) in Hin; [| done | done |].
      * destruct Hin as (i & t & -> & Ht & Hlater).
        exists i, t. split; [done |]. split; [by right |].
        simpl in Hlater.
        destruct Hlater as [Hlt | [-> Hlt]]; [left; lia |].
        destruct Hi1 as [[? _] | [-> ->]]; [by left | right].
        split; [done | lia].
      * simpl. destruct Hi1 as [[_ ->] | [_ ->]]; lia.
Qed.

(** X1. With a clock that never goes back and whose readings all have the
    same number of decimal digits (as the millisecond timestamps of
    [Date.now()] have from 2001 to 2286), the tokens of any number of
    successive [next()] calls are pairwise different, from whatever state
    the generator starts in, as long as its counter stays in the range
    where JavaScript numbers count by ones. *)
Theorem tokens_distinct readings g k :
  Sorted Z.le readings →
  Forall (λ t, String.length (pretty t) = k) readings →
  (TimestampId.inc g + N.of_nat (length readings) < 2 ^ 53)%N →
  NoDup (tokens readings g).
Proof.
  intros Hs. apply Sorted_StronglySorted in Hs; [| intros x y z; lia].
  revert g. induction Hs as [| t1 rest Hs IH Hle]; intros g Hk Hsafe.
  - constructor.
  - apply Forall_cons in Hk as [Hk1 Hk]. simpl in Hsafe.
    assert (Hinc : (TimestampId.inc (TimestampId.next t1 g).2
                    ≤ TimestampId.inc g + 1)%N).
    { simpl. unfold TimestampId.incr. repeat case_match; lia. }
    cbn [tokens].
    destruct (TimestampId.next t1 g) as [id1 g1] eqn:Enext.
    assert (Hnow : TimestampId.now g1 = Some t1).
    { unfold TimestampId.next in Enext. by injection Enext as _ <-. }
    assert (Hid : id1 = pretty (TimestampId.inc g1) +:+ pretty t1).
    { unfold TimestampId.next in Enext. by injection Enext as <- <-. }
    simpl in Hinc.
    constructor.
    + intros Hin.
      apply (tokens_later rest g1 t1) in Hin; [| done | by constructor | lia].
      destruct Hin as (i & t & Heq & Ht & Hlater).
      rewrite Hid in Heq.
      apply string_app_inj_len in Heq as [Hi Ht'].
      * apply pretty_N_inj in Hi. apply pretty_Z_inj in Ht'. lia.
      * rewrite Hk1. symmetry. by apply (proj1 (Forall_forall _ _) Hk).
    + apply IH; [done | lia].
Qed.

Lemma tokens_distinct_witness :
  Sorted Z.le [1700000000000; 1700000000000; 1700000000001]
  ∧ NoDup (tokens [1700000000000; 1700000000000; 1700000000001]
             TimestampId.timestampIdGenerator).
Proof.
  assert (Hs : Sorted Z.le [1700000000000; 1700000000000; 1700000000001]).
  { repeat constructor; lia. }
  split; [done |].
  apply (tokens_distinct _ _ 13 Hs).
  - repeat constructor.
  - simpl. lia.
Defined.

(** The hypothesis on the digits is needed: the token is the plain
    concatenation of counter and reading, so the thirteenth call at
    reading 3 and the second call at reading 23 both give "123". *)
Example tokens_collide_when_digits_differ :
  let ids := tokens (replicate 13 3 ++ [23; 23])
               TimestampId.timestampIdGenerator in
  ids !! 12%nat = Some "123" ∧ ids !! 14%nat = Some "123".
Proof. vm_compute. split; reflexivity. Qed.

Lemma tokens_same_reading n t g :
  TimestampId.now g = Some t →
  (TimestampId.inc g + N.of_nat n < 2 ^ 53)%N →
  tokens (replicate n t) g
  = (λ i, pretty (TimestampId.inc g + 1 + N.of_nat i)%N +:+ pretty t)
      <$> seq 0 n.
Proof.
  revert g. induction n as [| n IH]; intros g Hnow Hsafe; [done |].
  cbn [replicate tokens]. unfold TimestampId.next. rewrite Hnow.
  cbn [TimestampId.strict_eq]. rewrite Z.eqb_refl.
  unfold TimestampId.incr.
  destruct (N.ltb_spec (TimestampId.inc g) (2 ^ 53)) as [_ | ?]; [| lia].
  rewrite IH; [| done | cbn; lia].
  cbn [seq fmap list_fmap TimestampId.inc]. f_equal.
  - by rewrite N.add_0_r.
  - rewrite <- fmap_S_seq, <- list_fmap_compose.
    apply list_fmap_ext. intros _ i _. cbn. do 2 f_equal. lia.
Qed.

(** X2. Calls within one millisecond are numbered: [n] successive
    [next()] calls of a new generator that all read the clock value [t]
    return the tokens "0t", "1t", ..., the call's number followed by the
    reading. *)
Theorem tokens_burst n t :
  (N.of_nat n < 2 ^ 53)%N →
  tokens (replicate n t) TimestampId.timestampIdGenerator
  = (λ i, pretty (N.of_nat i) +:+ pretty t) <$> seq 0 n.
Proof.
  intros Hn. destruct n as [| n]; [done |].
  cbn [replicate tokens]. unfold TimestampId.next.
  cbn [TimestampId.now TimestampId.timestampIdGenerator
       TimestampId.strict_eq].
  rewrite tokens_same_reading; [| done | cbn; lia].
  cbn [seq fmap list_fmap TimestampId.inc]. f_equal.
  rewrite <- fmap_S_seq, <- list_fmap_compose.
  apply list_fmap_ext. intros _ i _. cbn. do 2 f_equal. lia.
Qed.

Lemma tokens_burst_witness :
  (N.of_nat 3 < 2 ^ 53)%N
  ∧ tokens [1700000000000; 1700000000000; 1700000000000]
      TimestampId.timestampIdGenerator
    = ["01700000000000"; "11700000000000"; "21700000000000"].
Proof.
  split; [vm_compute; reflexivity |].
  assert (Hn : (N.of_nat 3 < 2 ^ 53)%N) by (vm_compute; reflexivity).
  pose proof (tokens_burst 3 1700000000000 Hn) as Hb.
  vm_compute in Hb. vm_compute. exact Hb.
Defined.

(** ** Running the model on any state

    A state is written out field by field, with the promises it already
    holds as a prefix of the store, and the functions of the model are
    computed on that form. *)

Section Symbolic.

Context {G : Type} `{IdGenerator G}.

Implicit Types (s : State G) (p q d w : nat) (o : Outcome).

Lemma lookup_tail {A} (P l : list A) (k : nat) :
  (P ++ l) !! (length P + k)%nat = l !! k.
Proof. rewrite lookup_app_r by lia. f_equal. lia. Qed.

Lemma lookup_tail0 {A} (P l : list A) : (P ++ l) !! length P = l !! 0%nat.
Proof. rewrite <- (lookup_tail P l 0). f_equal. lia. Qed.

Lemma alter_tail {A} (f : A → A) (P l : list A) (k : nat) :
  alter f (length P + k)%nat (P ++ l) = P ++ alter f k l.
Proof. apply alter_app_r. Qed.

Implicit Types (c : Config) (g : G) (cg cd : bool) (wr : option nat).
Implicit Types (E : list Listener) (T : list Timer) (clk : Z).
Implicit Types (M : list (Reaction * Outcome)).
Implicit Types (snt : list (list (string * JsVal))).

Lemma settle_tail c g cg cd wr E (P l : list PromiseRec) T M snt clk i o :
  settle (length P + i) o (mkState c g cg cd wr E (P ++ l) T M snt clk)
  = mkState c g cg cd wr E (P ++ alter (settled_rec o) i l) T
      (M ++ match l !! i with
            | Some pr =>
                match pstate pr with
                | Pending => (λ r, (r, o)) <$> reactions pr
                | Settled _ => []
                end
            | None => []
            end) snt clk.
Proof.
  rewrite settle_unfold. unfold settle_jobs. cbn.
  by rewrite alter_tail, lookup_tail.
Qed.

Lemma subscribe_tail c g cg cd wr E (P l : list PromiseRec) T M snt clk i r :
  subscribe (length P + i) r (mkState c g cg cd wr E (P ++ l) T M snt clk)
  = mkState c g cg cd wr E (P ++ alter (subscribed_rec r) i l) T
      (M ++ match l !! i with
            | Some pr =>
                match pstate pr with
                | Pending => []
                | Settled o => [(r, o)]
                end
            | None => []
            end) snt clk.
Proof.
  rewrite subscribe_unfold. unfold subscribe_jobs. cbn.
  by rewrite alter_tail, lookup_tail.
Qed.

Lemma new_promise_tail c g cg cd wr E (P l : list PromiseRec) T M snt clk kd st :
  new_promise kd st (mkState c g cg cd wr E (P ++ l) T M snt clk)
  = ((length P + length l)%nat,
     mkState c g cg cd wr E (P ++ l ++ [mkPromise st [] kd]) T M snt clk).
Proof. unfold new_promise. cbn. by rewrite length_app, <- app_assoc. Qed.

Lemma then_tail c g cg cd wr E (P l : list PromiseRec) T M snt clk i cb kd :
  then_ (length P + i) cb kd (mkState c g cg cd wr E (P ++ l) T M snt clk)
  = ((length P + length l)%nat,
     subscribe (length P + i) (mkReaction cb (length P + length l))
       (mkState c g cg cd wr E (P ++ l ++ [mkPromise Pending [] kd]) T M snt clk)).
Proof. unfold then_. by rewrite new_promise_tail. Qed.

Lemma after_call_tail c g cg cd wr E (P l : list PromiseRec) T M snt clk
    action data timeout :
  after_call action data timeout (mkState c g cg cd wr E (P ++ l) T M snt clk)
  = mkState c (gen_next clk g).2 cg cd wr
      (E ++ [mkListener (gen_next clk g).1 (length P + length l)])
      (P ++ l ++ [mkPromise (match parent c with
                             | Some _ => Pending
                             | None => Settled (Rejected VTypeError)
                             end) [] KCall])
      (if 0 <? timeout
       then T ++ [mkTimer (length P + length l) (gen_next clk g).1 (clk + timeout)]
       else T)
      M
      (match parent c with
       | Some _ => snt ++ [request_payload (_cb c) (gen_next clk g).1 action data]
       | None => snt
       end) clk.
Proof.
  unfold after_call, call_token. cbn. by rewrite length_app, <- app_assoc.
Qed.

Lemma set_connecting_tail c g cg cd wr E (Ps : list PromiseRec) T M snt clk x :
  set_connecting x (mkState c g cg cd wr E Ps T M snt clk)
  = mkState c g x cd wr E Ps T M snt clk.
Proof. done. Qed.

Lemma set_connected_tail c g cg cd wr E (Ps : list PromiseRec) T M snt clk x :
  set_connected x (mkState c g cg cd wr E Ps T M snt clk)
  = mkState c g cg x wr E Ps T M snt clk.
Proof. done. Qed.

Lemma set_whenReady_tail c g cg cd wr E (Ps : list PromiseRec) T M snt clk x :
  set_whenReady x (mkState c g cg cd wr E Ps T M snt clk)
  = mkState c g cg cd x E Ps T M snt clk.
Proof. done. Qed.

Lemma set_microtasks_tail c g cg cd wr E (Ps : list PromiseRec) T M snt clk x :
  set_microtasks x (mkState c g cg cd wr E Ps T M snt clk)
  = mkState c g cg cd wr E Ps T x snt clk.
Proof. done. Qed.

Lemma set_clock_tail c g cg cd wr E (Ps : list PromiseRec) T M snt clk x :
  set_clock x (mkState c g cg cd wr E Ps T M snt clk)
  = mkState c g cg cd wr E Ps T M snt x.
Proof. done. Qed.

Lemma run_microtask_tail c g cg cd wr E (Ps : list PromiseRec) T j M snt clk :
  run_microtask (mkState c g cg cd wr E Ps T (j :: M) snt clk)
  = run_job j (mkState c g cg cd wr E Ps T M snt clk).
Proof. done. Qed.

Lemma postMessage_tail c g cg cd wr E (Ps : list PromiseRec) T M snt clk env :
  postMessage env (mkState c g cg cd wr E Ps T M snt clk)
  = match parent c with
    | Some _ => Return (mkState c g cg cd wr E Ps T M (snt ++ [env]) clk)
    | None => Throw VTypeError
    end.
Proof. unfold postMessage. cbn. by destruct (parent c). Qed.

Lemma state_nil c g cg cd wr E (Ps : list PromiseRec) T M snt clk :
  mkState c g cg cd wr E Ps T M snt clk
  = mkState c g cg cd wr E (Ps ++ []) T M snt clk.
Proof. by rewrite app_nil_r. Qed.

Lemma window_callback_tail c g cg cd wr E (Ps : list PromiseRec) T M snt clk
    id p v :
  l_call <$> filter (λ l, String.eqb id (l_id l) = true) E = [] →
  window_callback id v
    (mkState c g cg cd wr (E ++ [mkListener id p]) Ps T M snt clk)
  = settle p (Fulfilled v)
      (mkState c g cg cd wr (E ++ [mkListener id p]) Ps
         (filter (λ t, Nat.eqb p (t_call t) = false) T) M snt clk).
Proof.
  intros Hl. unfold window_callback, listeners. cbn [_emitter].
  rewrite filter_app, fmap_app, Hl.
  rewrite filter_cons_True by (cbn; apply String.eqb_refl).
  rewrite filter_nil. done.
Qed.

Lemma clear_fresh T p id deadline :
  (∀ t, t ∈ T → t_call t ≠ p) →
  filter (λ t, Nat.eqb p (t_call t) = false) (T ++ [mkTimer p id deadline])
  = T.
Proof.
  intros Hf. rewrite filter_app.
  rewrite filter_cons_False by (cbn; by rewrite Nat.eqb_refl).
  rewrite filter_nil, app_nil_r.
  induction T as [| t T IH]; [done |].
  rewrite filter_cons_True.
  - f_equal. apply IH. intros t' Hin. apply Hf. by right.
  - apply Nat.eqb_neq. intros Heq. apply (Hf t); [by left | done].
Qed.

Lemma off_fresh E p id :
  (∀ l, l ∈ E → l_call l ≠ p) →
  filter (λ l, listener_is id p l = false) (E ++ [mkListener id p]) = E.
Proof.
  intros Hf. rewrite filter_app.
  rewrite filter_cons_False
    by (unfold listener_is; cbn; by rewrite String.eqb_refl, Nat.eqb_refl).
  rewrite filter_nil, app_nil_r.
  induction E as [| l E IH]; [done |].
  rewrite filter_cons_True.
  - f_equal. apply IH. intros l' Hin. apply Hf. by right.
  - unfold listener_is. apply andb_false_iff. right.
    apply Nat.eqb_neq. intros Heq. apply (Hf l); [by left | done].
Qed.

Lemma fire_timer_due c g cg cd wr E (Ps : list PromiseRec) T M snt clk
    p id deadline :
  (∀ t, t ∈ T → t_call t ≠ p) →
  (∀ l, l ∈ E → l_call l ≠ p) →
  deadline ≤ clk →
  fire_timer p
    (mkState c g cg cd wr (E ++ [mkListener id p]) Ps
       (T ++ [mkTimer p id deadline]) M snt clk)
  = settle p (Rejected TIMEOUT_MESSAGE)
      (mkState c g cg cd wr E Ps T M snt clk).
Proof.
  intros HT HE Hdue. unfold fire_timer, armed. cbn [timers].
  assert (List.find (λ t, Nat.eqb p (t_call t)) (T ++ [mkTimer p id deadline])
          = Some (mkTimer p id deadline)) as ->.
  { induction T as [| t T IH]; cbn.
    - by rewrite Nat.eqb_refl.
    - destruct (Nat.eqb_spec p (t_call t)) as [Heq | _].
      + destruct (HT t); [by left | done].
      + apply IH. intros t' Hin. apply HT. by right. }
  cbn [t_deadline t_id clock].
  destruct (Z.leb_spec deadline clk); [| lia].
  unfold rejectTimeout, emitter_off, clearTimeout, set_timers, set_emitter.
  cbn [cfg _idGen _connecting _connected _whenReady _emitter promises timers
       microtasks sent clock].
  by rewrite clear_fresh, off_fresh.
Qed.

Lemma then_settled_tail c g cg cd wr E (P l : list PromiseRec) T M snt clk
    i cb kd o :
  pstate <$> P !! i = Some (Settled o) →
  then_ i cb kd (mkState c g cg cd wr E (P ++ l) T M snt clk)
  = ((length P + length l)%nat,
     mkState c g cg cd wr E (P ++ l ++ [mkPromise Pending [] kd]) T
       (M ++ [(mkReaction cb (length P + length l), o)]) snt clk).
Proof.
  intros Hi. apply fmap_Some in Hi as (pr & Hpr & Hst).
  unfold then_. rewrite new_promise_tail. f_equal.
  unfold subscribe. cbn [promises].
  rewrite lookup_app_l by (by eapply lookup_lt_Some).
  by rewrite Hpr, <- Hst.
Qed.

Lemma settle_handler_tail c g cg cd wr E (P l : list PromiseRec) T M snt clk
    i o :
  settle_handler (length P + i) o (mkState c g cg cd wr E (P ++ l) T M snt clk)
  = match l !! i with
    | Some pr =>
        match kind pr with
        | KHandler =>
            settle (length P + i) o
              (mkState c g cg cd wr E (P ++ l) T M snt clk)
        | _ => mkState c g cg cd wr E (P ++ l) T M snt clk
        end
    | None => mkState c g cg cd wr E (P ++ l) T M snt clk
    end.
Proof. unfold settle_handler. cbn [promises]. by rewrite lookup_tail. Qed.

Lemma fresh_in_store s :
  wf s →
  (∀ t, t ∈ timers s → (t_call t < length (promises s))%nat)
  ∧ (∀ l, l ∈ _emitter s → (l_call l < length (promises s))%nat).
Proof.
  intros Hwf. split.
  - intros t Hin. apply (wf_timers s Hwf) in Hin. by apply kind_of_lt in Hin.
  - intros l Hin. apply (wf_listeners s Hwf) in Hin.
    by apply kind_of_lt in Hin.
Qed.

Lemma handshake_promise_eq s :
  handshake_promise s = (length (promises s) + 2)%nat.
Proof.
  unfold handshake_promise, handshake_then.
  rewrite length_promises_then. unfold handshake_call.
  rewrite length_promises_after_call. cbn. lia.
Qed.

End Symbolic.

Ltac sym_cbn :=
  cbn [cfg _idGen _connecting _connected _whenReady _emitter promises timers
       microtasks sent clock length Nat.add alter list_alter lookup
       list_lookup fmap list_fmap app pstate reactions kind settled_rec
       subscribed_rec fst snd run_job foldl step
       r_callback r_derived].

Ltac sym_fields :=
  sym_cbn; unfold adopt, _sendMessageCallback; sym_cbn.

Ltac sym_step :=
  first
    [ rewrite settle_tail
    | rewrite subscribe_tail
    | rewrite then_tail
    | rewrite new_promise_tail
    | rewrite after_call_tail
    | rewrite _sendMessage_unfold
    | rewrite set_connecting_tail
    | rewrite set_connected_tail
    | rewrite set_whenReady_tail
    | rewrite set_microtasks_tail
    | rewrite set_clock_tail
    | rewrite run_microtask_tail
    | rewrite postMessage_tail
    | rewrite settle_handler_tail
    | rewrite length_app ];
  sym_fields.

Ltac sym := sym_fields; repeat sym_step.


(** ** The constructor *)

Section ConstructorFacts.

Context {G : Type} `{IdGenerator G}.

(** X3. The constructor throws exactly when [window.webkit] or
    [window.webkit.messageHandlers] is undefined, and the error then names
    the message handler; in particular the automatic handshake never makes
    it throw. *)
Theorem constructor_throws_iff (o : Options G) (w : Window) (e : JsVal) :
  constructor o w = Throw e
  ↔ (webkit w = NoWebkit ∨ webkit w = NoMessageHandlers)
    ∧ e = VError ("Can't add message handler " +:+ o_scriptMessageHandler o).
Proof.
  unfold constructor, messageHandler.
  destruct (webkit w) as [| | names].
  - split; [intros [= <-]; auto | by intros [_ ->]].
  - split; [intros [= <-]; auto | by intros [_ ->]].
  - split; [| by intros [[? | ?] _]].
    destruct (o_autoHandshake o); [| done].
    rewrite sendHandshake_new by done. done.
Qed.

(** X4. When the message handler exists, the constructor returns a
    channel bound to it. With [autoHandshake] it has already posted one
    envelope, the handshake request carrying the name of the handler
    global as data and the name of the callback global, under the first
    token of the generator, and it is connecting, with a pending
    [_whenReady], one listener under the token and, when the handshake
    timeout is positive, one timer. Without [autoHandshake] nothing was
    posted or registered and the channel is unconnected. *)
Theorem constructor_state (o : Options G) (w : Window) names :
  webkit w = MessageHandlers names →
  o_scriptMessageHandler o ∈ names →
  let token := (gen_next (date_now w) (o_idGenerator o)).1 in
  ∃ s, constructor o w = Return s
    ∧ parent (cfg s) = Some (o_scriptMessageHandler o)
    ∧ if o_autoHandshake o
      then sent s = [request_payload (o_callbackGlobal o) token
                       HANDSHAKE_ACTION (VStr (o_handlerGlobal o))]
           ∧ connection s = Connecting
           ∧ (∃ wr, _whenReady s = Some wr
                    ∧ promise_state wr s = Some Pending)
           ∧ _emitter s = [mkListener token 0]
           ∧ timers s = (if 0 <? o_handshakeTimeout o
                         then [mkTimer 0 token
                                 (date_now w + o_handshakeTimeout o)]
                         else [])
      else sent s = [] ∧ connection s = Unconnected
           ∧ _whenReady s = None ∧ promises s = []
           ∧ _emitter s = [] ∧ timers s = [].
Proof.
  intros Hw Hin token. unfold constructor, messageHandler. rewrite Hw.
  rewrite bool_decide_eq_true_2 by done.
  destruct (o_autoHandshake o); [| by eexists].
  rewrite sendHandshake_new by done.
  eexists. split; [done |].
  unfold after_handshake, handshake_catch, handshake_promise,
    handshake_then, handshake_call.
  rewrite state_nil. sym.
  split; [done |]. split; [done |]. split; [done |].
  split; [| done].
  eexists. split; [done |].
  unfold promise_state. cbn. done.
Qed.

End ConstructorFacts.

Lemma constructor_state_witness :
  ∃ s, constructor default_options example_window = Return s
       ∧ length (sent s) = 1%nat ∧ connection s = Connecting.
Proof.
  destruct (constructor_state default_options example_window
              ["wkPostMessage"]) as (s & Hs & _ & Hsent & Hc & _).
  - done.
  - by apply list_elem_of_singleton.
  - exists s. split; [done |]. cbn in Hsent. rewrite Hsent. done.
Defined.

(** ** What is posted to the transport *)

Section Posted.

Context {G : Type} `{IdGenerator G}.

Implicit Types (s : State G) (p q d w : nat) (o : Outcome).

Lemma sent_settle p o s : sent (settle p o s) = sent s.
Proof. by rewrite settle_unfold. Qed.

Lemma sent_subscribe p r s : sent (subscribe p r s) = sent s.
Proof. by rewrite subscribe_unfold. Qed.

Lemma sent_then p cb k s : sent (then_ p cb k s).2 = sent s.
Proof. by destruct (then_frame p cb k s) as (_ & _ & _ & _ & _ & _ & _ & ? & _). Qed.

Lemma sent_callbackReceived p v s : sent (callbackReceived p v s) = sent s.
Proof. unfold callbackReceived. by rewrite sent_settle. Qed.

Lemma sent_window_callback id v s : sent (window_callback id v s) = sent s.
Proof.
  unfold window_callback. generalize (listeners id s). intros ps.
  revert s. induction ps as [| p ps IH]; intros s; [done |].
  cbn [foldl]. by rewrite IH, sent_callbackReceived.
Qed.

Lemma sent_fire_timer p s : sent (fire_timer p s) = sent s.
Proof.
  unfold fire_timer. destruct (armed p s) as [t |]; [| done].
  destruct (t_deadline t <=? clock s); [| done].
  unfold rejectTimeout. by rewrite sent_settle.
Qed.

Lemma sent_settle_handler q o s : sent (settle_handler q o s) = sent s.
Proof.
  unfold settle_handler. destruct (promises s !! q) as [pr |]; [| done].
  destruct (kind pr); try done. apply sent_settle.
Qed.

Lemma sent__sendMessage_cases action data timeout s :
  let s' := (_sendMessage action data timeout s).2 in
  (parent (cfg s) = None ∧ sent s' = sent s)
  ∨ (located s
     ∧ sent s' = sent s ++ [request_payload (_cb (cfg s)) (call_token s)
                              action data]).
Proof.
  rewrite _sendMessage_unfold. cbn [snd]. unfold after_call, located.
  cbn. destruct (parent (cfg s)); [right | left]; eauto.
Qed.

Lemma sent_after_handshake_cases s :
  (parent (cfg s) = None ∧ sent (after_handshake s) = sent s)
  ∨ (located s
     ∧ sent (after_handshake s)
       = sent s ++ [request_payload (_cb (cfg s)) (call_token s)
                      HANDSHAKE_ACTION (VStr (_hm (cfg s)))]).
Proof.
  assert (sent (after_handshake s) = sent (handshake_call s)) as ->.
  { unfold after_handshake, handshake_catch, handshake_then.
    change (sent (set_whenReady ?x ?y)) with (sent y).
    by rewrite !sent_then. }
  unfold handshake_call, after_call, located. cbn.
  destruct (parent (cfg s)); [right | left]; eauto.
Qed.

Lemma sent_sendHandshake_cases s :
  let s' := (sendHandshake s).2 in
  sent s' = sent s
  ∨ (located s ∧ _connected s = false ∧ _connecting s = false
     ∧ sent s'
       = sent s ++ [request_payload (_cb (cfg s)) (call_token s)
                      HANDSHAKE_ACTION (VStr (_hm (cfg s)))]).
Proof.
  destruct (_connected s) eqn:Hc.
  { rewrite sendHandshake_connected by done. by left. }
  destruct (_connecting s) eqn:Hcg.
  { rewrite sendHandshake_connecting by done. by left. }
  rewrite sendHandshake_new by done. cbn [snd].
  destruct (sent_after_handshake_cases s) as [[_ ?] | [? ?]]; auto.
Qed.

(** Each event posts at most one envelope, and it is a request or a
    reply built by the channel. *)
Lemma sent_step e s :
  sent (step e s) = sent s
  ∨ ∃ env, sent (step e s) = sent s ++ [env] ∧ located s ∧ envelope_of s env.
Proof.
  destruct e as [| action data timeout | id action data | id v | p | dt
                 | | q o]; cbn [step].
  - destruct (sent_sendHandshake_cases s) as [? | (? & _ & _ & Hs)];
      [by left | right].
    eexists. split; [done |]. split; [done |]. left. eauto.
  - rewrite sendMessage_unfold.
    destruct (_whenReady s) as [w |] eqn:Ew.
    + cbn [send_after]. rewrite Ew. rewrite send_then_eq. cbn [snd].
      left. apply sent_then.
    + pose proof (sent_sendHandshake_cases s) as Hs.
      destruct (sendHandshake s) as [[wr | err] s1] eqn:Es; cbn [snd] in Hs.
      * cbn [send_after].
        assert (sent (match _whenReady s1 with
                      | Some w => send_then w
                          (CbSend action data
                             (default (_messageTimeout (cfg s)) timeout)) s1
                      | None => (Throw VTypeError, s1)
                      end).2 = sent s1) as ->.
        { destruct (_whenReady s1); [| done].
          rewrite send_then_eq. apply sent_then. }
        destruct Hs as [? | (? & _ & _ & Hs)]; [by left | right].
        eexists. split; [done |]. split; [done |]. left. eauto.
      * cbn [send_after snd].
        destruct Hs as [? | (? & _ & _ & Hs)]; [by left | right].
        eexists. split; [done |]. split; [done |]. left. eauto.
  - unfold window_handler.
    destruct (_handleMessage action data s) as [v | err |].
    + unfold _sendMessageCallback, postMessage, located.
      destruct (parent (cfg s)) eqn:Ep; [right | by left].
      eexists. split; [done |]. split; [by eexists |]. right. eauto.
    + by left.
    + left.
      change (sent (then_ (length (promises s)) (CbReply id) KReplied
                      (new_promise KHandler Pending s).2).2 = sent s).
      by rewrite sent_then.
  - left. apply sent_window_callback.
  - left. apply sent_fire_timer.
  - by left.
  - unfold run_microtask. destruct (microtasks s) as [| [[cb d] o] jobs];
      [by left |].
    change (located s) with (located (set_microtasks jobs s)).
    change (envelope_of s) with (envelope_of (set_microtasks jobs s)).
    change (sent s) with (sent (set_microtasks jobs s)).
    generalize (set_microtasks jobs s). clear s. intros s.
    destruct cb, o as [v | reason]; cbn [run_job];
      try (left; by rewrite sent_settle);
      try (left; by rewrite sent_subscribe).
    + by left.
    + rewrite (surjective_pairing (_sendMessage action data timeout s)).
      change (sent (adopt d ?q ?s')) with (sent s').
      destruct (sent__sendMessage_cases action data timeout s)
        as [[_ ?] | [? Hs]]; [by left | right].
      eexists. split; [done |]. split; [done |]. left. eauto.
    + unfold _sendMessageCallback, postMessage, located.
      destruct (parent (cfg s)) eqn:Ep.
      * right. rewrite sent_settle. eexists. split; [done |].
        split; [by eexists |]. right. eauto.
      * left. by rewrite sent_settle.
  - left. apply sent_settle_handler.
Qed.

(** X5. A channel whose message handler was missing at construction
    ([parent] is undefined) never posts anything, whatever is asked of
    it. *)
Theorem no_target_never_posts s tr :
  parent (cfg s) = None → sent (run tr s) = sent s.
Proof.
  revert s. induction tr as [| e tr IH]; intros s Hp; [done |].
  change (run (e :: tr) s) with (run tr (step e s)).
  rewrite IH by (by rewrite cfg_step).
  destruct (sent_step e s) as [? | (env & _ & [tgt Hl] & _)]; [done |].
  congruence.
Qed.

End Posted.

(** ** The handshake, start to end *)

Section HandshakeScenarios.

Context {G : Type} `{IdGenerator G}.

Implicit Types (s : State G) (p q d w : nat) (o : Outcome).

Ltac start_handshake :=
  unfold run; cbn [foldl step];
  rewrite sendHandshake_new by done; cbn [snd];
  unfold after_handshake, handshake_catch, handshake_promise,
    handshake_then, handshake_call;
  rewrite state_nil; sym.

(** X6. The app acknowledges the handshake: after the reply under the
    handshake's token and two microtask turns the channel is connected, the
    promise that [sendHandshake] returned and stored in [_whenReady] is
    fulfilled with [undefined] (whatever value the app replied with), only
    the handshake envelope was posted, and [sendHandshake] now throws. *)
Theorem handshake_acknowledged s v :
  located s → _connected s = false → _connecting s = false →
  microtasks s = [] → listeners (call_token s) s = [] →
  let s1 := run [ESendHandshake; EReply (call_token s) v;
                 EMicrotask; EMicrotask] s in
  connection s1 = Connected
  ∧ (∃ w, (sendHandshake s).1 = Return (Some w)
          ∧ _whenReady s1 = Some w
          ∧ promise_state w s1 = Some (Settled (Fulfilled VUndefined)))
  ∧ sent s1 = sent s ++ [request_payload (_cb (cfg s)) (call_token s)
                           HANDSHAKE_ACTION (VStr (_hm (cfg s)))]
  ∧ microtasks s1 = []
  ∧ (sendHandshake s1).1 = Throw ALREADY_COMPLETED.
Proof.
  intros [tgt Hloc] Hcd Hcg Hm Hl.
  rewrite (sendHandshake_new s Hcd Hcg), handshake_promise_eq.
  destruct s as [c g cg cd wr E P T M snt clk].
  unfold listeners, call_token in *. cbn in Hloc, Hcd, Hcg, Hm, Hl.
  cbv zeta. cbn [cfg _idGen clock sent promises].
  subst cg cd M.
  eassert (Hrun : run [ESendHandshake; EReply (gen_next clk g).1 v;
                       EMicrotask; EMicrotask]
                    (mkState c g false false wr E P T [] snt clk) = _).
  { start_handshake. rewrite Hloc.
    rewrite window_callback_tail by done. sym. reflexivity. }
  rewrite Hrun. clear Hrun.
  split; [done |]. split.
  { eexists. split; [done |]. split; [done |].
    unfold promise_state. cbn [promises]. by rewrite lookup_tail. }
  done.
Qed.

(** X7. The handshake is not acknowledged in time: when the timer of
    the handshake call runs at or after its deadline, the call is rejected
    with the message timeout. The second microtask turn runs the catch
    handler, which makes the channel unconnected again and returns a
    rejected promise; the promise in [_whenReady] is still pending after
    the third turn and is rejected with the handshake timeout by the
    fourth. The listener and the timer of the call are gone, and a new
    [sendHandshake] posts a second handshake request. *)
Theorem handshake_times_out s dt :
  wf s → located s → _connected s = false → _connecting s = false →
  microtasks s = [] →
  0 < _handshakeTimeout (cfg s) ≤ Z.of_N dt →
  let p := length (promises s) in
  let s3 := run [ESendHandshake; ETick dt; ETimer p;
                 EMicrotask; EMicrotask; EMicrotask] s in
  let s1 := step EMicrotask s3 in
  connection s1 = Unconnected
  ∧ promise_state p s1 = Some (Settled (Rejected TIMEOUT_MESSAGE))
  ∧ (∃ w, (sendHandshake s).1 = Return (Some w)
          ∧ _whenReady s1 = Some w
          ∧ promise_state w s3 = Some Pending
          ∧ promise_state w s1 = Some (Settled (Rejected TIMEOUT_HANDSHAKE)))
  ∧ _emitter s1 = _emitter s ∧ timers s1 = timers s
  ∧ microtasks s1 = []
  ∧ sent (sendHandshake s1).2
    = sent s ++ [request_payload (_cb (cfg s)) (call_token s)
                   HANDSHAKE_ACTION (VStr (_hm (cfg s)));
                 request_payload (_cb (cfg s)) (call_token s1)
                   HANDSHAKE_ACTION (VStr (_hm (cfg s)))].
Proof.
  intros Hwf [tgt Hloc] Hcd Hcg Hm Ht.
  destruct (fresh_in_store s Hwf) as [HT HE].
  rewrite (sendHandshake_new s Hcd Hcg), handshake_promise_eq.
  destruct s as [c g cg cd wr E P T M snt clk].
  unfold call_token in *. cbn in Hloc, Hcd, Hcg, Hm, Ht, HT, HE.
  cbv zeta. cbn [cfg _idGen clock sent promises _emitter timers].
  subst cg cd M.
  replace (ETimer (length P)) with (@ETimer (length P + 0)%nat)
    by (f_equal; lia).
  replace (promise_state (length P)) with (promise_state (G:=G) (length P + 0)%nat)
    by (f_equal; lia).
  eassert (Hrun : run [ESendHandshake; ETick dt; ETimer (length P + 0);
                       EMicrotask; EMicrotask; EMicrotask]
                    (mkState c g false false wr E P T [] snt clk) = _).
  { start_handshake. rewrite Hloc.
    destruct (Z.ltb_spec 0 (_handshakeTimeout c)) as [_ | ?]; [| lia].
    rewrite fire_timer_due;
      [| intros t Hin; apply HT in Hin; lia
       | intros l Hin; apply HE in Hin; lia
       | lia ].
    sym. reflexivity. }
  rewrite Hrun. clear Hrun.
  match goal with
  | |- context [step EMicrotask ?X] => eassert (Hrun : step EMicrotask X = _)
  end.
  { sym. reflexivity. }
  rewrite Hrun. clear Hrun.
  split; [done |]. split.
  { unfold promise_state. cbn [promises]. by rewrite lookup_tail. }
  split.
  { eexists. split; [done |]. split; [done |].
    unfold promise_state. cbn [promises]. by rewrite !lookup_tail. }
  split; [done |]. split; [done |]. split; [done |].
  rewrite sendHandshake_new by done. cbn [snd].
  match goal with
  | |- sent (after_handshake ?s0) = _ =>
      destruct (sent_after_handshake_cases s0) as [[Hn _] | [_ ->]]
  end.
  - cbn in Hn. congruence.
  - unfold call_token. cbn. by rewrite <- app_assoc.
Qed.

(** X8. Without a transport ([parent] undefined) the handshake call is
    rejected at once by the [TypeError] of [postMessage], and without any
    time passing the promise in [_whenReady] is rejected with the
    handshake timeout message: it is still pending after three microtask
    turns and rejected by the fourth. The channel is unconnected again,
    and the listener of the call (and its timer, for a positive timeout)
    stay registered. *)
Theorem handshake_without_target s :
  parent (cfg s) = None → _connected s = false → _connecting s = false →
  microtasks s = [] →
  let p := length (promises s) in
  let s3 := run [ESendHandshake; EMicrotask; EMicrotask; EMicrotask] s in
  let s1 := step EMicrotask s3 in
  connection s1 = Unconnected
  ∧ promise_state p s1 = Some (Settled (Rejected VTypeError))
  ∧ (∃ w, (sendHandshake s).1 = Return (Some w)
          ∧ _whenReady s1 = Some w
          ∧ promise_state w s3 = Some Pending
          ∧ promise_state w s1 = Some (Settled (Rejected TIMEOUT_HANDSHAKE)))
  ∧ sent s1 = sent s ∧ clock s1 = clock s
  ∧ microtasks s1 = []
  ∧ _emitter s1 = _emitter s ++ [mkListener (call_token s) p]
  ∧ timers s1
    = (if 0 <? _handshakeTimeout (cfg s)
       then timers s ++ [mkTimer p (call_token s)
                           (clock s + _handshakeTimeout (cfg s))]
       else timers s).
Proof.
  intros Hpar Hcd Hcg Hm.
  rewrite (sendHandshake_new s Hcd Hcg), handshake_promise_eq.
  destruct s as [c g cg cd wr E P T M snt clk].
  unfold call_token in *. cbn in Hpar, Hcd, Hcg, Hm.
  cbv zeta. cbn [cfg _idGen clock sent promises _emitter timers].
  subst cg cd M.
  replace (promise_state (length P)) with (promise_state (G:=G) (length P + 0)%nat)
    by (f_equal; lia).
  eassert (Hrun : run [ESendHandshake; EMicrotask; EMicrotask; EMicrotask]
                    (mkState c g false false wr E P T [] snt clk) = _).
  { start_handshake. rewrite Hpar. sym. reflexivity. }
  rewrite Hrun. clear Hrun.
  match goal with
  | |- context [step EMicrotask ?X] => eassert (Hrun : step EMicrotask X = _)
  end.
  { sym. reflexivity. }
  rewrite Hrun. clear Hrun.
  split; [done |]. split.
  { unfold promise_state. cbn [promises]. by rewrite lookup_tail. }
  split.
  { eexists. split; [done |]. split; [done |].
    unfold promise_state. cbn [promises]. by rewrite !lookup_tail. }
  cbn [sent clock microtasks _emitter timers].
  rewrite Nat.add_0_r. done.
Qed.

(** C4. [sendHandshake()] on a channel whose transport was located:
    from the unconnected state it posts exactly one envelope, the
    handshake, and returns the pending promise it stores; a second call
    made before completion returns that same promise and changes nothing
    (so posts nothing), as does any call made while connecting; once
    connected, the call throws instead of returning a promise.  Two calls
    in a row followed by the acknowledgment of the app and two microtask
    turns fulfil the one promise both calls returned, with that single
    envelope posted, and leave the channel connected, so that a further
    call throws.  In every reachable state in which the promise stored in
    [_whenReady] is fulfilled the channel is connected and the call
    throws. *)
Theorem sendHandshake_contract s :
  located s →
  (_connected s = false → _connecting s = false →
     ∃ w s1,
       sendHandshake s = (Return (Some w), s1)
       ∧ sent s1
         = sent s ++ [request_payload (_cb (cfg s)) (call_token s)
                        HANDSHAKE_ACTION (VStr (_hm (cfg s)))]
       ∧ promise_state w s1 = Some Pending
       ∧ sendHandshake s1 = (Return (Some w), s1))
  ∧ (_connected s = false → _connecting s = true →
       sendHandshake s = (Return (_whenReady s), s))
  ∧ (_connected s = true →
       sendHandshake s = (Throw ALREADY_COMPLETED, s))
  ∧ (_connected s = false → _connecting s = false →
     microtasks s = [] → listeners (call_token s) s = [] →
     ∀ v,
       let s2 := run [ESendHandshake; ESendHandshake] s in
       let s3 := run [EReply (call_token s) v; EMicrotask; EMicrotask] s2 in
       ∃ w,
         (sendHandshake s).1 = Return (Some w)
         ∧ (sendHandshake (sendHandshake s).2).1 = Return (Some w)
         ∧ sent s3
           = sent s ++ [request_payload (_cb (cfg s)) (call_token s)
                          HANDSHAKE_ACTION (VStr (_hm (cfg s)))]
         ∧ promise_state w s3 = Some (Settled (Fulfilled VUndefined))
         ∧ _connected s3 = true
         ∧ sendHandshake s3 = (Throw ALREADY_COMPLETED, s3))
  ∧ (reachable s →
     ∀ w v, _whenReady s = Some w →
       promise_state w s = Some (Settled (Fulfilled v)) →
       _connected s = true
       ∧ sendHandshake s = (Throw ALREADY_COMPLETED, s)).
Proof.
  intros Hloc. split_and!.
  - intros Hc Hcg.
    destruct (after_handshake_fields s) as (Hcg1 & Hc1 & Hw1 & Hp1 & Hs1).
    exists (handshake_promise s), (after_handshake s).
    split_and!; [by apply sendHandshake_new | by apply Hs1 | done |].
    rewrite sendHandshake_connecting by congruence. by rewrite Hw1.
  - apply sendHandshake_connecting.
  - apply sendHandshake_connected.
  - intros Hcd Hcg Hm Hl v s2 s3.
    destruct (after_handshake_fields s) as (Hcg1 & Hc1 & Hw1 & _).
    assert (Hagain : sendHandshake (after_handshake s)
                     = (Return (Some (handshake_promise s)),
                        after_handshake s)).
    { rewrite sendHandshake_connecting by congruence. by rewrite Hw1. }
    assert (Hs2 : s2 = step ESendHandshake s).
    { subst s2. unfold run. cbn [foldl step].
      rewrite (sendHandshake_new s Hcd Hcg). rewrite pair_snd.
      by rewrite Hagain. }
    assert (Hs3 : s3 = run [ESendHandshake; EReply (call_token s) v;
                            EMicrotask; EMicrotask] s).
    { subst s3. by rewrite Hs2. }
    clearbody s3. clear s2 Hs2. subst s3.
    exists (handshake_promise s).
    rewrite (sendHandshake_new s Hcd Hcg), pair_fst, pair_snd, Hagain.
    split; [done |]. split; [done |].
    clear Hcg1 Hc1 Hw1 Hagain.
    rewrite handshake_promise_eq.
    destruct Hloc as [tgt Hloc].
    destruct s as [c g cg cd wr E P T M snt clk].
    unfold listeners, call_token in *. cbn in Hloc, Hcd, Hcg, Hm, Hl.
    cbn [cfg _idGen clock sent promises].
    subst cg cd M.
    eassert (Hrun : run [ESendHandshake; EReply (gen_next clk g).1 v;
                         EMicrotask; EMicrotask]
                      (mkState c g false false wr E P T [] snt clk) = _).
    { start_handshake. rewrite Hloc.
      rewrite window_callback_tail by done. sym. reflexivity. }
    rewrite Hrun. clear Hrun.
    split; [done |]. split.
    { unfold promise_state. cbn [promises]. by rewrite lookup_tail. }
    split; [done |]. by apply sendHandshake_connected.
  - intros Hr w v Hw Hp.
    assert (Hwf := reachable_wf s Hr).
    assert (Hcd : _connected s = true).
    { unfold promise_state in Hp.
      destruct (promises s !! w) as [pr |] eqn:Epr; [| done].
      cbn in Hp. injection Hp as Hp.
      apply (wf_fulfilled s Hwf w pr v Epr Hp). right.
      pose proof (wf_whenReady s Hwf w Hw) as Hk.
      unfold kind_of in Hk. rewrite Epr in Hk. by injection Hk. }
    split; [done | by apply sendHandshake_connected].
Qed.

End HandshakeScenarios.

(** ** Outbound calls, from the caller's side *)

Section Calls.

Context {G : Type} `{IdGenerator G}.

Implicit Types (s : State G) (p q d w : nat) (o : Outcome).

Lemma clock_step e s : clock s ≤ clock (step e s).
Proof.
  pose proof (ev_clock _ _ _ (step_evolves e s)) as Hc.
  by destruct (before_fields e s) as (_ & _ & _ & <-).
Qed.

Lemma clock_run tr s : clock s ≤ clock (run tr s).
Proof.
  revert s. induction tr as [| e tr IH]; intros s; [done |].
  change (run (e :: tr) s) with (run tr (step e s)).
  etrans; [apply (clock_step e) | apply IH].
Qed.

Lemma wf_call action data timeout s :
  wf s → action = HANDSHAKE_ACTION ∨ _connected s = true →
  wf (after_call action data timeout s).
Proof.
  intros Hwf Hok. apply wf_after_call; [done |].
  intros Hne _. by destruct Hok.
Qed.

(** Before its deadline a waiting call keeps waiting, as long as no reply
    comes under its token. *)
Lemma waiting_run_early p id deadline tr s :
  wf s → waiting p id deadline s →
  Forall (λ e, ∀ v, e ≠ EReply id v) tr →
  clock (run tr s) < deadline →
  waiting p id deadline (run tr s).
Proof.
  revert s. induction tr as [| e tr IH]; intros s Hwf Hw Hno Hcl; [done |].
  apply Forall_cons in Hno as [Hno1 Hno].
  change (run (e :: tr) s) with (run tr (step e s)) in *.
  pose proof (clock_run tr (step e s)) as Hc1.
  pose proof (clock_step e s) as Hc2.
  apply IH; [by apply wf_step | | done | done].
  apply waiting_step; [done | done | done |]. intros _. lia.
Qed.

(** X9. A call with a positive timeout that got no reply under its token
    is rejected with the message timeout when its timer runs at or after
    the deadline; from then on it stays rejected with that reason, with no
    listener and no timer left, whatever happens next: a late reply changes
    nothing. *)
Theorem call_rejected_at_deadline s action data timeout tr tr' :
  wf s → located s → 0 < timeout →
  action = HANDSHAKE_ACTION ∨ _connected s = true →
  let p := length (promises s) in
  let id := call_token s in
  let s1 := (_sendMessage action data timeout s).2 in
  Forall (λ e, ∀ v, e ≠ EReply id v) tr →
  clock s + timeout ≤ clock (run tr s1) →
  let s2 := run tr' (step (ETimer p) (run tr s1)) in
  (_sendMessage action data timeout s).1 = p
  ∧ promise_state p s2 = Some (Settled (Rejected TIMEOUT_MESSAGE))
  ∧ (∀ id', p ∉ listeners id' s2)
  ∧ (∀ t, t ∈ timers s2 → t_call t ≠ p)
  ∧ (∀ v, promise_state p (step (EReply id v) s2)
          = Some (Settled (Rejected TIMEOUT_MESSAGE))).
Proof.
  intros Hwf Hloc Ht Hok p id s1 Hno Hdue s2. subst s1 s2.
  rewrite _sendMessage_unfold in *. cbn [fst snd] in *.
  assert (Hwf1 := wf_call action data timeout s Hwf Hok).
  assert (Hw := waiting_after_call action data timeout s Hwf Hloc Ht).
  set (s2 := run tr' _).
  assert (Hto : timed_out p s2).
  { apply timed_out_run.
    destruct (unanswered_run p id (clock s + timeout) tr _ Hwf1 Hno
                (or_introl Hw)) as [Hw' | Hto].
    - by eapply waiting_timer_due.
    - by apply timed_out_step. }
  split; [done |]. split; [apply Hto |].
  split; [intros id'; by apply timed_out_not_listening |].
  split; [apply Hto |].
  intros v. by apply (timed_out_step p (EReply id v)).
Qed.

(** A reply under the token of a pending call with a registered listener
    fulfils its promise with the reply and leaves no timer for it. *)
Lemma reply_fulfils p id v s :
  promise_state p s = Some Pending → mkListener id p ∈ _emitter s →
  answered p v (step (EReply id v) s).
Proof.
  intros Hst Hl. cbn [step]. unfold window_callback.
  assert (Hin : p ∈ listeners id s).
  { unfold listeners. apply list_elem_of_fmap.
    exists (mkListener id p). split; [done |].
    apply list_elem_of_filter. split; [| done].
    simpl. apply String.eqb_refl. }
  clear Hl. revert Hin Hst. generalize (listeners id s) as ps.
  intros ps. revert s. induction ps as [| p' ps IH]; intros s Hin Hst.
  { by apply not_elem_of_nil in Hin. }
  simpl. destruct (decide (p = p')) as [<- | Hne].
  - assert (Hans := answered_callbackReceived p v s Hst).
    clear IH Hin Hst. revert Hans.
    generalize (callbackReceived p v s) as s1.
    induction ps as [| p'' ps IH]; intros s1 Hans; [done |].
    simpl. by apply IH, answered_callbackReceived_kept.
  - apply elem_of_cons in Hin as [-> | Hin]; [done |].
    apply IH; [done |].
    by rewrite promise_state_callbackReceived_ne.
Qed.

(** X10. A reply that comes under the call's token before the deadline
    fulfils the promise with the value of the reply and disarms the timer;
    from then on the promise keeps that value, whatever happens next: the
    timer coming due or further replies change nothing. *)
Theorem call_fulfilled_by_reply s action data timeout tr v tr' :
  wf s → located s → 0 < timeout →
  action = HANDSHAKE_ACTION ∨ _connected s = true →
  let p := length (promises s) in
  let id := call_token s in
  let s1 := (_sendMessage action data timeout s).2 in
  Forall (λ e, ∀ v', e ≠ EReply id v') tr →
  clock (run tr s1) < clock s + timeout →
  let s2 := run tr' (step (EReply id v) (run tr s1)) in
  (_sendMessage action data timeout s).1 = p
  ∧ promise_state p (run tr s1) = Some Pending
  ∧ promise_state p s2 = Some (Settled (Fulfilled v))
  ∧ (∀ t, t ∈ timers s2 → t_call t ≠ p).
Proof.
  intros Hwf Hloc Ht Hok p id s1 Hno Hcl s2. subst s1 s2.
  rewrite _sendMessage_unfold in *. cbn [fst snd] in *.
  assert (Hwf1 := wf_call action data timeout s Hwf Hok).
  assert (Hw := waiting_after_call action data timeout s Hwf Hloc Ht).
  assert (Hw' := waiting_run_early _ _ _ tr _ Hwf1 Hw Hno Hcl).
  set (s2 := run tr' _).
  assert (Ha : answered p v s2).
  { apply answered_run. by eapply waiting_reply. }
  split; [done |]. split; [apply Hw' |]. apply Ha.
Qed.

(** A call without a timer keeps listening through every event that is
    not a reply under its token. *)
Lemma listening_step p id e s :
  wf s → listening p id s → (∀ v, e ≠ EReply id v) →
  listening p id (step e s).
Proof.
  intros Hwf (Hst & Hk & Htn & Hl & Hlu) Hreply.
  destruct (before_fields e s) as (Hbp & Hbe & Hbt & Hbc).
  pose proof (step_evolves e s) as Hev.
  assert (Hlt : (p < length (promises s))%nat)
    by (by eapply promise_state_lt).
  assert (Hnot : ¬ touched e s p).
  { destruct e; simpl; try (by intros []).
    - intros Hin. apply listeners_elem in Hin as (l & Hin & Hid & Hp).
      apply Hlu in Hin; [| done]. subst l. simpl in Hid.
      subst. by apply (Hreply result).
    - intros (-> & t & Ha & Hdue).
      apply armed_Some in Ha as [Hin Hp]. by apply (Htn t).
    - intros (j & Hj & ->).
      assert (j.1 ∈ all_reactions s) as Hin.
      { unfold all_reactions. apply elem_of_app. left.
        destruct (microtasks s) as [| j' jobs]; [done |].
        injection Hj as ->. by left. }
      destruct (wf_targets s Hwf _ Hin) as (k & Hk' & Hdk).
      rewrite Hk in Hk'. injection Hk' as <-.
      by destruct (r_callback j.1).
    - intros [-> Hk']. congruence. }
  unfold promise_state, kind_of in *.
  destruct (promises s !! p) as [pr |] eqn:E; [| done].
  simpl in Hst, Hk. injection Hst as Hst. injection Hk as Hk.
  rewrite <- Hbp in E.
  destruct (ev_promises _ _ _ Hev p pr E) as (pr' & E' & Hk' & Hst').
  rewrite Hst in Hst'. destruct Hst' as [[Hst' _] | [? _]]; [| done].
  unfold listening, promise_state, kind_of. rewrite E'. simpl.
  split_and!.
  - by rewrite Hst'.
  - by rewrite Hk', Hk.
  - intros t Hin Hp.
    destruct (ev_timers_old _ _ _ Hev t Hin) as [Hin' | Hge].
    + rewrite Hbt in Hin'. by apply (Htn t).
    + rewrite Hbp in Hge. lia.
  - rewrite <- Hbe in Hl.
    destruct (ev_listeners_kept _ _ _ Hev _ Hl); done.
  - intros l Hin Hp.
    destruct (ev_listeners_old _ _ _ Hev l Hin) as [Hin' | Hge].
    + rewrite Hbe in Hin'. by apply Hlu.
    + rewrite Hbp in Hge. lia.
Qed.

Lemma listening_run p id tr s :
  wf s → listening p id s → Forall (λ e, ∀ v, e ≠ EReply id v) tr →
  listening p id (run tr s).
Proof.
  revert s. induction tr as [| e tr IH]; intros s Hwf Hl Hno; [done |].
  apply Forall_cons in Hno as [Hno1 Hno].
  change (run (e :: tr) s) with (run tr (step e s)).
  apply IH; [by apply wf_step | by apply listening_step | done].
Qed.

Lemma listening_after_call action data timeout s :
  wf s → located s → timeout ≤ 0 →
  listening (length (promises s)) (call_token s)
    (after_call action data timeout s).
Proof.
  intros Hwf [tgt Hloc] Ht.
  destruct (fresh_in_store s Hwf) as [HT HE].
  unfold listening. split_and!.
  - unfold promise_state. simpl. rewrite list_lookup_middle by done.
    by rewrite Hloc.
  - apply kind_of_after_call_new.
  - simpl. destruct (Z.ltb_spec 0 timeout); [lia |].
    intros t Hin Hp. apply HT in Hin. lia.
  - simpl. apply elem_of_app. right. by left.
  - simpl. intros l Hin Hp. apply elem_of_app in Hin as [Hin | Hin].
    + apply HE in Hin. lia.
    + by apply list_elem_of_singleton in Hin.
Qed.

(** X11. A call with timeout 0 (or negative) arms no timer and never
    times out: however much time passes and whatever else happens, its
    promise stays pending until a reply comes under its token, and that
    reply fulfils it. *)
Theorem call_without_timeout s action data timeout tr v :
  wf s → located s → timeout ≤ 0 →
  action = HANDSHAKE_ACTION ∨ _connected s = true →
  let p := length (promises s) in
  let id := call_token s in
  let s1 := (_sendMessage action data timeout s).2 in
  Forall (λ e, ∀ v', e ≠ EReply id v') tr →
  (_sendMessage action data timeout s).1 = p
  ∧ timers s1 = timers s
  ∧ promise_state p (run tr s1) = Some Pending
  ∧ (∀ t, t ∈ timers (run tr s1) → t_call t ≠ p)
  ∧ promise_state p (step (EReply id v) (run tr s1))
    = Some (Settled (Fulfilled v)).
Proof.
  intros Hwf Hloc Ht Hok p id s1 Hno. subst s1.
  rewrite _sendMessage_unfold in *. cbn [fst snd] in *.
  assert (Hwf1 := wf_call action data timeout s Hwf Hok).
  assert (Hl := listening_after_call action data timeout s Hwf Hloc Ht).
  assert (Hl' := listening_run _ _ tr _ Hwf1 Hl Hno).
  destruct Hl' as (Hst & _ & Htn & Hin & _).
  split; [done |]. split.
  { unfold after_call. cbn. by destruct (Z.ltb_spec 0 timeout); [lia |]. }
  split; [done |]. split; [done |].
  by apply reply_fulfils.
Qed.

(** A listener is removed by nothing but the timeout of its call. *)
Lemma listener_kept_step e s l :
  wf s → l ∈ _emitter s →
  (∀ t, t ∈ timers s → t_call t ≠ l_call l) →
  l ∈ _emitter (step e s).
Proof.
  intros Hwf Hl Hnt.
  assert (Hk := wf_listeners s Hwf l Hl).
  destruct (before_fields e s) as (_ & Hbe & _).
  pose proof (step_evolves e s) as Hev.
  rewrite <- Hbe in Hl.
  destruct (ev_listeners_kept _ _ _ Hev l Hl) as [Hin | Ht]; [done |].
  destruct e; simpl in Ht; try done.
  - cbn [step]. rewrite emitter_window_callback. by rewrite <- Hbe.
  - destruct Ht as (Hp & t & Ha & _).
    apply armed_Some in Ha as [Ha Hp'].
    destruct (Hnt t Ha). congruence.
  - destruct Ht as (j & Hj & Hd).
    assert (j.1 ∈ all_reactions s) as Hin.
    { unfold all_reactions. apply elem_of_app. left.
      destruct (microtasks s) as [| j' jobs]; [done |].
      injection Hj as ->. by left. }
    destruct (wf_targets s Hwf _ Hin) as (k & Hk' & Hdk).
    rewrite <- Hd, Hk in Hk'. injection Hk' as <-.
    by destruct (r_callback j.1).
  - destruct Ht as [Hq Hk']. rewrite <- Hq, Hk in Hk'. discriminate.
Qed.

(** X12. The listener of a call that was answered is never removed:
    [callbackReceived] clears the timer and resolves the promise but does
    not call [off], and with the timer gone nothing else will. Every
    answered call leaves one more listener in the emitter for the life of
    the channel. *)
Theorem answered_listener_stays s action data timeout tr v tr' :
  wf s → located s → 0 < timeout →
  action = HANDSHAKE_ACTION ∨ _connected s = true →
  let p := length (promises s) in
  let id := call_token s in
  let s1 := (_sendMessage action data timeout s).2 in
  Forall (λ e, ∀ v', e ≠ EReply id v') tr →
  clock (run tr s1) < clock s + timeout →
  let s2 := run tr' (step (EReply id v) (run tr s1)) in
  promise_state p s2 = Some (Settled (Fulfilled v))
  ∧ mkListener id p ∈ _emitter s2
  ∧ p ∈ listeners id s2.
Proof.
  intros Hwf Hloc Ht Hok p id s1 Hno Hcl s2. subst s1 s2.
  rewrite _sendMessage_unfold in *. cbn [fst snd] in *.
  assert (Hwf1 := wf_call action data timeout s Hwf Hok).
  assert (Hw := waiting_after_call action data timeout s Hwf Hloc Ht).
  assert (Hw' := waiting_run_early _ _ _ tr _ Hwf1 Hw Hno Hcl).
  assert (Hwf2 : wf (run tr (after_call action data timeout s)))
    by (by apply wf_run).
  assert (Ha := waiting_reply p id _ v _ Hw').
  assert (Hl : mkListener id p
               ∈ _emitter (step (EReply id v)
                             (run tr (after_call action data timeout s)))).
  { cbn [step]. rewrite emitter_window_callback. apply Hw'. }
  assert (Hwf3 := wf_step (EReply id v) _ Hwf2).
  revert Ha Hl Hwf3.
  generalize (step (EReply id v) (run tr (after_call action data timeout s))).
  clear. intros s2 Ha Hl Hwf.
  assert (Hall : answered p v (run tr' s2)
                 ∧ mkListener id p ∈ _emitter (run tr' s2)).
  { revert s2 Ha Hl Hwf.
    induction tr' as [| e tr' IH]; intros s2 Ha Hl Hwf; [done |].
    change (run (e :: tr') s2) with (run tr' (step e s2)).
    apply IH; [by apply answered_step | | by apply wf_step].
    apply listener_kept_step; [done | done |]. apply Ha. }
  destruct Hall as [Ha' Hl']. split; [apply Ha' |]. split; [done |].
  unfold listeners. apply list_elem_of_fmap.
  exists (mkListener id p). split; [done |].
  apply list_elem_of_filter. split; [| done]. cbn. apply String.eqb_refl.
Qed.

End Calls.

(** ** [sendMessage] and the handshake *)

Section Messages.

Context {G : Type} `{IdGenerator G}.

Implicit Types (s : State G) (p q d w : nat) (o : Outcome).

Lemma promise_state_then_old i p cb k s st :
  promise_state i s = Some st →
  promise_state i (then_ p cb k s).2 = Some st.
Proof.
  intros Hi. rewrite then_unfold, promise_state_subscribe.
  unfold promise_state in *. cbn [new_promise snd promises set_promises].
  rewrite lookup_app_l; [done |].
  apply fmap_Some in Hi as (pr & Hpr & _). by eapply lookup_lt_Some.
Qed.

(** X13. On a channel as the constructor and any sequence of events can
    have left it, [sendMessage] never throws: it returns a new promise,
    which is pending when the call returns. *)
Theorem sendMessage_returns s action data timeout :
  reachable s →
  ∃ d, (sendMessage action data timeout s).1 = Return d
       ∧ promise_state d (sendMessage action data timeout s).2
         = Some Pending.
Proof.
  intros Hr. destruct (_whenReady s) as [w |] eqn:Ew.
  - rewrite (sendMessage_ready _ _ _ _ w Ew). eexists. split; [done |].
    rewrite pair_snd. apply promise_state_then_new.
  - destruct (reachable_unstarted s Hr Ew) as (Hcg & Hcd & _).
    rewrite (sendMessage_unstarted _ _ _ _ Ew Hcd Hcg). eexists.
    split; [done |]. rewrite pair_snd. apply promise_state_then_new.
Qed.

(** X14. [sendMessage] on a channel that never started a handshake
    starts one: exactly one envelope is posted during the call, the
    handshake request, and the channel is connecting with a pending
    [_whenReady]; the message itself is not posted by the call. While the
    handshake is known, further [sendMessage] and [sendHandshake] calls
    post nothing. *)
Theorem sendMessage_starts_handshake s action data timeout :
  reachable s → located s → _whenReady s = None →
  let s1 := (sendMessage action data timeout s).2 in
  sent s1 = sent s ++ [request_payload (_cb (cfg s)) (call_token s)
                         HANDSHAKE_ACTION (VStr (_hm (cfg s)))]
  ∧ connection s1 = Connecting
  ∧ (∃ w, _whenReady s1 = Some w ∧ promise_state w s1 = Some Pending
          ∧ sendHandshake s1 = (Return (Some w), s1))
  ∧ (∀ action' data' timeout',
       sent (sendMessage action' data' timeout' s1).2 = sent s1).
Proof.
  intros Hr Hloc Ew s1. subst s1.
  destruct (reachable_unstarted s Hr Ew) as (Hcg & Hcd & _).
  rewrite (sendMessage_unstarted _ _ _ _ Ew Hcd Hcg). rewrite pair_snd.
  generalize (CbSend action data (default (_messageTimeout (cfg s)) timeout)).
  intros cb.
  destruct (then_frame (handshake_promise s) cb KMessage (after_handshake s))
    as (_ & _ & Hcg1 & Hcd1 & Hw1 & _ & _ & Hs1 & _).
  destruct (after_handshake_fields s) as (Hcg0 & Hcd0 & Hw0 & Hp0 & Hs0).
  pose proof (promise_state_then_old (handshake_promise s)
                (handshake_promise s) cb KMessage (after_handshake s)
                Pending Hp0) as Hp1.
  revert Hcg1 Hcd1 Hw1 Hs1 Hp1.
  generalize (then_ (handshake_promise s) cb KMessage (after_handshake s)).2.
  intros s1 Hcg1 Hcd1 Hw1 Hs1 Hp1.
  rewrite Hw0 in Hw1. rewrite Hcg0 in Hcg1. rewrite Hcd0, Hcd in Hcd1.
  split; [rewrite Hs1; by apply Hs0 |].
  split.
  { unfold connection. by rewrite Hcd1, Hcg1. }
  split.
  { exists (handshake_promise s). split; [done |]. split; [done |].
    rewrite sendHandshake_connecting by done. by rewrite Hw1. }
  intros action' data' timeout'.
  rewrite (sendMessage_ready _ _ _ _ _ Hw1). rewrite pair_snd.
  apply sent_then.
Qed.

(** X15. In every reachable state, an envelope in the transport log
    whose action is not one of the two reserved ones comes after a
    handshake request in the log, and the channel is connected: no message
    is posted before the handshake was acknowledged. *)
Theorem messages_follow_handshake s l1 env l2 :
  reachable s → sent s = l1 ++ env :: l2 → is_message env →
  _connected s = true ∧ ∃ h, h ∈ l1 ∧ is_handshake h.
Proof.
  intros Hr Hs Hm. by apply (wf_sent s (reachable_wf s Hr) l1 env l2).
Qed.

(** X16. A reachable channel with a transport is connected only if it
    has posted a handshake request. *)
Theorem connected_after_handshake_request s :
  reachable s → located s → _connected s = true →
  ∃ h, h ∈ sent s ∧ is_handshake h.
Proof.
  intros Hr Hloc Hc.
  apply (wf_handshake_sent s (reachable_wf s Hr) Hloc). by left.
Qed.

Lemma NoDup_fmap_eq {A B} (f : A → B) (l : list A) x y :
  NoDup (f <$> l) → x ∈ l → y ∈ l → f x = f y → x = y.
Proof.
  intros Hnd Hx Hy Hf.
  apply list_elem_of_lookup in Hx as [i Hi].
  apply list_elem_of_lookup in Hy as [j Hj].
  assert (i = j).
  { apply (NoDup_lookup (f <$> l) i j (f x)); [done | |].
    - by rewrite list_lookup_fmap, Hi.
    - by rewrite list_lookup_fmap, Hj, Hf. }
  subst j. congruence.
Qed.

(** A message promise is settled by nothing but the job of the reaction
    registered for it. *)
Lemma message_untouched e s r :
  wf s → r ∈ all_reactions s → kind_of (r_derived r) s = Some KMessage →
  touched e s (r_derived r) →
  e = EMicrotask ∧ ∃ j, head (microtasks s) = Some j
                        ∧ r_derived j.1 = r_derived r.
Proof.
  intros Hwf Hin Hk Ht. destruct e; simpl in Ht; try done.
  - apply listeners_elem in Ht as (l & Hl & _ & Hp).
    apply (wf_listeners s Hwf) in Hl. rewrite Hp, Hk in Hl. discriminate.
  - destruct Ht as (Hp' & t & Ha & _). apply armed_Some in Ha as [Ha Hp].
    apply (wf_timers s Hwf) in Ha. rewrite Hp, <- Hp', Hk in Ha.
    discriminate.
  - split; [done |]. destruct Ht as (j & Hj & Hd). eauto.
  - destruct Ht as [Hq Hk']. rewrite <- Hq, Hk in Hk'. discriminate.
Qed.

Lemma behind_step action data timeout d w e s :
  let r := mkReaction (CbSend action data timeout) d in
  wf s → kind_of d s = Some KMessage → behind r w s →
  behind r w (step e s).
Proof.
  intros r Hwf Hkd Hb.
  unfold behind in *. change (r_derived r) with d in *.
  assert (Hrd : r_derived r = d) by done.
  assert (Hrc : r_callback r = CbSend action data timeout) by done.
  clearbody r.
  destruct (before_fields e s) as (Hbp & _).
  pose proof (step_evolves e s) as Hev.
  assert (Hstable : ∀ i o, promise_state i s = Some (Settled o) →
                           promise_state i (step e s) = Some (Settled o)).
  { intros i o. apply promise_state_step. }
  assert (Hnd := wf_nodup s Hwf).
  destruct Hb as [(Hw & Hd & pr & Hpr & Hr)
                 | [(o & Hw & Hd & Hj)
                   | [(reason & Hw & Hd) | (v & Hw)]]].
  - (* registered on the pending handshake promise *)
    assert (Hin : r ∈ all_reactions s).
    { unfold all_reactions. apply elem_of_app. right.
      apply list_elem_of_In, in_concat. exists (reactions pr).
      split; [| by apply list_elem_of_In].
      apply list_elem_of_In, list_elem_of_fmap. exists pr. split; [done |].
      by eapply list_elem_of_lookup_2. }
    assert (Hd' : promise_state d (step e s) = Some Pending).
    { unfold promise_state in Hd |- *.
      destruct (promises s !! d) as [prd |] eqn:Ed; [| done].
      simpl in Hd. injection Hd as Hd. rewrite <- Hbp in Ed.
      destruct (ev_promises _ _ _ Hev d prd Ed) as (prd' & Ed' & _ & Hst).
      rewrite Ed'. simpl. rewrite Hd in Hst.
      destruct Hst as [[-> _] | [Ht _]]; [done |].
      rewrite <- Hrd in Ht, Hkd.
      destruct (message_untouched e s r Hwf Hin Hkd Ht)
        as (-> & j & Hj & Hjd).
      exfalso.
      assert (Hjin : j.1 ∈ fst <$> microtasks s).
      { apply list_elem_of_fmap. exists j. split; [done |].
        destruct (microtasks s) as [| j' q]; [done |].
        injection Hj as ->. by left. }
      unfold all_reactions in Hnd. rewrite fmap_app in Hnd.
      apply NoDup_app in Hnd as (_ & Hdisj & _).
      apply (Hdisj (r_derived j.1)).
      - apply list_elem_of_fmap. by exists j.1.
      - rewrite Hjd. apply list_elem_of_fmap. exists r. split; [done |].
        apply list_elem_of_In, in_concat. exists (reactions pr).
        split; [| by apply list_elem_of_In].
        apply list_elem_of_In, list_elem_of_fmap. exists pr.
        split; [done |]. by eapply list_elem_of_lookup_2. }
    rewrite <- Hbp in Hpr.
    destruct (ev_promises _ _ _ Hev w pr Hpr) as (pr' & Epr' & _ & Hst).
    unfold promise_state in Hw. rewrite <- Hbp, Hpr in Hw.
    injection Hw as Hw. rewrite Hw in Hst.
    destruct Hst as [[Hp' Hkeep] | (_ & o & Ho & Hjobs)].
    + left. split; [| split; [done |]].
      * unfold promise_state. by rewrite Epr', <- Hp'.
      * exists pr'. split; [done |]. by apply Hkeep.
    + right. left. exists o. split; [| split; [done |]].
      * unfold promise_state. by rewrite Epr', <- Ho.
      * by apply Hjobs.
  - (* queued with the outcome of the handshake promise *)
    assert (Hin : r ∈ all_reactions s).
    { unfold all_reactions. apply elem_of_app. left.
      apply list_elem_of_fmap. by exists (r, o). }
    assert ((e = EMicrotask
             ∧ ∃ j, head (microtasks s) = Some j ∧ r_derived j.1 = d)
            ∨ ¬ (e = EMicrotask
                 ∧ ∃ j, head (microtasks s) = Some j ∧ r_derived j.1 = d))
      as [[-> (j & Hj' & Hjd)] | Hno].
    { destruct e; try (right; by intros [? _]).
      destruct (microtasks s) as [| j q];
        [right; by intros (_ & j & ? & _) |].
      destruct (decide (r_derived j.1 = d)) as [Hjd | Hjd].
      - left. split; [done |]. by exists j.
      - right. intros (_ & j' & [= <-] & ?). done. }
    + (* the job runs *)
      assert (j = (r, o)) as ->.
      { unfold all_reactions in Hnd. rewrite fmap_app in Hnd.
        apply NoDup_app in Hnd as (Hnd & _).
        rewrite <- list_fmap_compose in Hnd.
        apply (NoDup_fmap_eq _ _ _ _ Hnd); [| done | cbn; congruence].
        destruct (microtasks s) as [| j' q]; [done |].
        injection Hj' as ->. by left. }
      cbn [step]. unfold run_microtask.
      destruct (microtasks s) as [| j' q] eqn:Eq; [done |].
      injection Hj' as ->.
      destruct r as [cb d']. cbn in Hrd, Hrc. subst cb d'.
      destruct o as [v | reason]; cbn [run_job].
      * right. right. right. exists v.
        rewrite (surjective_pairing (_sendMessage _ _ _ _)).
        change (promise_state w (adopt ?a ?b ?s')) with (promise_state w s').
        rewrite _sendMessage_unfold. cbn [snd].
        unfold promise_state in Hw |- *.
        apply fmap_Some in Hw as (pr & Hpr & Hst).
        unfold after_call. cbn [promises set_microtasks].
        rewrite lookup_app_l by (by eapply lookup_lt_Some).
        rewrite Hpr. cbn. by rewrite Hst.
      * right. right. left. exists reason. split.
        -- by apply promise_state_settled_stable.
        -- by apply promise_state_settle_pending.
    + (* the job stays queued *)
      right. left. exists o. split; [by apply Hstable | split].
      * unfold promise_state in Hd |- *.
        destruct (promises s !! d) as [prd |] eqn:Ed; [| done].
        simpl in Hd. injection Hd as Hd. rewrite <- Hbp in Ed.
        destruct (ev_promises _ _ _ Hev d prd Ed) as (prd' & Ed' & _ & Hst).
        rewrite Ed'. simpl. rewrite Hd in Hst.
        destruct Hst as [[-> _] | [Ht _]]; [done |].
        rewrite <- Hrd in Ht, Hkd.
        destruct (message_untouched e s r Hwf Hin Hkd Ht) as (-> & Hx).
        destruct Hno. split; [done |]. by rewrite <- Hrd.
      * apply (ev_jobs _ _ _ Hev).
        destruct e; try done. simpl.
        destruct (microtasks s) as [| j q]; [done |].
        apply elem_of_cons in Hj as [<- | Hj]; [| done].
        destruct Hno. split; [done |]. by exists (r, o).
  - right. right. left. exists reason. split; by apply Hstable.
  - right. right. right. exists v. by apply Hstable.
Qed.

Lemma kind_of_step i k e s :
  kind_of i s = Some k → kind_of i (step e s) = Some k.
Proof.
  intros Hk. destruct (before_fields e s) as (Hbp & _).
  unfold kind_of in *. apply fmap_Some in Hk as (pr & Hpr & ->).
  rewrite <- Hbp in Hpr.
  destruct (ev_promises _ _ _ (step_evolves e s) i pr Hpr)
    as (pr' & -> & Hk & _). cbn. by rewrite Hk.
Qed.

Lemma behind_run action data timeout d w tr s :
  let r := mkReaction (CbSend action data timeout) d in
  wf s → kind_of d s = Some KMessage → behind r w s →
  behind r w (run tr s).
Proof.
  intros r. revert s. induction tr as [| e tr IH]; intros s Hwf Hk Hb;
    [done |].
  change (run (e :: tr) s) with (run tr (step e s)).
  apply IH; [by apply wf_step | by apply kind_of_step |].
  by apply behind_step.
Qed.

(** What [then] on the handshake promise leaves: the reaction stored on
    the pending promise, or its job queued. *)
Lemma behind_then cb w st s :
  promise_state w s = Some st →
  behind (mkReaction cb (length (promises s))) w (then_ w cb KMessage s).2.
Proof.
  intros Hw.
  assert (Hd := promise_state_then_new w cb KMessage s).
  assert (Hw' := promise_state_then_old w w cb KMessage s st Hw).
  rewrite then_unfold in *. rewrite subscribe_unfold in *.
  unfold promise_state in Hw. apply fmap_Some in Hw as (pr & Hpr & Hst).
  assert (Hlt : (w < length (promises s))%nat) by (by eapply lookup_lt_Some).
  destruct st as [| o].
  - left. split; [done |]. split; [done |].
    cbn [new_promise snd promises set_promises set_microtasks].
    eexists. split.
    + rewrite list_lookup_alter_eq, lookup_app_l, Hpr by done. done.
    + unfold subscribed_rec. rewrite <- Hst. cbn.
      apply elem_of_app. right. by left.
  - right. left. exists o. split; [done |]. split; [done |].
    cbn [new_promise snd promises set_promises set_microtasks microtasks].
    apply elem_of_app. right. unfold subscribe_jobs.
    cbn [new_promise snd promises set_promises].
    rewrite lookup_app_l, Hpr, <- Hst by done. by left.
Qed.

Lemma microtasks_settle p o s :
  microtasks (settle p o s) = microtasks s ++ settle_jobs p o s.
Proof. by rewrite settle_unfold. Qed.

Lemma microtasks_subscribe p r s :
  microtasks (subscribe p r s) = microtasks s ++ subscribe_jobs p r s.
Proof. by rewrite subscribe_unfold. Qed.

(** A job only appends to the queue. *)
Lemma microtasks_run_job j s :
  ∃ l, microtasks (run_job j s) = microtasks s ++ l.
Proof.
  destruct j as [[cb d] [v | reason]]; destruct cb; cbn [run_job];
    try (rewrite microtasks_settle; by eexists);
    try (rewrite microtasks_subscribe; by eexists).
  - rewrite (surjective_pairing (_sendMessage action data timeout s)).
    unfold adopt. cbn [microtasks set_microtasks].
    rewrite _sendMessage_unfold. by eexists.
  - unfold _sendMessageCallback, postMessage.
    destruct (parent (cfg s)); rewrite microtasks_settle; by eexists.
  - by eexists.
Qed.

(** The job of a message waiting on a rejected handshake runs when the
    jobs queued before it have run, and rejects the message promise. *)
Lemma queued_rejection_runs action data timeout d reason k s :
  let r := mkReaction (CbSend action data timeout) d in
  wf s → kind_of d s = Some KMessage →
  promise_state d s = Some Pending →
  microtasks s !! k = Some (r, Rejected reason) →
  promise_state d (drain (S k) s) = Some (Settled (Rejected reason)).
Proof.
  intros r. revert s. induction k as [| k IH]; intros s Hwf Hkd Hd Hk.
  - cbn [drain]. unfold run_microtask.
    destruct (microtasks s) as [| j q]; [done |].
    injection Hk as ->. cbn [run_job r].
    by apply promise_state_settle_pending.
  - change (drain (S (S k)) s) with (drain (S k) (step EMicrotask s)).
    assert (Hnd := wf_nodup s Hwf).
    assert (Hin : (r, Rejected reason) ∈ microtasks s)
      by (by eapply list_elem_of_lookup_2).
    assert (Hra : r ∈ all_reactions s).
    { unfold all_reactions. apply elem_of_app. left.
      apply list_elem_of_fmap. by exists (r, Rejected reason). }
    apply IH.
    + by apply wf_step.
    + by apply kind_of_step.
    + destruct (before_fields EMicrotask s) as (Hbp & _).
      pose proof (step_evolves EMicrotask s) as Hev.
      unfold promise_state in Hd |- *.
      destruct (promises s !! d) as [prd |] eqn:Ed; [| done].
      simpl in Hd. injection Hd as Hd. rewrite <- Hbp in Ed.
      destruct (ev_promises _ _ _ Hev d prd Ed) as (prd' & Ed' & _ & Hst).
      rewrite Ed'. simpl. rewrite Hd in Hst.
      destruct Hst as [[-> _] | [Ht _]]; [done |].
      destruct (message_untouched EMicrotask s r Hwf Hra Hkd Ht)
        as (_ & j & Hj & Hjd).
      exfalso.
      unfold all_reactions in Hnd. rewrite fmap_app in Hnd.
      apply NoDup_app in Hnd as (Hnd & _).
      rewrite <- list_fmap_compose in Hnd.
      assert (0%nat = S k); [| done].
      apply (NoDup_lookup _ _ _ d Hnd).
      * rewrite list_lookup_fmap.
        destruct (microtasks s) as [| j' q]; [done |].
        injection Hj as ->. cbn. by rewrite Hjd.
      * by rewrite list_lookup_fmap, Hk.
    + cbn [step]. unfold run_microtask.
      destruct (microtasks s) as [| j q] eqn:Eq; [done |].
      destruct (microtasks_run_job j (set_microtasks q s)) as [l ->].
      cbn [microtasks set_microtasks]. cbn in Hk.
      by apply lookup_app_l_Some.
Qed.

(** X17. A failed handshake fails the messages that wait for it, rather
    than leaving them pending: when the promise in [_whenReady] that
    [sendMessage] chained on is rejected, running the microtask queue
    rejects the promise that [sendMessage] returned with the same reason;
    it is rejected as soon as the queue is empty. *)
Theorem handshake_failure_fails_message s action data timeout tr reason d w :
  reachable s →
  let s1 := (sendMessage action data timeout s).2 in
  (sendMessage action data timeout s).1 = Return d →
  _whenReady s1 = Some w →
  promise_state w (run tr s1) = Some (Settled (Rejected reason)) →
  (∃ n, promise_state d (drain n (run tr s1))
        = Some (Settled (Rejected reason)))
  ∧ (microtasks (run tr s1) = [] →
     promise_state d (run tr s1) = Some (Settled (Rejected reason))).
Proof.
  intros Hr s1 Hd Hw Hrej. subst s1.
  assert (Hwf := reachable_wf s Hr).
  assert (∃ s0 w0 st,
            wf s0 ∧ _whenReady s0 = Some w0
            ∧ promise_state w0 s0 = Some st
            ∧ sendMessage action data timeout s
              = (Return (length (promises s0)),
                 (then_ w0 (CbSend action data
                              (default (_messageTimeout (cfg s)) timeout))
                    KMessage s0).2))
    as (s0 & w0 & st & Hwf0 & Hw0 & Hst0 & Heq).
  { destruct (_whenReady s) as [w1 |] eqn:Ew.
    - pose proof (wf_whenReady s Hwf w1 Ew) as Hk.
      unfold kind_of in Hk. apply fmap_Some in Hk as (pr & Hpr & _).
      exists s, w1, (pstate pr). split; [done |]. split; [done |].
      split; [unfold promise_state; by rewrite Hpr |].
      by apply sendMessage_ready.
    - destruct (reachable_unstarted s Hr Ew) as (Hcg & Hcd & _).
      destruct (after_handshake_fields s) as (_ & _ & Hw0 & Hp0 & _).
      exists (after_handshake s), (handshake_promise s), Pending.
      split; [by apply wf_after_handshake |]. split; [done |].
      split; [done |]. by apply sendMessage_unstarted. }
  rewrite Heq in Hd, Hw, Hrej |- *. rewrite pair_fst in Hd.
  rewrite pair_snd in Hw, Hrej |- *.
  injection Hd as <-.
  set (cb := CbSend action data (default (_messageTimeout (cfg s)) timeout))
    in *.
  assert (Hk0 := wf_whenReady s0 Hwf0 w0 Hw0).
  assert (Hwf1 : wf (then_ w0 cb KMessage s0).2).
  { by apply (wf_then w0 cb KMessage KWhenReady). }
  assert (Hkd : kind_of (length (promises s0)) (then_ w0 cb KMessage s0).2
                = Some KMessage) by apply kind_of_then_new.
  assert (Hb := behind_then cb w0 st s0 Hst0).
  assert (w = w0) as ->.
  { destruct (then_frame w0 cb KMessage s0) as (_ & _ & _ & _ & Hwr & _).
    rewrite Hwr, Hw0 in Hw. by injection Hw. }
  revert Hwf1 Hkd Hb Hrej.
  generalize (then_ w0 cb KMessage s0).2. intros s1 Hwf1 Hkd Hb Hrej.
  pose proof (behind_run action data
                (default (_messageTimeout (cfg s)) timeout)
                (length (promises s0)) w0 tr s1 Hwf1 Hkd Hb) as Hb'.
  assert (Hwf2 : wf (run tr s1)) by (by apply wf_run).
  assert (Hkd2 : kind_of (length (promises s0)) (run tr s1) = Some KMessage).
  { clear -Hkd. revert s1 Hkd. induction tr as [| e tr IH]; intros s1 Hkd;
      [done |].
    change (run (e :: tr) s1) with (run tr (step e s1)).
    by apply IH, kind_of_step. }
  destruct Hb' as [(Hp & _) | [(o & Ho & Hpd & Hj) | [(reason' & Hw' & Hd')
                                                     | (v & Hv)]]].
  - rewrite Hp in Hrej. discriminate.
  - rewrite Ho in Hrej. injection Hrej as ->. split.
    + apply list_elem_of_lookup in Hj as [k Hk]. exists (S k).
      by apply (queued_rejection_runs action data
                  (default (_messageTimeout (cfg s)) timeout) _ reason k).
    + intros Hq. rewrite Hq in Hj. by apply elem_of_nil in Hj.
  - cbn [r_derived] in Hd'. rewrite Hw' in Hrej. injection Hrej as <-.
    split; [by exists 0%nat | done].
  - rewrite Hv in Hrej. discriminate.
Qed.

End Messages.

(** ** A message, start to end *)

Section MessageScenarios.

Context {G : Type} `{IdGenerator G}.

Implicit Types (s : State G) (p q d w : nat) (o : Outcome).

(** X18. On a channel whose handshake was acknowledged, [sendMessage]
    posts nothing itself; the next microtask turn posts one request
    envelope with the given action and data, the name of the callback
    global and a new token, and arms a timer for the call when the timeout
    (the [messageTimeout] of the channel when none is given) is positive.
    That turn's handler returns the promise of the call, so the promise
    that [sendMessage] returned follows it through one job of the engine
    and one reaction: it is still pending after the first turn, and the
    reply of the app under the token fulfils it with the value of the reply
    once two more microtask turns have run, whether the reply arrives after
    the first of them or before both (one turn after the reply is not
    enough then).  Nothing more is posted and the queue ends empty. *)
Theorem sendMessage_round_trip s action data timeout w v0 v :
  located s → _whenReady s = Some w →
  promise_state w s = Some (Settled (Fulfilled v0)) →
  microtasks s = [] → listeners (call_token s) s = [] →
  let d := length (promises s) in
  let t := default (_messageTimeout (cfg s)) timeout in
  let s0 := step (ESendMessage action data timeout) s in
  let s1 := step EMicrotask s0 in
  let s2 := run [EMicrotask; EReply (call_token s) v] s1 in
  let s3 := step EMicrotask s2 in
  let s2' := run [EReply (call_token s) v; EMicrotask] s1 in
  let s3' := step EMicrotask s2' in
  (sendMessage action data timeout s).1 = Return d
  ∧ sent s0 = sent s
  ∧ sent s1 = sent s ++ [request_payload (_cb (cfg s)) (call_token s)
                           action data]
  ∧ timers s1 = (if 0 <? t
                 then timers s ++ [mkTimer (S d) (call_token s) (clock s + t)]
                 else timers s)
  ∧ promise_state d s1 = Some Pending
  ∧ (promise_state d s2 = Some Pending
     ∧ promise_state d s3 = Some (Settled (Fulfilled v))
     ∧ sent s3 = sent s1 ∧ microtasks s3 = [])
  ∧ (promise_state d s2' = Some Pending
     ∧ promise_state d s3' = Some (Settled (Fulfilled v))
     ∧ sent s3' = sent s1 ∧ microtasks s3' = []).
Proof.
  intros [tgt Hloc] Hw Hpw Hm Hl d t s0 s1 s2 s3 s2' s3'.
  subst s3' s2' s3 s2 s1 s0 t d. cbn [step].
  rewrite (sendMessage_ready _ _ _ _ w Hw). rewrite pair_fst, pair_snd.
  destruct s as [c g cg cd wr E P T M snt clk].
  unfold listeners, call_token, promise_state in Hl, Hpw |- *.
  cbn in Hloc, Hw, Hpw, Hm, Hl.
  cbn [cfg _idGen clock sent promises timers].
  subst M wr.
  set (t := default (_messageTimeout c) timeout).
  eassert (H0 : (then_ w (CbSend action data t) KMessage
                   (mkState c g cg cd (Some w) E P T [] snt clk)).2 = _).
  { rewrite state_nil. rewrite (then_settled_tail _ _ _ _ _ _ _ _ _ _ _ _ _ _ _ _ Hpw).
    sym. reflexivity. }
  rewrite H0. clear H0.
  match goal with
  | |- context [run_microtask ?X] => eassert (H1 : run_microtask X = _)
  end.
  { sym. rewrite Hloc. sym. reflexivity. }
  rewrite H1. clear H1.
  match goal with
  | |- context [run [EMicrotask; ?e] ?X] =>
      eassert (H2 : run [EMicrotask; e] X = _)
  end.
  { unfold run. sym.
    rewrite window_callback_tail by done. sym. reflexivity. }
  rewrite H2. clear H2.
  match goal with
  | |- context [run [?e; EMicrotask] ?X] =>
      eassert (H3 : run [e; EMicrotask] X = _)
  end.
  { unfold run. sym.
    rewrite window_callback_tail by done. sym. reflexivity. }
  rewrite H3. clear H3.
  match goal with
  | |- context [run_microtask ?X] => eassert (H4 : run_microtask X = _)
  end.
  { sym. reflexivity. }
  rewrite H4. clear H4.
  cbn [sent timers promises microtasks].
  split; [done |]. split; [done |]. split; [done |].
  split.
  { destruct (0 <? t); [| done]. do 3 f_equal. lia. }
  rewrite !lookup_tail0. done.
Qed.

End MessageScenarios.

(** ** Calls from the app *)

Section Inbound.

Context {G : Type} `{IdGenerator G}.

Implicit Types (s : State G) (p q d w : nat) (o : Outcome).

(** X19. A call from the app whose handler returns a value (or for which
    no handler function was given: the result is then [null]) posts one
    reply envelope with the call's id and that value before it returns, and
    changes nothing else. When the handler throws, the exception goes to
    the app's call, nothing is posted, and the channel is left as it was:
    no reply will follow. *)
Theorem inbound_call_synchronous s id action data :
  located s →
  (∀ v, _handleMessage action data s = HReturns v →
     ∃ s', window_handler id action data s = (Return (), s')
           ∧ s' = set_sent (sent s ++ [reply_payload id v]) s)
  ∧ (handleMessage (cfg s) = None →
     _handleMessage action data s = HReturns VNull)
  ∧ (∀ h, handleMessage (cfg s) = Some h →
     _handleMessage action data s = h action data)
  ∧ (∀ e, _handleMessage action data s = HThrows e →
     window_handler id action data s = (Throw e, s)).
Proof.
  intros [tgt Hloc]. unfold window_handler, _handleMessage.
  split_and!.
  - intros v ->. unfold _sendMessageCallback, postMessage. rewrite Hloc.
    by eexists.
  - by intros ->.
  - by intros h ->.
  - by intros e ->.
Qed.

(** X20. A call from the app whose handler returns a promise posts
    nothing when it returns. When that promise is fulfilled, the next
    microtask turn posts one reply envelope with the call's id and the
    value; settling it again changes nothing. When it is rejected, no reply
    is posted: the promise made by [then] is rejected, the queue is empty
    and no reaction of the call is left. *)
Theorem inbound_call_asynchronous s id action data :
  located s → _handleMessage action data s = HPromise →
  microtasks s = [] →
  let q := length (promises s) in
  let s1 := step (EInbound id action data) s in
  window_handler id action data s = (Return (), s1)
  ∧ sent s1 = sent s
  ∧ promise_state q s1 = Some Pending
  ∧ (∀ v o,
       let s2 := run [ESettle q (Fulfilled v); ESettle q o; EMicrotask] s1 in
       sent s2 = sent s ++ [reply_payload id v]
       ∧ microtasks s2 = []
       ∧ promise_state q s2 = Some (Settled (Fulfilled v))
       ∧ sent (step EMicrotask s2) = sent s2)
  ∧ (∀ e,
       let s2 := run [ESettle q (Rejected e); EMicrotask] s1 in
       sent s2 = sent s
       ∧ microtasks s2 = []
       ∧ promise_state (S q) s2 = Some (Settled (Rejected e))
       ∧ all_reactions s2 = all_reactions s).
Proof.
  intros [tgt Hloc] Hh Hm q s1. subst s1 q. cbn [step].
  unfold window_handler. rewrite Hh.
  destruct s as [c g cg cd wr E P T M snt clk].
  unfold promise_state, all_reactions. cbn in Hloc, Hm.
  cbn [cfg _idGen clock sent promises timers microtasks]. subst M.
  eassert (H0 : new_promise KHandler Pending
                  (mkState c g cg cd wr E P T [] snt clk) = _).
  { rewrite state_nil. sym. reflexivity. }
  rewrite H0. clear H0. cbv iota beta.
  match goal with
  | |- context [then_ ?i ?cb ?k ?X] => eassert (H1 : then_ i cb k X = _)
  end.
  { sym. reflexivity. }
  rewrite H1. clear H1. cbv iota beta. rewrite pair_snd.
  split; [done |]. split; [done |].
  split.
  { cbn [promises]. by rewrite lookup_tail0. }
  replace (ESettle (length P)) with (ESettle (length P + 0)%nat)
    by (f_equal; lia).
  split.
  - intros v o.
    cbv zeta.
    match goal with
    | |- context [run ?tr ?X] => eassert (H2 : run tr X = _)
    end.
    { unfold run. sym. rewrite Hloc. sym. reflexivity. }
    rewrite H2. clear H2.
    cbn [sent microtasks promises].
    rewrite lookup_tail0. done.
  - intros e.
    cbv zeta.
    match goal with
    | |- context [run ?tr ?X] => eassert (H2 : run tr X = _)
    end.
    { unfold run. sym. reflexivity. }
    rewrite H2. clear H2.
    cbn [sent microtasks promises].
    replace (S (length P)) with (length P + 1)%nat by lia.
    rewrite lookup_tail. split; [done |]. split; [done |].
    split; [done |].
    rewrite fmap_app, concat_app. cbn. by rewrite app_nil_r.
Qed.

End Inbound.

(** ** The envelopes on the wire *)

Section Wire.

Context {G : Type} `{IdGenerator G}.

Implicit Types (s : State G) (p q d w : nat) (o : Outcome).

Lemma envelope_of_cfg s s' env :
  cfg s' = cfg s → envelope_of s env → envelope_of s' env.
Proof. unfold envelope_of. by intros ->. Qed.

Lemma sent_envelopes_step e s :
  Forall (envelope_of s) (sent s) →
  Forall (envelope_of (step e s)) (sent (step e s)).
Proof.
  intros Hall.
  assert (Hcfg := cfg_step e s).
  assert (Hall' : Forall (envelope_of (step e s)) (sent s)).
  { apply (Forall_impl _ _ _ Hall). intros env.
    by apply envelope_of_cfg. }
  destruct (sent_step e s) as [-> | (env & -> & _ & Henv)]; [done |].
  apply Forall_app. split; [done |].
  constructor; [| done]. by apply (envelope_of_cfg s).
Qed.

Lemma sent_envelopes_reachable s :
  reachable s → Forall (envelope_of s) (sent s).
Proof.
  induction 1 as [opts win s Hnew | e s _ IH].
  - unfold constructor in Hnew.
    destruct (messageHandler _ win) as [target | err]; [| done].
    destruct (o_autoHandshake opts); [| by injection Hnew as <-].
    rewrite sendHandshake_new in Hnew by done. injection Hnew as <-.
    match goal with
    | |- Forall _ (sent (after_handshake ?s0)) =>
        destruct (sent_after_handshake_cases s0) as [[_ ->] | [_ ->]];
        [done |];
        pose proof (ev_cfg _ _ _ (evolves_after_handshake (λ _, False) s0))
          as Hcfg
    end.
    constructor; [| done]. left. rewrite Hcfg. eauto.
  - by apply sent_envelopes_step.
Qed.

(** X21. Every envelope a channel ever posts has the five fields
    [type], [callback], [id], [action] and [data], in one of two forms: a
    request, whose [type] is the message type constant and whose
    [callback] is the name of the channel's callback global; or a reply,
    with the same [type], the reserved reply action and the empty string
    as [callback]. *)
Theorem posted_envelopes_shape s env :
  reachable s → env ∈ sent s →
  field "type" env = Some (VStr MESSAGE_TYPE)
  ∧ (∃ id, id_of env = Some id)
  ∧ (∃ action, action_of env = Some action)
  ∧ is_Some (field "data" env)
  ∧ (field "callback" env = Some (VStr (_cb (cfg s)))
     ∨ (field "callback" env = Some (VStr "")
        ∧ action_of env = Some CALLBACK_ACTION)).
Proof.
  intros Hr Hin.
  pose proof (sent_envelopes_reachable s Hr) as Hall.
  rewrite Forall_forall in Hall.
  destruct (Hall env Hin) as [(id & action & data & ->) | (id & data & ->)].
  - split; [done |]. split; [by exists id |]. split; [by exists action |].
    split; [by exists data |]. by left.
  - split; [done |]. split; [by exists id |].
    split; [by exists CALLBACK_ACTION |].
    split; [by exists data |]. by right.
Qed.

End Wire.

(** ** The theorems at work on the example channels *)

Lemma reachable_run {G : Type} `{IdGenerator G} tr (s : State G) :
  reachable s → reachable (run tr s).
Proof.
  revert s. induction tr as [| e tr IH]; intros s Hr; [done |].
  change (run (e :: tr) s) with (run tr (step e s)).
  by apply IH, reachable_step.
Qed.

Lemma example_reachable : reachable example_state.
Proof. exact (reachable_new _ _ _ constructed_by_constructor). Qed.

Lemma no_target_never_posts_witness :
  parent (cfg stray_state) = None
  ∧ sent (run [ESendMessage "echo" VNull None; EMicrotask; EMicrotask;
               EInbound "7" "ping" VNull] stray_state) = [].
Proof.
  split; [reflexivity |].
  exact (no_target_never_posts stray_state
           [ESendMessage "echo" VNull None; EMicrotask; EMicrotask;
            EInbound "7" "ping" VNull] eq_refl).
Defined.

Lemma sendHandshake_contract_witness :
  located example_state
  ∧ (∃ w s1,
       sendHandshake example_state = (Return (Some w), s1)
       ∧ length (sent s1) = 1%nat
       ∧ sendHandshake s1 = (Return (Some w), s1))
  ∧ (∃ s3,
       s3 = run [EReply (call_token example_state) VNull;
                 EMicrotask; EMicrotask]
              (run [ESendHandshake; ESendHandshake] example_state)
       ∧ length (sent s3) = 1%nat
       ∧ sendHandshake s3 = (Throw ALREADY_COMPLETED, s3)).
Proof.
  assert (Hloc : located example_state) by (by eexists).
  split; [exact Hloc |].
  destruct (sendHandshake_contract example_state Hloc)
    as (Hnew & _ & _ & Hack & _).
  split.
  - destruct (Hnew eq_refl eq_refl) as (w & s1 & Hret & Hsent & _ & Hagain).
    exists w, s1. split_and!; [exact Hret | | exact Hagain].
    rewrite Hsent. reflexivity.
  - destruct (Hack eq_refl eq_refl eq_refl eq_refl VNull)
      as (w & _ & _ & Hsent & _ & _ & Hthrow).
    eexists. split; [reflexivity |]. split; [| exact Hthrow].
    rewrite Hsent. reflexivity.
Defined.

Lemma handshake_acknowledged_witness :
  located example_state
  ∧ listeners (call_token example_state) example_state = []
  ∧ connection
      (run [ESendHandshake; EReply (call_token example_state) (VNum 1);
            EMicrotask; EMicrotask] example_state) = Connected.
Proof.
  assert (Hloc : located example_state) by (by eexists).
  split; [exact Hloc |]. split; [reflexivity |].
  exact (proj1 (handshake_acknowledged example_state (VNum 1) Hloc
                  eq_refl eq_refl eq_refl eq_refl)).
Defined.

Lemma handshake_times_out_witness :
  wf example_state
  ∧ 0 < _handshakeTimeout (cfg example_state) ≤ Z.of_N 3000
  ∧ connection
      (step EMicrotask
         (run [ESendHandshake; ETick 3000; ETimer 0;
               EMicrotask; EMicrotask; EMicrotask] example_state))
    = Unconnected.
Proof.
  assert (Hwf : wf example_state) by exact (reachable_wf _ example_reachable).
  assert (Hloc : located example_state) by (by eexists).
  assert (Ht : 0 < _handshakeTimeout (cfg example_state) ≤ Z.of_N 3000)
    by (vm_compute; split; [reflexivity | discriminate]).
  split; [exact Hwf |]. split; [exact Ht |].
  exact (proj1 (handshake_times_out example_state 3000 Hwf Hloc
                  eq_refl eq_refl eq_refl Ht)).
Defined.

Lemma handshake_without_target_witness :
  parent (cfg stray_state) = None
  ∧ promise_state 2
      (run [ESendHandshake; EMicrotask; EMicrotask; EMicrotask] stray_state)
    = Some Pending
  ∧ promise_state 2
      (step EMicrotask
         (run [ESendHandshake; EMicrotask; EMicrotask; EMicrotask]
            stray_state))
    = Some (Settled (Rejected TIMEOUT_HANDSHAKE)).
Proof.
  split; [reflexivity |].
  destruct (handshake_without_target stray_state eq_refl eq_refl eq_refl
              eq_refl) as (_ & _ & (w & Hret & _ & Hrej) & _).
  vm_compute in Hret. injection Hret as <-. exact Hrej.
Defined.

Lemma call_rejected_at_deadline_witness :
  wf example_state ∧ located example_state
  ∧ promise_state 0
      (run [EReply first_token VNull]
         (step (ETimer 0)
            (run [ETick 3000]
               (_sendMessage HANDSHAKE_ACTION (VStr "h") 3000
                  example_state).2)))
    = Some (Settled (Rejected TIMEOUT_MESSAGE)).
Proof.
  assert (Hwf : wf example_state) by exact (reachable_wf _ example_reachable).
  assert (Hloc : located example_state) by (by eexists).
  split; [exact Hwf |]. split; [exact Hloc |].
  refine (proj1 (proj2 (call_rejected_at_deadline example_state
                          HANDSHAKE_ACTION (VStr "h") 3000 [ETick 3000]
                          [EReply first_token VNull] Hwf Hloc _ _ _ _))).
  - reflexivity.
  - by left.
  - repeat constructor; discriminate.
  - vm_compute. discriminate.
Defined.

Lemma call_fulfilled_by_reply_witness :
  wf example_state ∧ located example_state
  ∧ promise_state 0
      (run [ETick 3000; ETimer 0]
         (step (EReply first_token (VNum 7))
            (run [ETick 2999; ETimer 0]
               (_sendMessage HANDSHAKE_ACTION (VStr "h") 3000
                  example_state).2)))
    = Some (Settled (Fulfilled (VNum 7))).
Proof.
  assert (Hwf : wf example_state) by exact (reachable_wf _ example_reachable).
  assert (Hloc : located example_state) by (by eexists).
  split; [exact Hwf |]. split; [exact Hloc |].
  refine (proj1 (proj2 (proj2 (call_fulfilled_by_reply example_state
                          HANDSHAKE_ACTION (VStr "h") 3000
                          [ETick 2999; ETimer 0] (VNum 7)
                          [ETick 3000; ETimer 0] Hwf Hloc _ _ _ _)))).
  - reflexivity.
  - by left.
  - repeat constructor; discriminate.
  - vm_compute. reflexivity.
Defined.

Lemma answered_listener_stays_witness :
  wf example_state ∧ located example_state
  ∧ 0%nat ∈ listeners first_token
      (run [ETick 3000; ETimer 0; EReply first_token VNull]
         (step (EReply first_token (VNum 7))
            (run [ETick 2999; ETimer 0]
               (_sendMessage HANDSHAKE_ACTION (VStr "h") 3000
                  example_state).2))).
Proof.
  assert (Hwf : wf example_state) by exact (reachable_wf _ example_reachable).
  assert (Hloc : located example_state) by (by eexists).
  split; [exact Hwf |]. split; [exact Hloc |].
  refine (proj2 (proj2 (answered_listener_stays example_state
                          HANDSHAKE_ACTION (VStr "h") 3000
                          [ETick 2999; ETimer 0] (VNum 7)
                          [ETick 3000; ETimer 0; EReply first_token VNull]
                          Hwf Hloc _ _ _ _))).
  - reflexivity.
  - by left.
  - repeat constructor; discriminate.
  - vm_compute. reflexivity.
Defined.

Lemma call_without_timeout_witness :
  wf example_state ∧ located example_state
  ∧ promise_state 0
      (run [ETick 1000000; ETimer 0]
         (_sendMessage HANDSHAKE_ACTION (VStr "h") 0 example_state).2)
    = Some Pending.
Proof.
  assert (Hwf : wf example_state) by exact (reachable_wf _ example_reachable).
  assert (Hloc : located example_state) by (by eexists).
  split; [exact Hwf |]. split; [exact Hloc |].
  refine (proj1 (proj2 (proj2 (call_without_timeout example_state
                          HANDSHAKE_ACTION (VStr "h") 0
                          [ETick 1000000; ETimer 0] VNull
                          Hwf Hloc _ _ _)))).
  - discriminate.
  - by left.
  - repeat constructor; discriminate.
Defined.

Lemma sendMessage_returns_witness :
  reachable example_state
  ∧ ∃ d, (sendMessage "echo" VNull None example_state).1 = Return d.
Proof.
  split; [exact example_reachable |].
  destruct (sendMessage_returns example_state "echo" VNull None
              example_reachable) as (d & Hd & _).
  by exists d.
Defined.

Lemma sendMessage_starts_handshake_witness :
  reachable example_state ∧ located example_state
  ∧ _whenReady example_state = None
  ∧ length (sent (sendMessage "echo" VNull None example_state).2) = 1%nat.
Proof.
  assert (Hloc : located example_state) by (by eexists).
  split; [exact example_reachable |]. split; [exact Hloc |].
  split; [reflexivity |].
  destruct (sendMessage_starts_handshake example_state "echo" VNull None
              example_reachable Hloc eq_refl) as (Hsent & _).
  rewrite Hsent. reflexivity.
Defined.

Lemma messages_follow_handshake_witness :
  let s := run [ESendMessage "echo" VNull None; EMicrotask]
             connected_state in
  let h := request_payload "wkPostMessengerCallback" first_token
             HANDSHAKE_ACTION (VStr "wkPostMessengerHandleMessage") in
  let env := request_payload "wkPostMessengerCallback" second_token
               "echo" VNull in
  reachable s ∧ sent s = [h] ++ env :: [] ∧ is_message env
  ∧ _connected s = true.
Proof.
  intros s h env.
  assert (Hr : reachable s)
    by (unfold s, connected_state; do 2 apply reachable_run;
        exact example_reachable).
  assert (Hs : sent s = [h] ++ env :: []) by (vm_compute; reflexivity).
  assert (Hm : is_message env).
  { exists "echo". split; [reflexivity |]. split; discriminate. }
  split; [exact Hr |]. split; [exact Hs |]. split; [exact Hm |].
  exact (proj1 (messages_follow_handshake s [h] env [] Hr Hs Hm)).
Defined.

Lemma connected_after_handshake_request_witness :
  reachable connected_state ∧ located connected_state
  ∧ _connected connected_state = true
  ∧ ∃ h, h ∈ sent connected_state ∧ is_handshake h.
Proof.
  assert (Hr : reachable connected_state)
    by (unfold connected_state; apply reachable_run; exact example_reachable).
  assert (Hloc : located connected_state) by (by eexists).
  split; [exact Hr |]. split; [exact Hloc |]. split; [reflexivity |].
  exact (connected_after_handshake_request connected_state Hr Hloc eq_refl).
Defined.

Lemma handshake_failure_fails_message_witness :
  let s1 := (sendMessage "echo" VNull None example_state).2 in
  let tr := [ETick 3000; ETimer 0;
             EMicrotask; EMicrotask; EMicrotask; EMicrotask] in
  reachable example_state
  ∧ _whenReady s1 = Some 2%nat
  ∧ promise_state 2 (run tr s1) = Some (Settled (Rejected TIMEOUT_HANDSHAKE))
  ∧ promise_state 3 (run tr s1) = Some Pending
  ∧ ∃ n, promise_state 3 (drain n (run tr s1))
         = Some (Settled (Rejected TIMEOUT_HANDSHAKE)).
Proof.
  intros s1 tr.
  split; [exact example_reachable |]. split; [reflexivity |].
  split; [vm_compute; reflexivity |]. split; [vm_compute; reflexivity |].
  refine (proj1 (handshake_failure_fails_message example_state "echo" VNull
                   None tr TIMEOUT_HANDSHAKE 3 2 example_reachable _ _ _)).
  - reflexivity.
  - reflexivity.
  - vm_compute. reflexivity.
Defined.

Lemma sendMessage_round_trip_witness :
  located connected_state
  ∧ _whenReady connected_state = Some 2%nat
  ∧ promise_state 2 connected_state = Some (Settled (Fulfilled VUndefined))
  ∧ call_token connected_state = second_token
  ∧ promise_state 3
      (run [EReply second_token (VStr "pong"); EMicrotask]
         (step EMicrotask
            (step (ESendMessage "echo" VNull None) connected_state)))
    = Some Pending
  ∧ promise_state 3
      (step EMicrotask
         (run [EReply second_token (VStr "pong"); EMicrotask]
            (step EMicrotask
               (step (ESendMessage "echo" VNull None) connected_state))))
    = Some (Settled (Fulfilled (VStr "pong"))).
Proof.
  assert (Hloc : located connected_state) by (by eexists).
  split; [exact Hloc |]. split; [reflexivity |].
  split; [vm_compute; reflexivity |]. split; [vm_compute; reflexivity |].
  assert (Hw : _whenReady connected_state = Some 2%nat) by reflexivity.
  assert (Hp : promise_state 2 connected_state
               = Some (Settled (Fulfilled VUndefined)))
    by (vm_compute; reflexivity).
  assert (Hm : microtasks connected_state = []) by (vm_compute; reflexivity).
  assert (Hl : listeners (call_token connected_state) connected_state = [])
    by (vm_compute; reflexivity).
  destruct (sendMessage_round_trip connected_state "echo" VNull None 2
              VUndefined (VStr "pong") Hloc Hw Hp Hm Hl)
    as (_ & _ & _ & _ & _ & _ & Hwait & Hdone & _).
  split; [exact Hwait | exact Hdone].
Defined.

Lemma inbound_call_synchronous_witness :
  located example_state
  ∧ window_handler "7" "ping" VNull
      (constructed (with_handler throwing_handler manual_options))
    = (Throw (VError "handler failed"),
       constructed (with_handler throwing_handler manual_options)).
Proof.
  assert (Hloc : located example_state) by (by eexists).
  split; [exact Hloc |].
  assert (Hloc' : located (constructed
                             (with_handler throwing_handler manual_options)))
    by (by eexists).
  destruct (inbound_call_synchronous
              (constructed (with_handler throwing_handler manual_options))
              "7" "ping" VNull Hloc') as (_ & _ & _ & Hthrow).
  exact (Hthrow _ eq_refl).
Defined.

Lemma inbound_call_asynchronous_witness :
  let s := constructed (with_handler async_handler manual_options) in
  located s
  ∧ _handleMessage "ping" VNull s = HPromise
  ∧ sent (run [ESettle 0 (Rejected (VError "no")); EMicrotask]
            (step (EInbound "7" "ping" VNull) s)) = [].
Proof.
  intros s.
  assert (Hloc : located s) by (by eexists).
  split; [exact Hloc |]. split; [reflexivity |].
  destruct (inbound_call_asynchronous s "7" "ping" VNull Hloc eq_refl
              eq_refl) as (_ & _ & _ & _ & Hrej).
  exact (proj1 (Hrej (VError "no"))).
Defined.

Lemma posted_envelopes_shape_witness :
  reachable connected_state
  ∧ ∃ env, env ∈ sent connected_state
           ∧ field "type" env = Some (VStr MESSAGE_TYPE).
Proof.
  assert (Hr : reachable connected_state)
    by (unfold connected_state; apply reachable_run; exact example_reachable).
  split; [exact Hr |].
  exists (request_payload "wkPostMessengerCallback" first_token
            HANDSHAKE_ACTION (VStr "wkPostMessengerHandleMessage")).
  assert (Hin : request_payload "wkPostMessengerCallback" first_token
                  HANDSHAKE_ACTION (VStr "wkPostMessengerHandleMessage")
                ∈ sent connected_state)
    by (vm_compute; by left).
  split; [exact Hin |].
  exact (proj1 (posted_envelopes_shape connected_state _ Hr Hin)).
Defined.
